(** * gr-fosphor: the sink block and the OpenGL draw stage

    A shallow embedding of [lib/base_sink_c_impl.cc] (the render thread, the
    settings register, the layout recompute and the UI action interpreter) and
    of [lib/fosphor/gl.c] (the draw stage: spectrum range, power grid, channel
    overlay sweep), with the properties the specification states about them.

    C [int] is [Z] with its 32-bit wrap-around written out, [uint32_t] masks
    are [Z] with [Z.lor]/[Z.land], [float] and [double] are IEEE-754 binary32
    and binary64 values of the Standard Library's [spec_float], arrays are
    lists read and written by index. *)

From stdpp Require Import base option list sorting.
From Stdlib Require Import ZArith QArith Qabs Qround Qpower Lia Lqa Bool.
From Stdlib Require Import Floats.SpecFloat.

Local Open Scope Z_scope.

(** ** C integers *)

Definition sint32 (z : Z) : Z := (z + 2 ^ 31) mod 2 ^ 32 - 2 ^ 31.

Definition in_int (z : Z) : Prop := - 2 ^ 31 <= z < 2 ^ 31.

(** ** IEEE-754 arithmetic, as the C [float] and [double] operators compute it

    Every operation rounds to nearest, ties to even, in the format of its
    operands. *)

Module IEEE.

Section Format.
Variables prec emax : Z.

(** Conversion of an integer, [(float)i]. *)
Definition of_Z (z : Z) : spec_float := binary_normalize prec emax z 0 false.

(** The decimal literal [num/den], both parts exactly representable. *)
Definition lit (num den : Z) : spec_float :=
  SFdiv prec emax (of_Z num) (of_Z den).

(** Conversion from another format, [(float)d]. *)
Definition round (x : spec_float) : spec_float :=
  match x with
  | S754_finite s m e => binary_normalize prec emax (cond_Zopp s (Zpos m)) e s
  | _ => x
  end.
End Format.

(** Integer part of [m * 2^e], and whether a fraction was dropped. *)
Definition int_part (m : positive) (e : Z) : Z * bool :=
  match e with
  | Zneg p => (Z.shiftr (Zpos m) (Zpos p),
               negb (Z.land (Zpos m) (Z.ones (Zpos p)) =? 0))
  | _ => (Z.shiftl (Zpos m) e, false)
  end.

(** [(int)x]: truncation toward zero; undefined (here [None]) when the
    value is not finite or does not fit an [int]. *)
Definition to_int (x : spec_float) : option Z :=
  match x with
  | S754_zero _ => Some 0
  | S754_finite s m e =>
      let z := cond_Zopp s (fst (int_part m e)) in
      if (- 2 ^ 31 <=? z) && (z <? 2 ^ 31) then Some z else None
  | _ => None
  end.

(** The exact value of a finite number. *)
Definition to_Q (x : spec_float) : Q :=
  match x with
  | S754_finite s m e =>
      match e with
      | Zneg p => Qmake (cond_Zopp s (Zpos m)) (2 ^ p)
      | _ => inject_Z (cond_Zopp s (Zpos m * 2 ^ e))
      end
  | _ => 0%Q
  end.

Definition is_nan (x : spec_float) : bool :=
  match x with S754_nan => true | _ => false end.

End IEEE.

(** *** binary32, the C [float] *)

Definition f32 := spec_float.
Definition f32_of_int : Z -> f32 := IEEE.of_Z 24 128.
Definition f32_lit : Z -> Z -> f32 := IEEE.lit 24 128.
Definition f32_add : f32 -> f32 -> f32 := SFadd 24 128.
Definition f32_sub : f32 -> f32 -> f32 := SFsub 24 128.
Definition f32_mul : f32 -> f32 -> f32 := SFmul 24 128.
Definition f32_div : f32 -> f32 -> f32 := SFdiv 24 128.
Definition f32_lt : f32 -> f32 -> bool := SFltb.
Definition f32_eq : f32 -> f32 -> bool := SFeqb.

(** [ceilf] and [floorf]. *)
Definition ceilf (x : f32) : f32 :=
  match x with
  | S754_finite s m e =>
      let '(q, frac) := IEEE.int_part m e in
      let z := if s then - q else if frac then q + 1 else q in
      binary_normalize 24 128 z 0 s
  | _ => x
  end.

Definition floorf (x : f32) : f32 :=
  match x with
  | S754_finite s m e =>
      let '(q, frac) := IEEE.int_part m e in
      let z := if s then (if frac then - q - 1 else - q) else q in
      binary_normalize 24 128 z 0 s
  | _ => x
  end.

(** *** binary64, the C [double] *)

Definition f64 := spec_float.
Definition f64_of_int : Z -> f64 := IEEE.of_Z 53 1024.
Definition f64_lit : Z -> Z -> f64 := IEEE.lit 53 1024.
Definition f64_add : f64 -> f64 -> f64 := SFadd 53 1024.
Definition f64_sub : f64 -> f64 -> f64 := SFsub 53 1024.
Definition f64_mul : f64 -> f64 -> f64 := SFmul 53 1024.
Definition f64_div : f64 -> f64 -> f64 := SFdiv 53 1024.

(** [(float)d] and [(double)f]; the latter is exact. *)
Definition f32_of_f64 : f64 -> f32 := IEEE.round 24 128.
Definition f64_of_f32 : f32 -> f64 := IEEE.round 53 1024.

(** ** The sink block, [lib/base_sink_c_impl.cc] *)

Module Sink.

(** *** What the sink takes from files that are not among the sources *)

(** Modelled from the spec: the [SETTING_*] enumerators are declared in
    [base_sink_c_impl.h], which is not among the sources. The six change
    categories of the spec (dimensions, power-range, frequency-range,
    fft-window, fft-size, render-options) get one bit each, in that order. *)
Definition SETTING_DIMENSIONS : Z := Z.shiftl 1 0.
Definition SETTING_POWER_RANGE : Z := Z.shiftl 1 1.
Definition SETTING_FREQUENCY_RANGE : Z := Z.shiftl 1 2.
Definition SETTING_FFT_WINDOW : Z := Z.shiftl 1 3.
Definition SETTING_FFT_SIZE : Z := Z.shiftl 1 4.
Definition SETTING_RENDER_OPTIONS : Z := Z.shiftl 1 5.

(** Modelled from the spec: the [FRO_*] render-option flags are declared in
    [fosphor/fosphor.h], which is not among the sources. The spec lists nine
    options (waterfall, histogram, live, max-hold, power-labels,
    time-labels, frequency-labels, color-scale, channel-overlay); each is
    one bit. *)
Definition FRO_LIVE : Z := Z.shiftl 1 0.
Definition FRO_MAX_HOLD : Z := Z.shiftl 1 1.
Definition FRO_HISTO : Z := Z.shiftl 1 2.
Definition FRO_WATERFALL : Z := Z.shiftl 1 3.
Definition FRO_LABEL_FREQ : Z := Z.shiftl 1 4.
Definition FRO_LABEL_PWR : Z := Z.shiftl 1 5.
Definition FRO_LABEL_TIME : Z := Z.shiftl 1 6.
Definition FRO_CHANNELS : Z := Z.shiftl 1 7.
Definition FRO_COLOR_SCALE : Z := Z.shiftl 1 8.

(** [x & mask] used as a condition. *)
Definition test (x mask : Z) : bool := negb (Z.land x mask =? 0).

(** [struct fosphor_channel] and [struct fosphor_render], by the members
    the sources read or write (the declarations are in [fosphor/fosphor.h]).
    The members [_x], [_y_histo], ... are written by
    [fosphor_render_refresh] only; two-element arrays are pairs. *)
Record fosphor_channel := {
  enabled : Z;
  center : f32;
  width : f32
}.

Record fosphor_render := {
  pos_x : Z;
  r_width : Z;
  r_height : Z;
  options : Z;
  histo_wf_ratio : f32;
  freq_n_div : Z;
  freq_center : f32;
  freq_span : f32;
  wf_span : f32;
  channels : list fosphor_channel;
  _wf_pos : Z;
  _x_div : f32;
  _x : f32 * f32;
  _x_label : f32;
  _y_histo_div : f32;
  _y_histo : f32 * f32;
  _y_wf : f32 * f32;
  _y_label : f32
}.

Definition set_r_width (v : Z) (r : fosphor_render) : fosphor_render :=
  {| pos_x := pos_x r; r_width := v; r_height := r_height r;
     options := options r; histo_wf_ratio := histo_wf_ratio r;
     freq_n_div := freq_n_div r; freq_center := freq_center r;
     freq_span := freq_span r; wf_span := wf_span r;
     channels := channels r; _wf_pos := _wf_pos r; _x_div := _x_div r;
     _x := _x r; _x_label := _x_label r; _y_histo_div := _y_histo_div r;
     _y_histo := _y_histo r; _y_wf := _y_wf r; _y_label := _y_label r |}.

Definition set_pos_x (v : Z) (r : fosphor_render) : fosphor_render :=
  {| pos_x := v; r_width := r_width r; r_height := r_height r;
     options := options r; histo_wf_ratio := histo_wf_ratio r;
     freq_n_div := freq_n_div r; freq_center := freq_center r;
     freq_span := freq_span r; wf_span := wf_span r;
     channels := channels r; _wf_pos := _wf_pos r; _x_div := _x_div r;
     _x := _x r; _x_label := _x_label r; _y_histo_div := _y_histo_div r;
     _y_histo := _y_histo r; _y_wf := _y_wf r; _y_label := _y_label r |}.

Definition set_r_height (v : Z) (r : fosphor_render) : fosphor_render :=
  {| pos_x := pos_x r; r_width := r_width r; r_height := v;
     options := options r; histo_wf_ratio := histo_wf_ratio r;
     freq_n_div := freq_n_div r; freq_center := freq_center r;
     freq_span := freq_span r; wf_span := wf_span r;
     channels := channels r; _wf_pos := _wf_pos r; _x_div := _x_div r;
     _x := _x r; _x_label := _x_label r; _y_histo_div := _y_histo_div r;
     _y_histo := _y_histo r; _y_wf := _y_wf r; _y_label := _y_label r |}.

Definition set_options (v : Z) (r : fosphor_render) : fosphor_render :=
  {| pos_x := pos_x r; r_width := r_width r; r_height := r_height r;
     options := v; histo_wf_ratio := histo_wf_ratio r;
     freq_n_div := freq_n_div r; freq_center := freq_center r;
     freq_span := freq_span r; wf_span := wf_span r;
     channels := channels r; _wf_pos := _wf_pos r; _x_div := _x_div r;
     _x := _x r; _x_label := _x_label r; _y_histo_div := _y_histo_div r;
     _y_histo := _y_histo r; _y_wf := _y_wf r; _y_label := _y_label r |}.

Definition set_histo_wf_ratio (v : f32) (r : fosphor_render) : fosphor_render :=
  {| pos_x := pos_x r; r_width := r_width r; r_height := r_height r;
     options := options r; histo_wf_ratio := v;
     freq_n_div := freq_n_div r; freq_center := freq_center r;
     freq_span := freq_span r; wf_span := wf_span r;
     channels := channels r; _wf_pos := _wf_pos r; _x_div := _x_div r;
     _x := _x r; _x_label := _x_label r; _y_histo_div := _y_histo_div r;
     _y_histo := _y_histo r; _y_wf := _y_wf r; _y_label := _y_label r |}.

Definition set_freq_window (c w : f32) (r : fosphor_render) : fosphor_render :=
  {| pos_x := pos_x r; r_width := r_width r; r_height := r_height r;
     options := options r; histo_wf_ratio := histo_wf_ratio r;
     freq_n_div := freq_n_div r; freq_center := c;
     freq_span := w; wf_span := wf_span r;
     channels := channels r; _wf_pos := _wf_pos r; _x_div := _x_div r;
     _x := _x r; _x_label := _x_label r; _y_histo_div := _y_histo_div r;
     _y_histo := _y_histo r; _y_wf := _y_wf r; _y_label := _y_label r |}.

Definition set_channels (v : list fosphor_channel) (r : fosphor_render)
  : fosphor_render :=
  {| pos_x := pos_x r; r_width := r_width r; r_height := r_height r;
     options := options r; histo_wf_ratio := histo_wf_ratio r;
     freq_n_div := freq_n_div r; freq_center := freq_center r;
     freq_span := freq_span r; wf_span := wf_span r;
     channels := v; _wf_pos := _wf_pos r; _x_div := _x_div r;
     _x := _x r; _x_label := _x_label r; _y_histo_div := _y_histo_div r;
     _y_histo := _y_histo r; _y_wf := _y_wf r; _y_label := _y_label r |}.

(** Modelled from the spec: the sample FIFO ([fifo.h], [fifo.cc]) is not
    among the sources. The spec gives it a fixed power-of-two capacity, a
    read cursor that wraps by masking, [used + free == capacity], a
    two-phase read (peek a contiguous view, then discard), and contiguous
    runs bounded by the wrap point. Only the cursors are modelled, not the
    samples. *)
Record fifo := {
  capacity : Z;
  rp : Z;
  fifo_used : Z
}.

Definition used (f : fifo) : Z := fifo_used f.
Definition free (f : fifo) : Z := capacity f - fifo_used f.
Definition read_max_size (f : fifo) : Z := capacity f - rp f.
Definition read_peek (size : Z) (f : fifo) : option Z :=
  if used f <? size then None else Some (rp f).
Definition read_discard (size : Z) (f : fifo) : fifo :=
  {| capacity := capacity f;
     rp := Z.land (rp f + size) (capacity f - 1);
     fifo_used := fifo_used f - size |}.
Definition fifo_new (length : Z) : fifo :=
  {| capacity := length; rp := 0; fifo_used := 0 |}.

(** *** The object *)

Record sink := {
  d_width : Z;
  d_height : Z;
  d_db_ref : Z;
  d_db_per_div_idx : Z;
  d_zoom_enabled : bool;
  d_zoom_center : f64;
  d_zoom_width : f64;
  d_ratio : f32;
  d_frozen : bool;
  d_active : bool;
  d_visible : bool;
  d_frequency : f64 * f64;
  d_fft_window : Z;
  d_fft_size : Z;
  d_settings_changed : Z;
  d_fifo : fifo;
  d_render_main : fosphor_render;
  d_render_zoom : fosphor_render
}.

Definition set_d_dimensions (w h : Z) (s : sink) : sink :=
  {| d_width := w; d_height := h; d_db_ref := d_db_ref s;
     d_db_per_div_idx := d_db_per_div_idx s;
     d_zoom_enabled := d_zoom_enabled s; d_zoom_center := d_zoom_center s;
     d_zoom_width := d_zoom_width s; d_ratio := d_ratio s;
     d_frozen := d_frozen s; d_active := d_active s;
     d_visible := d_visible s; d_frequency := d_frequency s;
     d_fft_window := d_fft_window s; d_fft_size := d_fft_size s;
     d_settings_changed := d_settings_changed s; d_fifo := d_fifo s;
     d_render_main := d_render_main s; d_render_zoom := d_render_zoom s |}.

Definition set_d_db_ref (v : Z) (s : sink) : sink :=
  {| d_width := d_width s; d_height := d_height s; d_db_ref := v;
     d_db_per_div_idx := d_db_per_div_idx s;
     d_zoom_enabled := d_zoom_enabled s; d_zoom_center := d_zoom_center s;
     d_zoom_width := d_zoom_width s; d_ratio := d_ratio s;
     d_frozen := d_frozen s; d_active := d_active s;
     d_visible := d_visible s; d_frequency := d_frequency s;
     d_fft_window := d_fft_window s; d_fft_size := d_fft_size s;
     d_settings_changed := d_settings_changed s; d_fifo := d_fifo s;
     d_render_main := d_render_main s; d_render_zoom := d_render_zoom s |}.

Definition set_d_db_per_div_idx (v : Z) (s : sink) : sink :=
  {| d_width := d_width s; d_height := d_height s; d_db_ref := d_db_ref s;
     d_db_per_div_idx := v;
     d_zoom_enabled := d_zoom_enabled s; d_zoom_center := d_zoom_center s;
     d_zoom_width := d_zoom_width s; d_ratio := d_ratio s;
     d_frozen := d_frozen s; d_active := d_active s;
     d_visible := d_visible s; d_frequency := d_frequency s;
     d_fft_window := d_fft_window s; d_fft_size := d_fft_size s;
     d_settings_changed := d_settings_changed s; d_fifo := d_fifo s;
     d_render_main := d_render_main s; d_render_zoom := d_render_zoom s |}.

Definition set_d_zoom_enabled (v : bool) (s : sink) : sink :=
  {| d_width := d_width s; d_height := d_height s; d_db_ref := d_db_ref s;
     d_db_per_div_idx := d_db_per_div_idx s;
     d_zoom_enabled := v; d_zoom_center := d_zoom_center s;
     d_zoom_width := d_zoom_width s; d_ratio := d_ratio s;
     d_frozen := d_frozen s; d_active := d_active s;
     d_visible := d_visible s; d_frequency := d_frequency s;
     d_fft_window := d_fft_window s; d_fft_size := d_fft_size s;
     d_settings_changed := d_settings_changed s; d_fifo := d_fifo s;
     d_render_main := d_render_main s; d_render_zoom := d_render_zoom s |}.

Definition set_d_zoom_center (v : f64) (s : sink) : sink :=
  {| d_width := d_width s; d_height := d_height s; d_db_ref := d_db_ref s;
     d_db_per_div_idx := d_db_per_div_idx s;
     d_zoom_enabled := d_zoom_enabled s; d_zoom_center := v;
     d_zoom_width := d_zoom_width s; d_ratio := d_ratio s;
     d_frozen := d_frozen s; d_active := d_active s;
     d_visible := d_visible s; d_frequency := d_frequency s;
     d_fft_window := d_fft_window s; d_fft_size := d_fft_size s;
     d_settings_changed := d_settings_changed s; d_fifo := d_fifo s;
     d_render_main := d_render_main s; d_render_zoom := d_render_zoom s |}.

Definition set_d_zoom_width (v : f64) (s : sink) : sink :=
  {| d_width := d_width s; d_height := d_height s; d_db_ref := d_db_ref s;
     d_db_per_div_idx := d_db_per_div_idx s;
     d_zoom_enabled := d_zoom_enabled s; d_zoom_center := d_zoom_center s;
     d_zoom_width := v; d_ratio := d_ratio s;
     d_frozen := d_frozen s; d_active := d_active s;
     d_visible := d_visible s; d_frequency := d_frequency s;
     d_fft_window := d_fft_window s; d_fft_size := d_fft_size s;
     d_settings_changed := d_settings_changed s; d_fifo := d_fifo s;
     d_render_main := d_render_main s; d_render_zoom := d_render_zoom s |}.

Definition set_d_ratio (v : f32) (s : sink) : sink :=
  {| d_width := d_width s; d_height := d_height s; d_db_ref := d_db_ref s;
     d_db_per_div_idx := d_db_per_div_idx s;
     d_zoom_enabled := d_zoom_enabled s; d_zoom_center := d_zoom_center s;
     d_zoom_width := d_zoom_width s; d_ratio := v;
     d_frozen := d_frozen s; d_active := d_active s;
     d_visible := d_visible s; d_frequency := d_frequency s;
     d_fft_window := d_fft_window s; d_fft_size := d_fft_size s;
     d_settings_changed := d_settings_changed s; d_fifo := d_fifo s;
     d_render_main := d_render_main s; d_render_zoom := d_render_zoom s |}.

Definition set_d_frozen (v : bool) (s : sink) : sink :=
  {| d_width := d_width s; d_height := d_height s; d_db_ref := d_db_ref s;
     d_db_per_div_idx := d_db_per_div_idx s;
     d_zoom_enabled := d_zoom_enabled s; d_zoom_center := d_zoom_center s;
     d_zoom_width := d_zoom_width s; d_ratio := d_ratio s;
     d_frozen := v; d_active := d_active s;
     d_visible := d_visible s; d_frequency := d_frequency s;
     d_fft_window := d_fft_window s; d_fft_size := d_fft_size s;
     d_settings_changed := d_settings_changed s; d_fifo := d_fifo s;
     d_render_main := d_render_main s; d_render_zoom := d_render_zoom s |}.

Definition set_d_visible (v : bool) (s : sink) : sink :=
  {| d_width := d_width s; d_height := d_height s; d_db_ref := d_db_ref s;
     d_db_per_div_idx := d_db_per_div_idx s;
     d_zoom_enabled := d_zoom_enabled s; d_zoom_center := d_zoom_center s;
     d_zoom_width := d_zoom_width s; d_ratio := d_ratio s;
     d_frozen := d_frozen s; d_active := d_active s;
     d_visible := v; d_frequency := d_frequency s;
     d_fft_window := d_fft_window s; d_fft_size := d_fft_size s;
     d_settings_changed := d_settings_changed s; d_fifo := d_fifo s;
     d_render_main := d_render_main s; d_render_zoom := d_render_zoom s |}.

Definition set_d_frequency (v : f64 * f64) (s : sink) : sink :=
  {| d_width := d_width s; d_height := d_height s; d_db_ref := d_db_ref s;
     d_db_per_div_idx := d_db_per_div_idx s;
     d_zoom_enabled := d_zoom_enabled s; d_zoom_center := d_zoom_center s;
     d_zoom_width := d_zoom_width s; d_ratio := d_ratio s;
     d_frozen := d_frozen s; d_active := d_active s;
     d_visible := d_visible s; d_frequency := v;
     d_fft_window := d_fft_window s; d_fft_size := d_fft_size s;
     d_settings_changed := d_settings_changed s; d_fifo := d_fifo s;
     d_render_main := d_render_main s; d_render_zoom := d_render_zoom s |}.

Definition set_d_fft_window (v : Z) (s : sink) : sink :=
  {| d_width := d_width s; d_height := d_height s; d_db_ref := d_db_ref s;
     d_db_per_div_idx := d_db_per_div_idx s;
     d_zoom_enabled := d_zoom_enabled s; d_zoom_center := d_zoom_center s;
     d_zoom_width := d_zoom_width s; d_ratio := d_ratio s;
     d_frozen := d_frozen s; d_active := d_active s;
     d_visible := d_visible s; d_frequency := d_frequency s;
     d_fft_window := v; d_fft_size := d_fft_size s;
     d_settings_changed := d_settings_changed s; d_fifo := d_fifo s;
     d_render_main := d_render_main s; d_render_zoom := d_render_zoom s |}.

Definition set_d_fft_size (v : Z) (s : sink) : sink :=
  {| d_width := d_width s; d_height := d_height s; d_db_ref := d_db_ref s;
     d_db_per_div_idx := d_db_per_div_idx s;
     d_zoom_enabled := d_zoom_enabled s; d_zoom_center := d_zoom_center s;
     d_zoom_width := d_zoom_width s; d_ratio := d_ratio s;
     d_frozen := d_frozen s; d_active := d_active s;
     d_visible := d_visible s; d_frequency := d_frequency s;
     d_fft_window := d_fft_window s; d_fft_size := v;
     d_settings_changed := d_settings_changed s; d_fifo := d_fifo s;
     d_render_main := d_render_main s; d_render_zoom := d_render_zoom s |}.

Definition set_d_settings_changed (v : Z) (s : sink) : sink :=
  {| d_width := d_width s; d_height := d_height s; d_db_ref := d_db_ref s;
     d_db_per_div_idx := d_db_per_div_idx s;
     d_zoom_enabled := d_zoom_enabled s; d_zoom_center := d_zoom_center s;
     d_zoom_width := d_zoom_width s; d_ratio := d_ratio s;
     d_frozen := d_frozen s; d_active := d_active s;
     d_visible := d_visible s; d_frequency := d_frequency s;
     d_fft_window := d_fft_window s; d_fft_size := d_fft_size s;
     d_settings_changed := v; d_fifo := d_fifo s;
     d_render_main := d_render_main s; d_render_zoom := d_render_zoom s |}.

Definition set_d_fifo (v : fifo) (s : sink) : sink :=
  {| d_width := d_width s; d_height := d_height s; d_db_ref := d_db_ref s;
     d_db_per_div_idx := d_db_per_div_idx s;
     d_zoom_enabled := d_zoom_enabled s; d_zoom_center := d_zoom_center s;
     d_zoom_width := d_zoom_width s; d_ratio := d_ratio s;
     d_frozen := d_frozen s; d_active := d_active s;
     d_visible := d_visible s; d_frequency := d_frequency s;
     d_fft_window := d_fft_window s; d_fft_size := d_fft_size s;
     d_settings_changed := d_settings_changed s; d_fifo := v;
     d_render_main := d_render_main s; d_render_zoom := d_render_zoom s |}.

Definition set_d_render (main zoom : fosphor_render) (s : sink) : sink :=
  {| d_width := d_width s; d_height := d_height s; d_db_ref := d_db_ref s;
     d_db_per_div_idx := d_db_per_div_idx s;
     d_zoom_enabled := d_zoom_enabled s; d_zoom_center := d_zoom_center s;
     d_zoom_width := d_zoom_width s; d_ratio := d_ratio s;
     d_frozen := d_frozen s; d_active := d_active s;
     d_visible := d_visible s; d_frequency := d_frequency s;
     d_fft_window := d_fft_window s; d_fft_size := d_fft_size s;
     d_settings_changed := d_settings_changed s; d_fifo := d_fifo s;
     d_render_main := main; d_render_zoom := zoom |}.

(** *** Calls that leave the object

    The compute backend, the GL context and the clock are collaborators; each
    call is recorded, in call order. [gl_projection] stands for the
    [glMatrixMode]/[glLoadIdentity]/[glOrtho]/[glViewport] group,
    [fosphor_set_fft_window win size] for the call with the coefficients of
    [gr::fft::window::build(win, size, 6.76)], and the [data] of
    [fosphor_process] is the offset [read_peek] returned. *)
Inductive event :=
| glctx_update
| gl_projection (w h : Z)
| fosphor_set_power_range (db_ref db_per_div : Z)
| fosphor_set_frequency_range (center span : f64)
| fosphor_set_fft_window (win size : Z)
| fosphor_fft_len_set (size : Z)
| fosphor_process (data : option Z) (len : Z)
| gl_clear
| fosphor_draw (r : fosphor_render)
| glctx_swap
| sleep_for (ms : Z).

Inductive ui_action_t :=
| DB_PER_DIV_UP | DB_PER_DIV_DOWN | REF_UP | REF_DOWN
| ZOOM_TOGGLE | ZOOM_WIDTH_UP | ZOOM_WIDTH_DOWN
| ZOOM_CENTER_UP | ZOOM_CENTER_DOWN
| RATIO_UP | RATIO_DOWN | FREEZE_TOGGLE.

Definition k_db_per_div : list Z := [1; 2; 5; 10; 20].

(** [table[i]]; a read outside the array is undefined, here [None]. *)
Definition table_read (table : list Z) (i : Z) : option Z :=
  if i <? 0 then None else table !! Z.to_nat i.

(** GNU Radio's [gr::fft::window::WIN_BLACKMAN_hARRIS]. *)
Definition WIN_BLACKMAN_hARRIS : Z := 5.

Section Methods.

(** [fosphor_render_defaults] and [fosphor_render_refresh] are defined in
    [fosphor/fosphor.c], which is not among the sources: the first is the
    descriptor it fills in, the second the function it applies. *)
Variable fosphor_render_defaults : fosphor_render.
Variable fosphor_render_refresh : fosphor_render -> fosphor_render.

(** The constructor. The members it does not name in its initialiser list
    ([d_width], [d_height], [d_settings_changed]) start indeterminate and
    are arguments here. *)
Definition base_sink_c_impl (width height settings_changed : Z) : sink :=
  {| d_width := width; d_height := height;
     d_db_ref := 0; d_db_per_div_idx := 3;
     d_zoom_enabled := false;
     d_zoom_center := f64_lit 5 10; d_zoom_width := f64_lit 2 10;
     d_ratio := f32_lit 35 100;
     d_frozen := false; d_active := false; d_visible := false;
     d_frequency := (S754_zero false, S754_zero false);
     d_fft_window := WIN_BLACKMAN_hARRIS; d_fft_size := 1024;
     d_settings_changed := settings_changed;
     d_fifo := fifo_new (2 * 1024 * 1024);
     d_render_main := fosphor_render_defaults;
     d_render_zoom :=
       set_options
         (Z.land (options fosphor_render_defaults)
                 (Z.lnot (Z.lor FRO_LABEL_PWR FRO_LABEL_TIME)))
         fosphor_render_defaults |}.

(** **** The settings register *)

Definition settings_mark_changed (setting : Z) (s : sink) : sink :=
  set_d_settings_changed (Z.lor (d_settings_changed s) setting) s.

Definition settings_get_and_reset_changed (s : sink) : Z * sink :=
  let v := d_settings_changed s in
  (v, set_d_settings_changed 0 s).

(** **** [settings_apply]

    The last block of the function, the layout recompute. *)
Definition settings_apply_layout (s : sink) : option sink :=
  let main := d_render_main s in
  let zoom := d_render_zoom s in
  panes ← (if d_zoom_enabled s then
             a ← IEEE.to_int (f32_mul (f32_of_int (d_width s)) (f32_lit 65 100));
             let main := set_r_width a main in
             let main := set_options (Z.lor (options main) FRO_CHANNELS) main in
             let main :=
               set_options (Z.land (options main) (Z.lnot FRO_COLOR_SCALE)) main in
             let zoom := set_pos_x (sint32 (a - 10)) zoom in
             let zoom := set_r_width (sint32 (sint32 (d_width s - a) + 10)) zoom in
             Some (main, zoom)
           else
             let main := set_r_width (d_width s) main in
             let main :=
               set_options (Z.land (options main) (Z.lnot FRO_CHANNELS)) main in
             let main := set_options (Z.lor (options main) FRO_COLOR_SCALE) main in
             Some (main, zoom));
  let main := set_r_height (d_height s) (fst panes) in
  let zoom := set_r_height (d_height s) (snd panes) in
  let main := set_histo_wf_ratio (d_ratio s) main in
  let zoom := set_histo_wf_ratio (d_ratio s) zoom in
  let main :=
    set_channels
      (<[0%nat := {| enabled := Z.b2z (d_zoom_enabled s);
                     center := f32_of_f64 (d_zoom_center s);
                     width := f32_of_f64 (d_zoom_width s) |}]> (channels main))
      main in
  let zoom :=
    set_freq_window (f32_of_f64 (d_zoom_center s)) (f32_of_f64 (d_zoom_width s))
                    zoom in
  Some (set_d_render (fosphor_render_refresh main) (fosphor_render_refresh zoom) s).

Definition settings_apply (settings : Z) (s : sink) : option (sink * list event) :=
  let e_dim :=
    if test settings SETTING_DIMENSIONS
    then [glctx_update; gl_projection (d_width s) (d_height s)] else [] in
  e_pwr ← (if test settings SETTING_POWER_RANGE
           then k ← table_read k_db_per_div (d_db_per_div_idx s);
                Some [fosphor_set_power_range (d_db_ref s) k]
           else Some []);
  let e_frq :=
    if test settings SETTING_FREQUENCY_RANGE
    then [fosphor_set_frequency_range (fst (d_frequency s)) (snd (d_frequency s))]
    else [] in
  let e_win :=
    if test settings SETTING_FFT_WINDOW
    then [fosphor_set_fft_window (d_fft_window s) (d_fft_size s)] else [] in
  let e_len :=
    if test settings SETTING_FFT_SIZE
    then [fosphor_fft_len_set (d_fft_size s);
          fosphor_set_fft_window (d_fft_window s) (d_fft_size s)]
    else [] in
  s' ← (if test settings (Z.lor SETTING_DIMENSIONS SETTING_RENDER_OPTIONS)
        then settings_apply_layout s else Some s);
  Some (s', e_dim ++ e_pwr ++ e_frq ++ e_win ++ e_len).

(** **** [render] *)

Definition batch_mult : Z := 16.
Definition batch_max : Z := 1024.
Definition max_iter : nat := 8.

(** The [for (i=0; i<max_iter && tot_len; i++)] loop; [iter] counts the
    iterations that are left. *)
Fixpoint render_drain (iter : nat) (fft_len tot_len : Z) (frozen : bool)
    (f : fifo) : fifo * list event :=
  match iter with
  | O => (f, [])
  | S iter' =>
      if tot_len =? 0 then (f, []) else
      let len := tot_len in
      let len := if len >? read_max_size f then read_max_size f else len in
      let len := Z.land len (Z.lnot (sint32 (sint32 (batch_mult * fft_len) - 1))) in
      let len :=
        if len >? sint32 (batch_max * fft_len)
        then sint32 (batch_max * fft_len) else len in
      let tot_len := sint32 (tot_len - len) in
      if len =? 0 then (f, []) else
      let e := if frozen then [] else [fosphor_process (read_peek len f) len] in
      let '(f', es) :=
        render_drain iter' fft_len tot_len frozen (read_discard len f) in
      (f', e ++ es)
  end.

Definition render (s : sink) : option (sink * list event) :=
  let fft_len := d_fft_size s in
  let pending := settings_get_and_reset_changed s in
  applied ← settings_apply (fst pending) (snd pending);
  let s := fst applied in
  let tot_len := used (d_fifo s) in
  let drained :=
    render_drain max_iter fft_len tot_len (d_frozen s) (d_fifo s) in
  let s := set_d_fifo (fst drained) s in
  let e_draw :=
    if d_visible s
    then [gl_clear; fosphor_draw (d_render_main s)]
         ++ (if d_zoom_enabled s then [fosphor_draw (d_render_zoom s)] else [])
         ++ [glctx_swap]
    else [] in
  let e_sleep := if d_visible s then [] else [sleep_for 10] in
  Some (s, snd applied ++ snd drained ++ e_draw ++ e_sleep).

(** **** Callbacks, actions and setters *)

Definition cb_reshape (width height : Z) (s : sink) : sink :=
  settings_mark_changed SETTING_DIMENSIONS (set_d_dimensions width height s).

Definition cb_visibility (visible : bool) (s : sink) : sink :=
  set_d_visible visible s.

Definition execute_ui_action (action : ui_action_t) (s : sink) : option sink :=
  s' ← match action with
       | DB_PER_DIV_UP =>
           Some (if d_db_per_div_idx s <? 4
                 then set_d_db_per_div_idx (sint32 (d_db_per_div_idx s + 1)) s
                 else s)
       | DB_PER_DIV_DOWN =>
           Some (if d_db_per_div_idx s >? 0
                 then set_d_db_per_div_idx (sint32 (d_db_per_div_idx s - 1)) s
                 else s)
       | REF_UP =>
           k ← table_read k_db_per_div (d_db_per_div_idx s);
           Some (set_d_db_ref (sint32 (d_db_ref s + k)) s)
       | REF_DOWN =>
           k ← table_read k_db_per_div (d_db_per_div_idx s);
           Some (set_d_db_ref (sint32 (d_db_ref s - k)) s)
       | ZOOM_TOGGLE =>
           Some (set_d_zoom_enabled (xorb (d_zoom_enabled s) true) s)
       | ZOOM_WIDTH_UP =>
           Some (if d_zoom_enabled s
                 then set_d_zoom_width (f64_mul (d_zoom_width s) (f64_of_int 2)) s
                 else s)
       | ZOOM_WIDTH_DOWN =>
           Some (if d_zoom_enabled s
                 then set_d_zoom_width (f64_div (d_zoom_width s) (f64_of_int 2)) s
                 else s)
       | ZOOM_CENTER_UP =>
           Some (if d_zoom_enabled s
                 then set_d_zoom_center
                        (f64_add (d_zoom_center s)
                                 (f64_div (d_zoom_width s) (f64_of_int 8))) s
                 else s)
       | ZOOM_CENTER_DOWN =>
           Some (if d_zoom_enabled s
                 then set_d_zoom_center
                        (f64_sub (d_zoom_center s)
                                 (f64_div (d_zoom_width s) (f64_of_int 8))) s
                 else s)
       | RATIO_UP =>
           Some (if f32_lt (d_ratio s) (f32_lit 8 10)
                 then set_d_ratio (f32_add (d_ratio s) (f32_lit 5 100)) s
                 else s)
       | RATIO_DOWN =>
           Some (if f32_lt (f32_lit 2 10) (d_ratio s)
                 then set_d_ratio (f32_sub (d_ratio s) (f32_lit 5 100)) s
                 else s)
       | FREEZE_TOGGLE =>
           Some (set_d_frozen (xorb (d_frozen s) true) s)
       end;
  Some (settings_mark_changed (Z.lor SETTING_POWER_RANGE SETTING_RENDER_OPTIONS) s').

Definition set_frequency_range (center span : f64) (s : sink) : sink :=
  settings_mark_changed SETTING_FREQUENCY_RANGE (set_d_frequency (center, span) s).

Definition set_frequency_center (center : f64) (s : sink) : sink :=
  settings_mark_changed SETTING_FREQUENCY_RANGE
    (set_d_frequency (center, snd (d_frequency s)) s).

Definition set_frequency_span (span : f64) (s : sink) : sink :=
  settings_mark_changed SETTING_FREQUENCY_RANGE
    (set_d_frequency (fst (d_frequency s), span) s).

Definition set_fft_window (win : Z) (s : sink) : sink :=
  if win =? d_fft_window s then s
  else settings_mark_changed SETTING_FFT_WINDOW (set_d_fft_window win s).

Definition set_fft_size (size : Z) (s : sink) : sink :=
  if size =? d_fft_size s then s
  else if (size =? 512) || (size =? 1024) || (size =? 2048) || (size =? 4096)
          || (size =? 8192) || (size =? 16384) || (size =? 32768)
  then settings_mark_changed SETTING_FFT_SIZE (set_d_fft_size size s)
  else s.

(** **** The object driven from outside

    One call of the public interface or one iteration of the render thread,
    with the calls it makes to its collaborators. *)
Inductive call :=
| call_execute_ui_action (action : ui_action_t)
| call_cb_reshape (width height : Z)
| call_cb_visibility (visible : bool)
| call_set_frequency_range (center span : f64)
| call_set_frequency_center (center : f64)
| call_set_frequency_span (span : f64)
| call_set_fft_window (win : Z)
| call_set_fft_size (size : Z)
| call_render.

Definition step (c : call) (s : sink) : option (sink * list event) :=
  match c with
  | call_execute_ui_action a => s' ← execute_ui_action a s; Some (s', [])
  | call_cb_reshape w h => Some (cb_reshape w h s, [])
  | call_cb_visibility v => Some (cb_visibility v s, [])
  | call_set_frequency_range c w => Some (set_frequency_range c w s, [])
  | call_set_frequency_center c => Some (set_frequency_center c s, [])
  | call_set_frequency_span w => Some (set_frequency_span w s, [])
  | call_set_fft_window w => Some (set_fft_window w s, [])
  | call_set_fft_size n => Some (set_fft_size n s, [])
  | call_render => render s
  end.

Fixpoint run (cs : list call) (s : sink) : option (sink * list event) :=
  match cs with
  | [] => Some (s, [])
  | c :: cs' =>
      r ← step c s;
      r' ← run cs' (fst r);
      Some (fst r', (snd r) ++ (snd r'))
  end.

End Methods.

End Sink.

(** ** The draw stage, [lib/fosphor/gl.c] *)

Module GL.

Import Sink.

(** [struct fosphor] of [private.h], by the members [fosphor_gl_draw] reads. *)
Record fosphor := {
  fft_len : Z;
  power_db_ref : Z;
  power_db_per_div : Z;
  power_scale : f32;
  power_offset : f32;
  frequency_center : f64;
  frequency_span : f64
}.

Inductive texture := tex_waterfall | tex_histogram.

(** What a draw sends to OpenGL, the font and the colour-map helpers, in call
    order. A [glBegin]/[glEnd] group is one command with its vertices;
    switches of blending, smoothing and client state are not recorded.
    [glf_printf_freq i ib] is the frequency label of division [ib] at
    gridline [i]; its text and its offset come from the axis builder and the
    font. *)
Inductive gl_cmd :=
| fosphor_gl_cmap_enable (tex : texture) (scale offset : f32)
| fosphor_gl_cmap_disable
| fosphor_gl_cmap_draw_scale (tex : texture) (x0 x1 y0 y1 : f32)
| gl_tex_quad (uv0 xy0 uv1 xy1 uv2 xy2 uv3 xy3 : f32 * f32)
| gl_quad (xy0 xy1 xy2 xy3 : f32 * f32)
| gl_line (xy0 xy1 : f32 * f32)
| glColor3f (r g b : f32)
| glColor4f (r g b a : f32)
| glPushMatrix
| glPopMatrix
| glTranslatef (x y z : f32)
| glScalef (x y z : f32)
| glDrawArrays_LINE_STRIP (first count : Z)
| freq_axis_build (center span : f64) (n_div : Z)
| glf_printf_d (x y : f32) (value : Z)
| glf_printf_freq (i ib : Z).

Definition f0 : f32 := f32_of_int 0.
Definition f1 : f32 := f32_of_int 1.
Definition f2 : f32 := f32_of_int 2.
Definition f0_5 : f32 := f32_lit 5 10.

(** Texel width, [1.0f / (float)(self->fft_len)]. *)
Definition texel_width (self : fosphor) : f32 :=
  f32_div f1 (f32_of_int (fft_len self)).

(** *** Waterfall and histogram *)

Definition tex_u (self : fosphor) (render : fosphor_render) : f32 * f32 :=
  let tw := texel_width self in
  let base := f32_add (f32_add f0_5 (f32_div tw f2)) (freq_center render) in
  (f32_sub base (f32_div (freq_span render) f2),
   f32_add base (f32_div (freq_span render) f2)).

Definition draw_waterfall (self : fosphor) (render : fosphor_render) : list gl_cmd :=
  if test (options render) FRO_WATERFALL then
    let x := _x render in
    let y := _y_wf render in
    let u := tex_u self render in
    let v1 := f32_div (f32_of_int (_wf_pos render)) (f32_of_int 1024) in
    let v0 := f32_sub v1 (wf_span render) in
    [fosphor_gl_cmap_enable tex_waterfall (power_scale self) (power_offset self);
     gl_tex_quad (fst u, v0) (fst x, fst y) (snd u, v0) (snd x, fst y)
                 (snd u, v1) (snd x, snd y) (fst u, v1) (fst x, snd y);
     fosphor_gl_cmap_disable]
    ++ (if test (options render) FRO_COLOR_SCALE
        then [fosphor_gl_cmap_draw_scale tex_waterfall
                (f32_add (snd x) f2) (f32_add (snd x) (f32_of_int 10)) (fst y) (snd y)]
        else [])
  else [].

Definition draw_histogram (self : fosphor) (render : fosphor_render) : list gl_cmd :=
  let x := _x render in
  let y := _y_histo render in
  if test (options render) FRO_HISTO then
    let u := tex_u self render in
    let v0 := f0 in
    let v1 := f1 in
    [fosphor_gl_cmap_enable tex_histogram (f32_lit 11 10) f0;
     gl_tex_quad (fst u, v0) (fst x, fst y) (snd u, v0) (snd x, fst y)
                 (snd u, v1) (snd x, snd y) (fst u, v1) (fst x, snd y);
     fosphor_gl_cmap_disable]
    ++ (if test (options render) FRO_COLOR_SCALE
        then [fosphor_gl_cmap_draw_scale tex_histogram
                (f32_add (snd x) f2) (f32_add (snd x) (f32_of_int 10)) (fst y) (snd y)]
        else [])
  else if test (options render) (Z.lor FRO_LIVE FRO_MAX_HOLD) then
    [glColor3f f0 f0 (f32_lit 1 10);
     gl_quad (fst x, fst y) (snd x, fst y) (snd x, snd y) (fst x, snd y)]
  else [].

(** *** Spectrum traces *)

(** The two end-points as [ceilf] and [floorf] leave them in [idx]. *)
Definition spectrum_ends (self : fosphor) (render : fosphor_render)
  : option (Z * Z) :=
  let n := f32_of_int (fft_len self) in
  let half := f32_div (freq_span render) f2 in
  lo ← IEEE.to_int (ceilf (f32_mul n (f32_sub (freq_center render) half)));
  hi ← IEEE.to_int (floorf (f32_mul n (f32_add (freq_center render) half)));
  Some (lo, hi).

(** [idx[0]], [idx[1]] after the two [if]s, and [len]. *)
Definition spectrum_range (self : fosphor) (render : fosphor_render)
  : option (Z * Z * Z) :=
  ends ← spectrum_ends self render;
  let idx0 := (fst ends) in
  let idx1 := (snd ends) in
  let idx0 := if idx0 <? 1 then 1 else idx0 in
  let idx1 := if idx1 >=? fft_len self then sint32 (fft_len self - 1) else idx1 in
  let len := sint32 (sint32 (idx1 - idx0) + 1) in
  Some (idx0, idx1, len).

Definition draw_spectrum (self : fosphor) (render : fosphor_render)
  : option (list gl_cmd) :=
  if test (options render) (Z.lor FRO_LIVE FRO_MAX_HOLD) then
    range ← spectrum_range self render;
    let '(idx0, _, len) := range in
    let tw := texel_width self in
    let x := _x render in
    let y := _y_histo render in
    Some
      ([glPushMatrix;
        glTranslatef (fst x) (fst y) f0;
        glScalef (f32_sub (snd x) (fst x)) (f32_sub (snd y) (fst y)) f1;
        glScalef f1 (power_scale self) f1;
        glTranslatef f0 (power_offset self) f0;
        glScalef (f32_div f1 (freq_span render)) f1 f1;
        glTranslatef
          (f32_add (SFopp (freq_center render)) (f32_div (freq_span render) f2))
          f0 f0;
        glTranslatef tw f0 f0;
        glScalef
          (f32_of_f64
             (f64_sub (f64_of_f32 f1) (f64_mul (f64_of_int 2) (f64_of_f32 tw))))
          f1 f1;
        glTranslatef f0_5 f0 f0;
        glScalef (f32_div f0_5 (f32_sub f1 (f32_mul f2 tw))) f1 f1]
       ++ (if test (options render) FRO_LIVE
           then [glColor4f f1 f1 f1 (f32_lit 75 100);
                 glDrawArrays_LINE_STRIP idx0 len]
           else [])
       ++ (if test (options render) FRO_MAX_HOLD
           then [glColor4f f1 f0 f0 (f32_lit 75 100);
                 glDrawArrays_LINE_STRIP (sint32 (idx0 + fft_len self)) len]
           else [])
       ++ [glPopMatrix])
  else Some [].

(** The bins a [glDrawArrays(GL_LINE_STRIP, first, count)] call reads from a
    series that starts at [base]: none when [count] is not positive. *)
Definition drawn_bins (base first count : Z) : list Z :=
  (fun k => first - base + k) <$> seqZ 0 count.

(** *** Frequency axis and grid *)

Definition setup_freq_axis (self : fosphor) (render : fosphor_render) : list gl_cmd :=
  if negb (f32_eq (freq_center render) f0_5) || negb (f32_eq (freq_span render) f1)
  then
    let view_center :=
      f64_add (frequency_center self)
              (f64_mul (frequency_span self)
                       (f64_of_f32 (f32_sub (freq_center render) f0_5))) in
    let view_span := f64_mul (frequency_span self) (f64_of_f32 (freq_span render)) in
    [freq_axis_build view_center view_span (freq_n_div render)]
  else
    [freq_axis_build (frequency_center self) (frequency_span self)
                     (freq_n_div render)].

(** One turn of [for (i=0; i<11; i++)]. *)
Definition power_gridline (self : fosphor) (render : fosphor_render) (i : Z)
  : list gl_cmd :=
  let yv :=
    f32_add (fst (_y_histo render))
            (f32_mul (f32_of_int i) (_y_histo_div render)) in
  [glColor4f f0 f0 f0 f0_5;
   gl_line (f32_add (fst (_x render)) f0_5, f32_add yv f0_5)
           (f32_sub (snd (_x render)) f0_5, f32_add yv f0_5)]
  ++ (if test (options render) FRO_LABEL_PWR
      then [glf_printf_d (_x_label render) yv
              (sint32 (power_db_ref self
                       - sint32 (sint32 (10 - i) * power_db_per_div self)))]
      else []).

(** One turn of [for (i=0; i<=render->freq_n_div; i++)]. *)
Definition freq_gridline (render : fosphor_render) (i : Z) : list gl_cmd :=
  let xv := f32_add (fst (_x render)) (f32_mul (f32_of_int i) (_x_div render)) in
  [glColor4f f0 f0 f0 f0_5;
   gl_line (f32_add xv f0_5, f32_add (fst (_y_histo render)) f0_5)
           (f32_add xv f0_5, f32_sub (snd (_y_histo render)) f0_5)]
  ++ (if test (options render) FRO_LABEL_FREQ
      then [glf_printf_freq i (sint32 (i - Z.quot (freq_n_div render) 2))]
      else []).

(** The two loops of the grid block. *)
Definition power_grid (self : fosphor) (render : fosphor_render) : list gl_cmd :=
  seqZ 0 11 ≫= power_gridline self render.

Definition freq_grid (render : fosphor_render) : list gl_cmd :=
  seqZ 0 (freq_n_div render + 1) ≫= freq_gridline render.

Definition draw_grid (self : fosphor) (render : fosphor_render) : list gl_cmd :=
  if test (options render) (Z.lor (Z.lor FRO_LIVE FRO_MAX_HOLD) FRO_HISTO)
  then power_grid self render ++ freq_grid render
  else [].

(** The line segments and the [%d] labels of a command list, in order. *)
Definition lines (cs : list gl_cmd) : list ((f32 * f32) * (f32 * f32)) :=
  omap (fun c => match c with gl_line a b => Some (a, b) | _ => None end) cs.

Definition labels_d (cs : list gl_cmd) : list Z :=
  omap (fun c => match c with glf_printf_d _ _ v => Some v | _ => None end) cs.

(** *** Channel overlays *)

(** An entry of the local array [pt]. *)
Record point := {
  dir : Z;
  pos : f32
}.

#[export] Instance point_inhabited : Inhabited point :=
  populate {| dir := 0; pos := f0 |}.

(** [(f > 0.0f) ? (f < 1.0f ? f : 1.0f) : 0.0f] *)
Definition clamp01 (f : f32) : f32 :=
  if f32_lt f0 f then (if f32_lt f f1 then f else f1) else f0.

Definition chan_start (c : fosphor_channel) : f32 :=
  clamp01 (f32_sub (center c) (f32_div (width c) f2)).

Definition chan_end (c : fosphor_channel) : f32 :=
  clamp01 (f32_add (center c) (f32_div (width c) f2)).

(** The two entries a channel adds, none when it is disabled. *)
Definition channel_points (c : fosphor_channel) : list point :=
  if enabled c =? 0 then []
  else [ {| dir := 1; pos := chan_start c |};
         {| dir := -1; pos := chan_end c |} ].

(** The array [pt] after the generation loop; its length is [n]. *)
Definition gen_points (chans : list fosphor_channel) : list point :=
  [ {| dir := -1; pos := f0 |}; {| dir := 1; pos := f1 |} ]
  ++ (chans ≫= channel_points).

(** The inner loop: the index of the first least [pos] among
    [pt[i] .. pt[n-1]]. *)
Definition find_min (pt : list point) (i n : nat) : nat :=
  foldl (fun mi j => if f32_lt (pos (pt !!! j)) (pos (pt !!! mi)) then j else mi)
        i (seq (S i) (n - S i)).

(** A sub-interval the sweep shades: the running counter [l] when it is
    drawn, and its two ends [pt[i-1].pos] and [pt[i].pos]. *)
Record span := {
  lvl : Z;
  left : f32;
  right : f32
}.

(** One turn of the outer loop ("sort and draw at the same time"). *)
Definition sweep_step (n : nat) (st : list point * Z * list span) (i : nat)
  : list point * Z * list span :=
  let '(pt, l, out) := st in
  let mi := find_min pt i n in
  let tpt := pt !!! i in
  let pt := <[i := pt !!! mi]> pt in
  let pt := <[mi := tpt]> pt in
  let out :=
    if negb (f32_eq (pos (pt !!! (i - 1)%nat)) (pos (pt !!! i))) && negb (l =? 0)
    then out ++ [ {| lvl := l; left := pos (pt !!! (i - 1)%nat);
                     right := pos (pt !!! i) |} ]
    else out in
  (pt, sint32 (l + dir (pt !!! i)), out).

Definition sweep (pt : list point) : list point * Z * list span :=
  let n := length pt in
  foldl (sweep_step n) (pt, dir (pt !!! 0%nat), []) (seq 1 (n - 1)).

(** The colour [glColor4f] gets for counter [l] (never [0] when drawn). *)
Definition shade_color (l : Z) : f32 * f32 * f32 * f32 :=
  if l <? 0 then (f0, f0, f0, f0_5)
  else (f1, f1, f1,
        f32_sub (f32_lit 2 10)
                (f32_div (f32_lit 2 10) (f32_of_int (sint32 (1 + l))))).

Definition shade (render : fosphor_render) (s : span) : list gl_cmd :=
  let '(r, g, b, a) := shade_color (lvl s) in
  [glColor4f r g b a]
  ++ (if test (options render) FRO_WATERFALL
      then [gl_quad (right s, (fst (_y_histo render))) (left s, (fst (_y_histo render)))
                    (left s, (snd (_y_histo render))) (right s, (snd (_y_histo render)))]
      else [])
  ++ (if test (options render) (Z.lor (Z.lor FRO_LIVE FRO_MAX_HOLD) FRO_HISTO)
      then [gl_quad (right s, (fst (_y_wf render))) (left s, (fst (_y_wf render)))
                    (left s, (snd (_y_wf render))) (right s, (snd (_y_wf render)))]
      else []).

Definition draw_channels (render : fosphor_render) : list gl_cmd :=
  if test (options render) FRO_CHANNELS then
    let pt := gen_points (channels render) in
    if (2 <? length pt)%nat then
      [glPushMatrix;
       glTranslatef (fst (_x render)) f0 f0;
       glScalef (f32_sub (snd (_x render)) (fst (_x render))) f1 f1]
      ++ (snd (sweep pt) ≫= shade render)
      ++ [glPopMatrix]
    else []
  else [].

(** *** [fosphor_gl_draw] *)

Definition fosphor_gl_draw (self : fosphor) (render : fosphor_render)
  : option (list gl_cmd) :=
  spectrum ← draw_spectrum self render;
  Some (draw_waterfall self render
        ++ draw_histogram self render
        ++ spectrum
        ++ setup_freq_axis self render
        ++ draw_grid self render
        ++ draw_channels render).

(** *** Coverage depth, as the specification defines it

    The number of enabled channels whose clamped interval
    [[chan_start, chan_end)] holds the point [x]. *)
Definition f32_le (x y : f32) : bool := negb (f32_lt y x).

Definition covers (c : fosphor_channel) (x : f32) : bool :=
  negb (enabled c =? 0) && f32_le (chan_start c) x && f32_lt x (chan_end c).

Definition depth (chans : list fosphor_channel) (x : f32) : Z :=
  Z.of_nat (length (filter (fun c => covers c x = true) chans)).

End GL.

(** ** Vocabulary of the properties *)

Import Sink GL.

(** [mark(b1) ... mark(bn)] on the settings register, and the union of the
    masks. *)
Definition marks (bs : list Z) (s : sink) : sink :=
  foldl (fun s b => settings_mark_changed b s) s bs.

Definition union_of (bs : list Z) : Z := foldl Z.lor 0 bs.

(** The FFT lengths [set_fft_size] accepts. *)
Definition supported_fft_sizes : list Z :=
  [512; 1024; 2048; 4096; 8192; 16384; 32768].

(** A sequence of UI actions, as calls. *)
Definition ui_calls (acts : list ui_action_t) : list call :=
  call_execute_ui_action <$> acts.

(** The [fosphor_process] calls of a trace: data offset and length. *)
Definition process_calls (evs : list event) : list (option Z * Z) :=
  omap (fun e => match e with
                 | fosphor_process data len => Some (data, len)
                 | _ => None
                 end) evs.

(** The dB/div index addresses [k_db_per_div]. *)
Definition idx_in_table (s : sink) : Prop := 0 <= d_db_per_div_idx s <= 4.

(** A descriptor and an object to run the code on: a 1000 x 600 pane with
    every trace and label switched on, and the object as constructed around
    it, 1000 x 600 with nothing pending. *)
Definition demo_render : fosphor_render :=
  {| pos_x := 0; r_width := 1000; r_height := 600;
     options :=
       Z.lor (Z.lor (Z.lor FRO_LIVE FRO_MAX_HOLD) (Z.lor FRO_HISTO FRO_WATERFALL))
             (Z.lor (Z.lor FRO_LABEL_FREQ FRO_LABEL_PWR) FRO_LABEL_TIME);
     histo_wf_ratio := f0_5; freq_n_div := 10;
     freq_center := f0_5; freq_span := f1; wf_span := f1;
     channels := [];
     _wf_pos := 0; _x_div := f32_of_int 95;
     _x := (f32_of_int 40, f32_of_int 990); _x_label := f32_of_int 35;
     _y_histo_div := f32_of_int 28;
     _y_histo := (f32_of_int 310, f32_of_int 590);
     _y_wf := (f32_of_int 10, f32_of_int 290); _y_label := f32_of_int 300 |}.

Definition demo_sink : sink := base_sink_c_impl demo_render 1000 600 0.

Definition demo_fosphor : fosphor :=
  {| fft_len := 1024; power_db_ref := 0; power_db_per_div := 10;
     power_scale := f1; power_offset := f0;
     frequency_center := f64_of_int 0; frequency_span := f64_of_int 1 |}.

(** The values the pane-height ratio takes: what [RATIO_UP] and
    [RATIO_DOWN] reach from [0.35f], in increasing order. *)
Definition ratio_values : list f32 :=
  [S754_finite false 13421770 (-26);
   S754_finite false 13421772 (-26);
   S754_finite false 16777213 (-26);
   S754_finite false 16777215 (-26);
   S754_finite false 10066328 (-25);
   S754_finite false 10066329 (-25);
   S754_finite false 11744050 (-25);
   S754_finite false 11744051 (-25);
   S754_finite false 13421772 (-25);
   S754_finite false 13421773 (-25);
   S754_finite false 15099494 (-25);
   S754_finite false 15099495 (-25);
   S754_finite false 8388608 (-24);
   S754_finite false 9227469 (-24);
   S754_finite false 10066330 (-24);
   S754_finite false 10905191 (-24);
   S754_finite false 11744052 (-24);
   S754_finite false 12582913 (-24);
   S754_finite false 13421774 (-24)].

(** The ratio is within [0.2 - 2^-24, 0.8 + 2^-23]. *)
Definition ratio_near_bounds (r : f32) : Prop :=
  ((1 # 5) - (1 # 16777216) <= IEEE.to_Q r
   /\ IEEE.to_Q r <= (4 # 5) + (1 # 8388608))%Q.

(** The ratio moved from [r] to [r'] by 0.05, to within 2^-25. *)
Definition ratio_stepped (r r' : f32) : Prop :=
  (Qabs (Qabs (IEEE.to_Q r' - IEEE.to_Q r) - (1 # 20)) <= 1 # 33554432)%Q.

(** [(int)(d_width * 0.65f)], the main pane's width under zoom. *)
Definition zoom_main_width (W : Z) : option Z :=
  IEEE.to_int (f32_mul (f32_of_int W) (f32_lit 65 100)).

(** The object with one batch-aligned chunk of 16 x 1024 samples queued at
    offset 3 x 16 x 1024, and the same object frozen. *)
Definition demo_loaded : sink :=
  set_d_fifo {| capacity := 2 * 1024 * 1024; rp := 3 * (16 * 1024);
                fifo_used := 16 * 1024 |} demo_sink.

Definition demo_loaded_frozen : sink := set_d_frozen true demo_loaded.

(** The [y] of power gridline [i], [_y_histo[0] + i * _y_histo_div], the
    segment drawn there and the value printed beside it. *)
Definition gridline_y (render : fosphor_render) (i : Z) : f32 :=
  f32_add (fst (_y_histo render)) (f32_mul (f32_of_int i) (_y_histo_div render)).

Definition gridline_segment (render : fosphor_render) (i : Z)
  : (f32 * f32) * (f32 * f32) :=
  ((f32_add (fst (_x render)) f0_5, f32_add (gridline_y render i) f0_5),
   (f32_sub (snd (_x render)) f0_5, f32_add (gridline_y render i) f0_5)).

Definition gridline_value (self : fosphor) (i : Z) : Z :=
  power_db_ref self - (10 - i) * power_db_per_div self.

(** A segment is horizontal: both ends have the same [y]. *)
Definition is_horizontal (l : (f32 * f32) * (f32 * f32)) : bool :=
  f32_eq (snd (fst l)) (snd (snd l)).

(** The [glDrawArrays(GL_LINE_STRIP, first, count)] calls of a command
    list. *)
Definition draw_arrays (cs : list gl_cmd) : list (Z * Z) :=
  omap (fun c => match c with
                 | glDrawArrays_LINE_STRIP first count => Some (first, count)
                 | _ => None
                 end) cs.

(** The order of [<] on single-precision numbers: a number that is not a
    NaN has a rank, and [f32_lt] compares ranks lexicographically. *)
Definition valid (x : f32) : Prop := IEEE.is_nan x = false.

Definition rank (x : f32) : Z * (Z * Z) :=
  match x with
  | S754_nan => (0, (0, 0))
  | S754_zero _ => (0, (0, 0))
  | S754_infinity s => (if s then -2 else 2, (0, 0))
  | S754_finite s m e =>
      if s then (-1, (- e, - Zpos m)) else (1, (e, Zpos m))
  end.

Definition lex_lt (a b : Z * (Z * Z)) : Prop :=
  fst a < fst b
  \/ (fst a = fst b
      /\ (fst (snd a) < fst (snd b)
          \/ (fst (snd a) = fst (snd b) /\ snd (snd a) < snd (snd b)))).

Definition flt (x y : f32) : Prop := lex_lt (rank x) (rank y).
Definition fle (x y : f32) : Prop := ~ lex_lt (rank y) (rank x).

(** The points of the sweep: order by position, sum of [dir], and the spans
    a left-to-right pass over an array of points draws, with its running
    counter. *)
Definition pos_le (p q : point) : Prop := fle (pos p) (pos q).

Fixpoint dir_sum (ps : list point) : Z :=
  match ps with
  | [] => 0
  | p :: ps' => dir p + dir_sum ps'
  end.

Fixpoint spans_from (l : Z) (prev : point) (ps : list point) : list span :=
  match ps with
  | [] => []
  | p :: ps' =>
      (if negb (f32_eq (pos prev) (pos p)) && negb (l =? 0)
       then [ {| lvl := l; left := pos prev; right := pos p |} ] else [])
      ++ spans_from (l + dir p) p ps'
  end.

Definition spans_of (ps : list point) : list span :=
  match ps with
  | [] => []
  | p0 :: ps' => spans_from (dir p0) p0 ps'
  end.

(** An entry of [pt] as the generation loop makes them. *)
Definition well_formed (p : point) : Prop :=
  valid (pos p) /\ (dir p = 1 \/ dir p = -1).

(** What holds before turn [i] of the outer loop: the array is a
    permutation of the initial one, its first [i] entries are sorted and at
    or before all others, and the counter and the spans are those of the
    first [i] entries. *)
Definition sweep_inv (pt0 : list point) (i : nat)
    (st : list point * Z * list span) : Prop :=
  fst (fst st) ≡ₚ pt0
  /\ StronglySorted pos_le (take i (fst (fst st)))
  /\ (forall p q, p ∈ take i (fst (fst st)) -> q ∈ drop i (fst (fst st)) ->
                  pos_le p q)
  /\ snd (fst st) = dir_sum (take i (fst (fst st)))
  /\ snd st = spans_of (take i (fst (fst st))).

(** The sum of [dir] over the points at or before [x]. *)
Fixpoint level (ps : list point) (x : f32) : Z :=
  match ps with
  | [] => 0
  | p :: ps' => (if f32_lt x (pos p) then 0 else dir p) + level ps' x
  end.

(** A point inside [[0, 1]]. *)
Definition in_unit (p : point) : Prop :=
  well_formed p /\ fle f0 (pos p) /\ fle (pos p) f1.

(** A channel that is disabled, or whose clamped interval does not end
    before it starts. *)
Definition chan_ok (c : fosphor_channel) : Prop :=
  enabled c = 0 \/ f32_lt (chan_end c) (chan_start c) = false.

(** The array is sorted by position. *)
Definition sorted_by_pos (ps : list point) : Prop :=
  StronglySorted (fun p q => f32_lt (pos q) (pos p) = false) ps.

(** A span as the specification reads it: a non-empty sub-interval drawn
    with a counter one below its coverage depth, a depth other than 1 that
    is the same all over it. *)
Definition span_at_depth (chans : list fosphor_channel) (sp : span) : Prop :=
  f32_lt (left sp) (right sp) = true
  /\ lvl sp = depth chans (left sp) - 1
  /\ depth chans (left sp) <> 1
  /\ forall x, f32_lt x (left sp) = false -> f32_lt x (right sp) = true ->
               depth chans x = depth chans (left sp).

(** The alpha [glColor4f] gets for counter [l]. *)
Definition shade_alpha (l : Z) : f32 := snd (shade_color l).

(** Two enabled channels, [[0.1, 0.3]] and [[0.2, 0.4]]: centers 0.2 and
    0.3, width 0.2. *)
Definition overlap_example : list fosphor_channel :=
  [ {| enabled := 1; center := f32_lit 2 10; width := f32_lit 2 10 |};
    {| enabled := 1; center := f32_lit 3 10; width := f32_lit 2 10 |} ].

(** *** Rounding to binary32, in integers and rationals *)

(** Round to nearest, ties to even, of [m / 2^n]. *)
Definition rne (m n : Z) : Z :=
  let q := m / 2 ^ n in
  let r := m mod 2 ^ n in
  if 2 * r <? 2 ^ n then q
  else if (2 * r =? 2 ^ n) && Z.even q then q
  else q + 1.

(** [z * 2^e] as a rational. *)
Definition Qval (z e : Z) : Q := (inject_Z z * 2 ^ e)%Q.

(** The integers a binary32 number can hold: a 24-bit mantissa and a shift. *)
Definition fits24 (P : Z) : Prop :=
  exists k j, 0 <= j <= 104 /\ 0 < k < 2 ^ 24 /\ P = k * 2 ^ j.

(** A number as the arithmetic produces them: at most 24 bits of mantissa,
    the exponent at most 104. *)
Definition bounded32 (x : f32) : Prop :=
  match x with
  | S754_finite _ m e => Zpos m < 2 ^ 24 /\ e <= 104
  | _ => True
  end.

(** What a rounding returns: a zero, a number or an infinity of the sign it
    was given, the exponent of the number at most [D - 23] when the value
    rounded is below [2^D]. *)
Definition rounds_below (s : bool) (D : Z) (x : f32) : Prop :=
  x = S754_zero s
  \/ (exists m e, x = S754_finite s m e /\ e <= D - 23)
  \/ (x = S754_infinity s /\ 104 < D - 23).

(** The [int] a conversion yields, when the value fits one. *)
Definition int_range (z : Z) : option Z :=
  if (- 2 ^ 31 <=? z) && (z <? 2 ^ 31) then Some z else None.

Definition is_finite (x : f32) : bool :=
  match x with
  | S754_zero _ | S754_finite _ _ _ => true
  | _ => false
  end.

(** [(int)ceilf(x)] and [(int)floorf(x)], by the exact value of [x]. *)
Definition ceil_int (x : f32) : option Z :=
  if is_finite x then int_range (Qceiling (IEEE.to_Q x)) else None.

Definition floor_int (x : f32) : option Z :=
  if is_finite x then int_range (Qfloor (IEEE.to_Q x)) else None.

(** *** The spectrum draw and the overlay, by parts *)

(** The two products of the spectrum draw, in single precision as the code
    computes them: [(float)fft_len * (freq_center -/+ freq_span / 2.0f)]. *)
Definition spectrum_lo (self : fosphor) (render : fosphor_render) : f32 :=
  f32_mul (f32_of_int (fft_len self))
          (f32_sub (freq_center render) (f32_div (freq_span render) f2)).

Definition spectrum_hi (self : fosphor) (render : fosphor_render) : f32 :=
  f32_mul (f32_of_int (fft_len self))
          (f32_add (freq_center render) (f32_div (freq_span render) f2)).

(** The ends as the specification words them: the exact ceiling and floor of
    [bin_count * (center -/+ span / 2)], on the pane's center and span. *)
Definition formula_ends (self : fosphor) (render : fosphor_render) : Z * Z :=
  let n := inject_Z (fft_len self) in
  let c := IEEE.to_Q (freq_center render) in
  let s := IEEE.to_Q (freq_span render) in
  (Qceiling (n * (c - s / 2)), Qfloor (n * (c + s / 2))).

(** The object after six key presses (zoom on, zoom width halved, zoom
    center moved down four times) and one frame, and after zoom on and the
    zoom width doubled 25 times and one frame. *)
Definition demo_zoomed : option sink :=
  fst <$> run (fun r => r)
              (ui_calls [ZOOM_TOGGLE; ZOOM_WIDTH_DOWN; ZOOM_CENTER_DOWN;
                         ZOOM_CENTER_DOWN; ZOOM_CENTER_DOWN; ZOOM_CENTER_DOWN]
               ++ [call_render])
              demo_sink.

Definition demo_wide : option sink :=
  fst <$> run (fun r => r)
              (ui_calls (ZOOM_TOGGLE :: replicate 25 ZOOM_WIDTH_UP)
               ++ [call_render])
              demo_sink.

(** The pane of the demo with the channel overlay switched on over the two
    example channels. *)
Definition overlap_render : fosphor_render :=
  set_channels overlap_example
    (set_options (Z.lor (options demo_render) FRO_CHANNELS) demo_render).

(** The commands around the shades of a pane's overlay. *)
Definition overlay_of (render : fosphor_render) (spans : list span) : list gl_cmd :=
  [glPushMatrix;
   glTranslatef (fst (_x render)) f0 f0;
   glScalef (f32_sub (snd (_x render)) (fst (_x render))) f1 f1]
  ++ (spans ≫= shade render)
  ++ [glPopMatrix].

(** The list of opacities is strictly increasing. *)
Fixpoint increasing (xs : list f32) : bool :=
  match xs with
  | x :: (y :: _) as xs' => f32_lt x y && increasing xs'
  | _ => true
  end.

(** Proof steps that recur: membership in an explicit list, a case per
    value of the ratio, and the order of ranks by linear arithmetic. *)
Ltac in_list :=
  repeat first [left; reflexivity | right]; fail.

Ltac each_ratio H :=
  unfold ratio_values in H; simpl in H;
  repeat (destruct H as [<-|H]; [|]); [..|contradiction].

Ltac lex_solve :=
  unfold fle, flt, lex_lt in *;
  repeat match goal with
         | H : context [rank ?x] |- _ => destruct (rank x) as [? [? ?]]
         | |- context [rank ?x] => destruct (rank x) as [? [? ?]]
         end;
  cbn [fst snd] in *; lia.

(** An order between integers, carried to the rationals. *)
Ltac to_Q H :=
  first [rewrite Zle_Qle in H | rewrite Zlt_Qlt in H];
  rewrite ?inject_Z_plus, ?inject_Z_mult, ?inject_Z_opp in H;
  change (inject_Z 1) with 1%Q in H;
  change (inject_Z 13) with 13%Q in H;
  change (inject_Z 19) with 19%Q in H;
  change (inject_Z 20) with 20%Q in H;
  change (inject_Z 262144) with 262144%Q in H;
  change (inject_Z 524288) with 524288%Q in H;
  change (inject_Z 2097152) with 2097152%Q in H.

(** * Properties *)

(** ** C integers *)

Lemma sint32_id z : in_int z -> sint32 z = z.
Proof.
  unfold in_int, sint32. intros Hz.
  rewrite Z.mod_small by lia. lia.
Qed.

Lemma sint32_range z : in_int (sint32 z).
Proof.
  unfold in_int, sint32.
  pose proof (Z.mod_pos_bound (z + 2 ^ 31) (2 ^ 32) ltac:(lia)). lia.
Qed.

(** ** The literals of the sources, spelled out *)

Example lit_0_65f : f32_lit 65 100 = S754_finite false 10905190 (-24).
Proof. reflexivity. Qed.
Example lit_0_35f : f32_lit 35 100 = S754_finite false 11744051 (-25).
Proof. reflexivity. Qed.
Example lit_0_05f : f32_lit 5 100 = S754_finite false 13421773 (-28).
Proof. reflexivity. Qed.
Example lit_0_8f : f32_lit 8 10 = S754_finite false 13421773 (-24).
Proof. reflexivity. Qed.
Example lit_0_2f : f32_lit 2 10 = S754_finite false 13421773 (-26).
Proof. reflexivity. Qed.
Example ceilf_neg : ceilf (f32_lit (-3) 10) = S754_zero true.
Proof. reflexivity. Qed.
Example floorf_neg : floorf (f32_lit (-3) 10) = f32_of_int (-1).
Proof. reflexivity. Qed.
Example ceilf_pos : ceilf (f32_lit 25 10) = f32_of_int 3.
Proof. reflexivity. Qed.

(** ** The settings register *)

Lemma marks_changed bs s :
  d_settings_changed (marks bs s) = foldl Z.lor (d_settings_changed s) bs.
Proof.
  revert s. induction bs as [|b bs IH]; intros s; simpl; [reflexivity|].
  rewrite IH. reflexivity.
Qed.

Lemma foldl_lor_assoc a c bs :
  foldl Z.lor (Z.lor a c) bs = Z.lor a (foldl Z.lor c bs).
Proof.
  revert c. induction bs as [|b bs IH]; intros c; simpl; [reflexivity|].
  rewrite <- Z.lor_assoc. apply IH.
Qed.

Lemma foldl_lor_from a bs : foldl Z.lor a bs = Z.lor a (union_of bs).
Proof.
  unfold union_of. rewrite <- foldl_lor_assoc. now rewrite Z.lor_0_r.
Qed.

(** A drain hands out what was pending and the marks made since. *)
Lemma drain_pending_and_marks bs s :
  fst (settings_get_and_reset_changed (marks bs s))
  = Z.lor (d_settings_changed s) (union_of bs).
Proof. simpl. rewrite marks_changed. apply foldl_lor_from. Qed.

(** C8. After a drain, any sequence of [mark(b1) ... mark(bn)] makes the
    next drain return exactly the bitwise union of [b1 .. bn], and the drain
    right after that one returns the empty set. *)
Theorem settings_drain_returns_union (s : sink) (bs : list Z) :
  let s0 := snd (settings_get_and_reset_changed s) in
  let d1 := settings_get_and_reset_changed (marks bs s0) in
  let d2 := settings_get_and_reset_changed (snd d1) in
  fst d1 = union_of bs /\ fst d2 = 0.
Proof.
  intros s0 d1 d2. split; [|reflexivity].
  unfold d1. rewrite drain_pending_and_marks. reflexivity.
Qed.

(** ** [set_fft_size] *)

Lemma supported_fft_size_test size :
  (size =? 512) || (size =? 1024) || (size =? 2048) || (size =? 4096)
  || (size =? 8192) || (size =? 16384) || (size =? 32768) = true
  <-> In size supported_fft_sizes.
Proof.
  unfold supported_fft_sizes. simpl.
  rewrite !orb_true_iff, !Z.eqb_eq. intuition.
Qed.

(** C7. A call with the size in force changes nothing and marks nothing; a
    call with another supported size stores it and marks the fft-size
    category once, so that the same call made again changes nothing more; a
    call with an unsupported size changes neither the size nor the dirty
    set. *)
Theorem set_fft_size_dedup (s : sink) (size : Z) :
  (size = d_fft_size s -> set_fft_size size s = s)
  /\ (In size supported_fft_sizes -> size <> d_fft_size s ->
      set_fft_size size s
      = settings_mark_changed SETTING_FFT_SIZE (set_d_fft_size size s)
      /\ set_fft_size size (set_fft_size size s) = set_fft_size size s)
  /\ (~ In size supported_fft_sizes ->
      set_fft_size size s = s).
Proof.
  unfold set_fft_size. repeat split.
  - intros ->. now rewrite Z.eqb_refl.
  - apply Z.eqb_neq in H0. rewrite H0.
    apply supported_fft_size_test in H. now rewrite H.
  - apply Z.eqb_neq in H0. rewrite H0.
    apply supported_fft_size_test in H. rewrite H. simpl.
    now rewrite Z.eqb_refl.
  - intros Hn. destruct (size =? d_fft_size s); [reflexivity|].
    destruct ((size =? 512) || (size =? 1024) || (size =? 2048) || (size =? 4096)
              || (size =? 8192) || (size =? 16384) || (size =? 32768)) eqn:E;
      [|reflexivity].
    apply supported_fft_size_test in E. contradiction.
Qed.

Lemma set_fft_size_dedup_witness :
  In 4096 supported_fft_sizes /\ 4096 <> d_fft_size demo_sink
  /\ set_fft_size 4096 (set_fft_size 4096 demo_sink) = set_fft_size 4096 demo_sink
  /\ d_settings_changed (set_fft_size 4096 (set_fft_size 4096 demo_sink))
     = SETTING_FFT_SIZE.
Proof.
  assert (Hin : In 4096 supported_fft_sizes) by (simpl; tauto).
  assert (Hne : 4096 <> d_fft_size demo_sink) by (simpl; lia).
  destruct (set_fft_size_dedup demo_sink 4096) as (_ & H & _).
  destruct (H Hin Hne) as [H1 H2].
  split; [exact Hin|]. split; [exact Hne|]. split; [exact H2|].
  rewrite H2, H1. reflexivity.
Defined.

(** ** The UI action interpreter *)

(** C9, as the code has it. With zoom disabled, [ZOOM_WIDTH_UP] leaves the
    zoom width and every other field of the UI state as they were, and marks
    the power-range and render-options categories dirty, as every action
    does. *)
Theorem zoom_width_up_without_zoom (s : sink) :
  d_zoom_enabled s = false ->
  execute_ui_action ZOOM_WIDTH_UP s
  = Some (set_d_settings_changed
            (Z.lor (d_settings_changed s)
                   (Z.lor SETTING_POWER_RANGE SETTING_RENDER_OPTIONS)) s).
Proof.
  intros Hz. unfold execute_ui_action. rewrite Hz. reflexivity.
Qed.

Lemma zoom_width_up_without_zoom_witness :
  d_zoom_enabled demo_sink = false
  /\ execute_ui_action ZOOM_WIDTH_UP demo_sink
     = Some (set_d_settings_changed
               (Z.lor (d_settings_changed demo_sink)
                      (Z.lor SETTING_POWER_RANGE SETTING_RENDER_OPTIONS))
               demo_sink).
Proof.
  split; [reflexivity|].
  apply (zoom_width_up_without_zoom demo_sink). reflexivity.
Defined.

(** C9 as stated fails: on the freshly built object, zoom disabled and
    nothing pending, the action leaves a state that differs from the one
    before in its dirty set. *)
Lemma zoom_width_up_changes_dirty_set :
  d_zoom_enabled demo_sink = false
  /\ d_settings_changed demo_sink = 0
  /\ (d_settings_changed <$> execute_ui_action ZOOM_WIDTH_UP demo_sink)
     = Some (Z.lor SETTING_POWER_RANGE SETTING_RENDER_OPTIONS)
  /\ Z.lor SETTING_POWER_RANGE SETTING_RENDER_OPTIONS <> 0
  /\ execute_ui_action ZOOM_WIDTH_UP demo_sink <> Some demo_sink.
Proof.
  split; [reflexivity|]. split; [reflexivity|]. split; [reflexivity|].
  split; [discriminate|].
  intros H. apply (f_equal (fmap d_settings_changed)) in H.
  discriminate H.
Qed.

(** *** What each call leaves alone *)

Lemma settings_apply_layout_frame refresh s s' :
  settings_apply_layout refresh s = Some s' ->
  s' = set_d_render (d_render_main s') (d_render_zoom s') s.
Proof.
  unfold settings_apply_layout. intros H.
  destruct (d_zoom_enabled s);
    simplify_option_eq; reflexivity.
Qed.

Lemma settings_apply_frame refresh settings s s' evs :
  settings_apply refresh settings s = Some (s', evs) ->
  s' = set_d_render (d_render_main s') (d_render_zoom s') s.
Proof.
  unfold settings_apply. intros H.
  simplify_option_eq.
  destruct (test settings (Z.lor SETTING_DIMENSIONS SETTING_RENDER_OPTIONS)).
  - eapply settings_apply_layout_frame; eassumption.
  - match goal with H : Some s = Some s' |- _ => injection H as <- end.
    now destruct s.
Qed.

(** The fields of the UI state that [render] does not touch. *)
Lemma render_frame refresh s s' evs :
  render refresh s = Some (s', evs) ->
  d_db_per_div_idx s' = d_db_per_div_idx s
  /\ d_ratio s' = d_ratio s
  /\ d_db_ref s' = d_db_ref s
  /\ d_zoom_enabled s' = d_zoom_enabled s
  /\ d_fft_size s' = d_fft_size s.
Proof.
  unfold render. intros H.
  apply bind_Some in H. destruct H as ([s1 e1] & E & H).
  apply settings_apply_frame in E.
  set (D := render_drain _ _ _ _ _) in H. clearbody D.
  injection H as <- _.
  cbn [fst set_d_fifo d_db_per_div_idx d_ratio d_db_ref d_zoom_enabled
       d_fft_size].
  rewrite E.
  cbn [snd settings_get_and_reset_changed set_d_render set_d_settings_changed
       d_db_per_div_idx d_ratio d_db_ref d_zoom_enabled d_fft_size].
  repeat split.
Qed.

(** *** The dB/div index *)

Lemma table_read_in_bounds i :
  0 <= i <= 4 -> exists k, table_read k_db_per_div i = Some k.
Proof.
  intros Hi. unfold table_read.
  assert (H : i = 0 \/ i = 1 \/ i = 2 \/ i = 3 \/ i = 4) by lia.
  destruct H as [->|[->|[->|[->| ->]]]]; simpl; eauto.
Qed.

Lemma execute_ui_action_defined a s :
  idx_in_table s -> exists s', execute_ui_action a s = Some s'.
Proof.
  intros Hi. destruct (table_read_in_bounds _ Hi) as [k Hk].
  unfold execute_ui_action.
  destruct a; try rewrite Hk; simpl; eauto.
Qed.

Lemma execute_ui_action_idx a s s' :
  idx_in_table s -> execute_ui_action a s = Some s' -> idx_in_table s'.
Proof.
  unfold idx_in_table, execute_ui_action. intros Hi H.
  apply bind_Some in H. destruct H as (s1 & H1 & H).
  injection H as <-.
  cbn [settings_mark_changed set_d_settings_changed d_db_per_div_idx].
  destruct a;
    try (apply bind_Some in H1; destruct H1 as (k & _ & H1));
    injection H1 as <-;
    repeat match goal with
           | |- context [if ?c then _ else _] => destruct c eqn:?
           end;
    cbn [set_d_db_per_div_idx set_d_db_ref set_d_zoom_enabled set_d_zoom_width
         set_d_zoom_center set_d_ratio set_d_frozen d_db_per_div_idx];
    try rewrite sint32_id by (unfold in_int; lia);
    lia.
Qed.

Lemma step_idx refresh c s s' evs :
  idx_in_table s -> step refresh c s = Some (s', evs) -> idx_in_table s'.
Proof.
  intros Hi H. destruct c; cbn [step] in H.
  - apply bind_Some in H. destruct H as (s1 & H1 & H).
    injection H as <- _. eapply execute_ui_action_idx; eassumption.
  - injection H as <- _. exact Hi.
  - injection H as <- _. exact Hi.
  - injection H as <- _. exact Hi.
  - injection H as <- _. exact Hi.
  - injection H as <- _. exact Hi.
  - injection H as <- _. unfold set_fft_window.
    destruct (win =? d_fft_window s); exact Hi.
  - injection H as <- _. unfold set_fft_size.
    destruct (size =? d_fft_size s); [exact Hi|].
    match goal with |- context [if ?c then _ else _] => destruct c end;
      exact Hi.
  - apply render_frame in H. unfold idx_in_table.
    destruct H as (-> & _). exact Hi.
Qed.

Lemma run_idx refresh cs s s' evs :
  idx_in_table s -> run refresh cs s = Some (s', evs) -> idx_in_table s'.
Proof.
  revert s evs. induction cs as [|c cs IH]; intros s evs Hi H; cbn [run] in H.
  - injection H as <- _. exact Hi.
  - apply bind_Some in H. destruct H as ([s1 e1] & H1 & H).
    apply bind_Some in H. destruct H as ([s2 e2] & H2 & H).
    cbn [fst snd] in *.
    injection H as <- _.
    eapply IH; [|exact H2]. eapply step_idx; eassumption.
Qed.

(** C10. The dB/div index starts in range and every call of the object
    keeps it within 0..4, so the read [k_db_per_div[d_db_per_div_idx]] of
    [REF_UP], [REF_DOWN] and of the power-range apply is inside the
    five-element table and every UI action runs to its end. *)
Theorem db_per_div_idx_in_table defaults refresh width height pending cs s evs :
  run refresh cs (base_sink_c_impl defaults width height pending) = Some (s, evs) ->
  0 <= d_db_per_div_idx s <= 4
  /\ (exists k, table_read k_db_per_div (d_db_per_div_idx s) = Some k
                /\ In k k_db_per_div)
  /\ (forall a, exists s',
         execute_ui_action a s = Some s' /\ 0 <= d_db_per_div_idx s' <= 4).
Proof.
  intros H.
  assert (Hi : idx_in_table s).
  { eapply run_idx; [|exact H]. unfold idx_in_table. simpl. lia. }
  split; [exact Hi|]. split.
  - destruct (table_read_in_bounds _ Hi) as [k Hk]. exists k. split; [exact Hk|].
    unfold table_read in Hk.
    destruct (d_db_per_div_idx s <? 0); [discriminate|].
    apply list_elem_of_In. eapply list_elem_of_lookup_2. exact Hk.
  - intros a. destruct (execute_ui_action_defined a s Hi) as [s' Hs'].
    exists s'. split; [exact Hs'|].
    eapply execute_ui_action_idx; eassumption.
Qed.

(** UI actions alone never stop the object: a run of them always ends. *)
Lemma run_ui_calls_defined refresh acts s :
  idx_in_table s -> exists s', run refresh (ui_calls acts) s = Some (s', []).
Proof.
  revert s. induction acts as [|a acts IH]; intros s Hi.
  - exists s. reflexivity.
  - destruct (execute_ui_action_defined a s Hi) as [s1 H1].
    destruct (IH s1 (execute_ui_action_idx _ _ _ Hi H1)) as [s2 H2].
    exists s2. unfold ui_calls in *. cbn [fmap list_fmap run step].
    rewrite H1. cbn [mbind option_bind fst snd]. rewrite H2. reflexivity.
Qed.

Lemma db_per_div_idx_in_table_witness :
  run (fun r => r) (ui_calls [DB_PER_DIV_UP; DB_PER_DIV_UP; REF_UP; DB_PER_DIV_DOWN])
      demo_sink
  = Some (set_d_settings_changed
            (Z.lor SETTING_POWER_RANGE SETTING_RENDER_OPTIONS)
            (set_d_db_ref 20 (set_d_db_per_div_idx 3 demo_sink)), [])
  /\ 0 <= 3 <= 4.
Proof.
  assert (H : run (fun r => r)
                  (ui_calls [DB_PER_DIV_UP; DB_PER_DIV_UP; REF_UP; DB_PER_DIV_DOWN])
                  (base_sink_c_impl demo_render 1000 600 0)
              = Some (set_d_settings_changed
                        (Z.lor SETTING_POWER_RANGE SETTING_RENDER_OPTIONS)
                        (set_d_db_ref 20 (set_d_db_per_div_idx 3 demo_sink)), []))
    by reflexivity.
  split; [exact H|].
  exact (proj1 (db_per_div_idx_in_table _ _ _ _ _ _ _ _ H)).
Defined.

(** *** The pane-height ratio *)

Lemma ratio_up_closed r :
  In r ratio_values ->
  In (if f32_lt r (f32_lit 8 10) then f32_add r (f32_lit 5 100) else r)
     ratio_values.
Proof.
  intros H. each_ratio H; vm_compute; in_list.
Qed.

Lemma ratio_down_closed r :
  In r ratio_values ->
  In (if f32_lt (f32_lit 2 10) r then f32_sub r (f32_lit 5 100) else r)
     ratio_values.
Proof.
  intros H. each_ratio H; vm_compute; in_list.
Qed.

Lemma ratio_values_near_bounds r : In r ratio_values -> ratio_near_bounds r.
Proof.
  intros H. each_ratio H; vm_compute; split; discriminate.
Qed.

Lemma ratio_up_stepped r :
  In r ratio_values ->
  f32_lt r (f32_lit 8 10) = true ->
  ratio_stepped r (f32_add r (f32_lit 5 100)).
Proof.
  intros H. each_ratio H; vm_compute; discriminate.
Qed.

Lemma ratio_down_stepped r :
  In r ratio_values ->
  f32_lt (f32_lit 2 10) r = true ->
  ratio_stepped r (f32_sub r (f32_lit 5 100)).
Proof.
  intros H. each_ratio H; vm_compute; discriminate.
Qed.

Lemma execute_ui_action_ratio a s s' :
  execute_ui_action a s = Some s' ->
  In (d_ratio s) ratio_values ->
  In (d_ratio s') ratio_values
  /\ (d_ratio s' = d_ratio s \/ ratio_stepped (d_ratio s) (d_ratio s')).
Proof.
  unfold execute_ui_action. intros H Hr.
  apply bind_Some in H. destruct H as (s1 & H1 & H).
  injection H as <-.
  cbn [settings_mark_changed set_d_settings_changed d_ratio].
  destruct a;
    try (apply bind_Some in H1; destruct H1 as (k & _ & H1));
    injection H1 as <-;
    try (match goal with
         | |- context [if d_zoom_enabled s then _ else _] =>
             destruct (d_zoom_enabled s)
         | |- context [if ?c <? ?d then _ else _] => destruct (c <? d)
         | |- context [if ?c >? ?d then _ else _] => destruct (c >? d)
         end);
    try (split; [exact Hr | left; reflexivity]).
  - pose proof (ratio_up_closed _ Hr) as Hc.
    pose proof (ratio_up_stepped _ Hr) as Hs.
    destruct (f32_lt (d_ratio s) (f32_lit 8 10));
      cbn [set_d_ratio d_ratio]; split; auto.
  - pose proof (ratio_down_closed _ Hr) as Hc.
    pose proof (ratio_down_stepped _ Hr) as Hs.
    destruct (f32_lt (f32_lit 2 10) (d_ratio s));
      cbn [set_d_ratio d_ratio]; split; auto.
Qed.

Lemma step_ratio refresh c s s' evs :
  step refresh c s = Some (s', evs) ->
  In (d_ratio s) ratio_values -> In (d_ratio s') ratio_values.
Proof.
  intros H Hr. destruct c; cbn [step] in H.
  - apply bind_Some in H. destruct H as (s1 & H1 & H).
    injection H as <- _. eapply execute_ui_action_ratio; eassumption.
  - injection H as <- _. exact Hr.
  - injection H as <- _. exact Hr.
  - injection H as <- _. exact Hr.
  - injection H as <- _. exact Hr.
  - injection H as <- _. exact Hr.
  - injection H as <- _. unfold set_fft_window.
    destruct (win =? d_fft_window s); exact Hr.
  - injection H as <- _. unfold set_fft_size.
    destruct (size =? d_fft_size s); [exact Hr|].
    match goal with |- context [if ?c then _ else _] => destruct c end;
      exact Hr.
  - apply render_frame in H. destruct H as (_ & -> & _). exact Hr.
Qed.

Lemma run_ratio refresh cs s s' evs :
  run refresh cs s = Some (s', evs) ->
  In (d_ratio s) ratio_values -> In (d_ratio s') ratio_values.
Proof.
  revert s evs. induction cs as [|c cs IH]; intros s evs H Hr; cbn [run] in H.
  - injection H as <- _. exact Hr.
  - apply bind_Some in H. destruct H as ([s1 e1] & H1 & H).
    apply bind_Some in H. destruct H as ([s2 e2] & H2 & H).
    cbn [fst snd] in *.
    injection H as <- _.
    eapply IH; [exact H2|]. eapply step_ratio; eassumption.
Qed.

(** C3, as the code has it. Starting from the initial ratio [0.35f], every
    sequence of UI actions runs to its end and leaves the single-precision
    ratio at one of nineteen values, all within [0.2 - 2^-24, 0.8 + 2^-23];
    a further [RATIO_UP] or [RATIO_DOWN] either leaves the ratio as it is or
    moves it by 0.05 to within 2^-25. *)
Theorem ratio_stays_near_bounds defaults refresh width height pending acts :
  exists s,
    run refresh (ui_calls acts) (base_sink_c_impl defaults width height pending)
    = Some (s, [])
    /\ In (d_ratio s) ratio_values
    /\ ratio_near_bounds (d_ratio s)
    /\ forall a s', In a [RATIO_UP; RATIO_DOWN] ->
                    execute_ui_action a s = Some s' ->
                    ratio_near_bounds (d_ratio s')
                    /\ (d_ratio s' = d_ratio s
                        \/ ratio_stepped (d_ratio s) (d_ratio s')).
Proof.
  destruct (run_ui_calls_defined refresh acts
              (base_sink_c_impl defaults width height pending)) as [s Hs].
  { unfold idx_in_table. simpl. lia. }
  exists s. split; [exact Hs|].
  assert (Hr : In (d_ratio s) ratio_values).
  { eapply run_ratio; [exact Hs|]. vm_compute. in_list. }
  split; [exact Hr|]. split; [apply ratio_values_near_bounds; exact Hr|].
  intros a s' _ Ha.
  destruct (execute_ui_action_ratio _ _ _ Ha Hr) as [Hr' Hstep].
  split; [apply ratio_values_near_bounds; exact Hr'|exact Hstep].
Qed.

(** C3 as stated fails: nine [RATIO_UP] from the initial state leave the
    ratio above 0.8 (and above [0.8f]), three [RATIO_DOWN] leave it below
    0.2. *)
Lemma ratio_leaves_the_interval :
  (d_ratio ∘ fst <$> run (fun r => r) (ui_calls (replicate 9 RATIO_UP)) demo_sink)
  = Some (S754_finite false 13421774 (-24))
  /\ (4 # 5 < IEEE.to_Q (S754_finite false 13421774 (-24)))%Q
  /\ f32_lt (f32_lit 8 10) (S754_finite false 13421774 (-24)) = true
  /\ (d_ratio ∘ fst <$> run (fun r => r) (ui_calls (replicate 3 RATIO_DOWN)) demo_sink)
     = Some (S754_finite false 13421772 (-26))
  /\ (IEEE.to_Q (S754_finite false 13421772 (-26)) < 1 # 5)%Q.
Proof.
  repeat split; vm_compute; reflexivity.
Qed.

(** ** Binary32 arithmetic *)

(** ** Binary digits *)

Lemma digits2_pos_size p : digits2_pos p = Pos.size p.
Proof. induction p as [p IH|p IH|]; cbn; congruence. Qed.

Lemma digits2_pos_bounds p :
  2 ^ (Zpos (digits2_pos p) - 1) <= Zpos p < 2 ^ Zpos (digits2_pos p).
Proof.
  rewrite digits2_pos_size. split.
  - pose proof (Pos.size_le p) as H.
    apply Pos2Z.pos_le_pos in H. rewrite Pos2Z.inj_pow in H.
    replace (Zpos (Pos.size p)) with (Zpos (Pos.size p) - 1 + 1) in H by lia.
    rewrite Z.pow_add_r in H; [|lia|lia].
    change (2 ^ 1) with 2 in H. lia.
  - pose proof (Pos.size_gt p) as H.
    apply Pos2Z.pos_lt_pos in H. rewrite Pos2Z.inj_pow in H. exact H.
Qed.

Lemma digits2_pos_unique p d :
  2 ^ (d - 1) <= Zpos p < 2 ^ d -> Zpos (digits2_pos p) = d.
Proof.
  intros [Hl Hu]. destruct (digits2_pos_bounds p) as [Hl' Hu'].
  set (d' := Zpos (digits2_pos p)) in *.
  assert (0 < d').
  { unfold d'. lia. }
  assert (0 < d).
  { destruct (Z.lt_trichotomy 0 d) as [|[<-|Hd]]; [assumption| |].
    - change (2 ^ 0) with 1 in Hu. lia.
    - rewrite Z.pow_neg_r in Hu; lia. }
  destruct (Z.lt_trichotomy d d') as [Hlt|[Heq|Hgt]]; [|exact (eq_sym Heq)|].
  - assert (2 ^ d <= 2 ^ (d' - 1)) by (apply Z.pow_le_mono_r; lia). lia.
  - assert (2 ^ d' <= 2 ^ (d - 1)) by (apply Z.pow_le_mono_r; lia). lia.
Qed.

(** ** Shifting right *)

Lemma iter_pos_nat {A} (f : A -> A) p x :
  iter_pos f p x = Nat.iter (Pos.to_nat p) f x.
Proof.
  revert x. induction p as [p IH|p IH|]; intros x; cbn [iter_pos].
  - rewrite !IH, Pos2Nat.inj_xI.
    replace (S (2 * Pos.to_nat p)) with (Pos.to_nat p + S (Pos.to_nat p))%nat by lia.
    rewrite Nat.iter_add, Nat.iter_succ_r. reflexivity.
  - rewrite !IH, Pos2Nat.inj_xO.
    replace (2 * Pos.to_nat p)%nat with (Pos.to_nat p + Pos.to_nat p)%nat by lia.
    rewrite Nat.iter_add. reflexivity.
  - reflexivity.
Qed.

Lemma shr_1_spec m r s :
  0 <= m ->
  shr_1 {| shr_m := m; shr_r := r; shr_s := s |}
  = {| shr_m := m / 2; shr_r := Z.odd m; shr_s := r || s |}.
Proof.
  intros Hm. destruct m as [|[p|p|]|p]; try lia; cbn [shr_1].
  - reflexivity.
  - f_equal. rewrite Pos2Z.inj_xI. 
    replace (2 * Zpos p + 1) with (1 + Zpos p * 2) by lia.
    rewrite Z.div_add by lia. reflexivity.
  - f_equal. rewrite Pos2Z.inj_xO.
    replace (2 * Zpos p) with (0 + Zpos p * 2) by lia.
    rewrite Z.div_add by lia. reflexivity.
  - reflexivity.
Qed.

Lemma mod_pow2_succ m k :
  0 <= k ->
  m mod 2 ^ (k + 1) = m mod 2 ^ k + 2 ^ k * ((m / 2 ^ k) mod 2).
Proof.
  intros Hk. rewrite Z.pow_add_r by lia. change (2 ^ 1) with 2.
  apply Z.rem_mul_r; [|lia].
  apply Z.pow_nonzero; lia.
Qed.

Lemma shr_nat_spec k m :
  0 <= m ->
  Nat.iter (S k) shr_1 {| shr_m := m; shr_r := false; shr_s := false |}
  = {| shr_m := m / 2 ^ (Z.of_nat k + 1);
       shr_r := Z.odd (m / 2 ^ Z.of_nat k);
       shr_s := negb (m mod 2 ^ Z.of_nat k =? 0) |}.
Proof.
  intros Hm. induction k as [|k IH].
  - cbn [Nat.iter]. rewrite shr_1_spec by lia.
    change (2 ^ Z.of_nat 0) with 1. rewrite Z.div_1_r, Z.mod_1_r.
    reflexivity.
  - change (Nat.iter (S (S k)) shr_1 ?x) with (shr_1 (Nat.iter (S k) shr_1 x)).
    rewrite IH.
    assert (Hp : 0 < 2 ^ Z.of_nat k) by (apply Z.pow_pos_nonneg; lia).
    assert (Hp1 : 0 < 2 ^ (Z.of_nat k + 1)) by (apply Z.pow_pos_nonneg; lia).
    rewrite shr_1_spec by (apply Z.div_pos; lia).
    rewrite Nat2Z.inj_succ. unfold Z.succ.
    f_equal.
    + rewrite Z.div_div by lia.
      rewrite (Z.pow_add_r 2 (Z.of_nat k + 1) 1) by lia. reflexivity.
    + rewrite (mod_pow2_succ m (Z.of_nat k)) by lia.
      rewrite Zmod_odd.
      assert (Hr : 0 <= m mod 2 ^ Z.of_nat k) by (apply Z.mod_pos_bound; lia).
      destruct (Z.odd (m / 2 ^ Z.of_nat k)).
      * cbn [orb negb].
        destruct (Z.eqb_spec (m mod 2 ^ Z.of_nat k + 2 ^ Z.of_nat k * 1) 0); [lia|].
        reflexivity.
      * rewrite Z.mul_0_r, Z.add_0_r. reflexivity.
Qed.

Lemma shr_spec m e n :
  0 <= m -> 0 < n ->
  shr {| shr_m := m; shr_r := false; shr_s := false |} e n
  = ({| shr_m := m / 2 ^ n;
        shr_r := Z.odd (m / 2 ^ (n - 1));
        shr_s := negb (m mod 2 ^ (n - 1) =? 0) |}, e + n).
Proof.
  intros Hm Hn. destruct n as [|p|p]; try lia.
  cbn [shr]. rewrite iter_pos_nat.
  destruct (Pos.to_nat p) as [|k] eqn:E; [lia|].
  rewrite shr_nat_spec by lia.
  replace (Z.of_nat k + 1) with (Zpos p) by lia.
  replace (Z.of_nat k) with (Zpos p - 1) by lia.
  reflexivity.
Qed.

Lemma rne_shr_succ m k :
  0 <= m -> 0 <= k ->
  round_nearest_even (m / 2 ^ (k + 1))
    (loc_of_shr_record
       {| shr_m := m / 2 ^ (k + 1);
          shr_r := Z.odd (m / 2 ^ k);
          shr_s := negb (m mod 2 ^ k =? 0) |})
  = rne m (k + 1).
Proof.
  intros Hm Hk. unfold rne.
  rewrite (mod_pow2_succ m k) by lia.
  rewrite Zmod_odd.
  set (q := m / 2 ^ (k + 1)).
  rewrite (Z.pow_add_r 2 k 1) by lia. change (2 ^ 1) with 2.
  assert (Hp : 0 < 2 ^ k) by (apply Z.pow_pos_nonneg; lia).
  assert (Hr : 0 <= m mod 2 ^ k < 2 ^ k) by (apply Z.mod_pos_bound; lia).
  set (r := m mod 2 ^ k) in *. set (t := 2 ^ k) in *.
  destruct (Z.odd (m / t)); cbn [loc_of_shr_record].
  - destruct (Z.eqb_spec r 0) as [E|E]; cbn [negb round_nearest_even].
    + destruct (Z.ltb_spec (2 * (r + t * 1)) (t * 2)); [lia|].
      destruct (Z.eqb_spec (2 * (r + t * 1)) (t * 2)); [|lia].
      cbn [andb]. change (Z.pos 1) with 1. destruct (Z.even q); reflexivity.
    + destruct (Z.ltb_spec (2 * (r + t * 1)) (t * 2)); [lia|].
      destruct (Z.eqb_spec (2 * (r + t * 1)) (t * 2)); [lia|].
      reflexivity.
  - destruct (Z.ltb_spec (2 * (r + t * 0)) (t * 2)); [|lia].
    destruct (Z.eqb_spec r 0); reflexivity.
Qed.

Lemma rne_shr m n :
  0 <= m -> 0 < n ->
  round_nearest_even (m / 2 ^ n)
    (loc_of_shr_record
       {| shr_m := m / 2 ^ n;
          shr_r := Z.odd (m / 2 ^ (n - 1));
          shr_s := negb (m mod 2 ^ (n - 1) =? 0) |})
  = rne m n.
Proof.
  intros Hm Hn. pose proof (rne_shr_succ m (n - 1) Hm ltac:(lia)) as H.
  replace (n - 1 + 1) with n in H by lia. exact H.
Qed.

Lemma rne_0 m : rne m 0 = m.
Proof.
  unfold rne. change (2 ^ 0) with 1. rewrite Z.mod_1_r, Z.div_1_r. reflexivity.
Qed.

(** [rne m n] is within half a unit of [m / 2^n]. *)
Lemma rne_bounds m n :
  0 <= n ->
  2 * 2 ^ n * rne m n - 2 ^ n <= 2 * m <= 2 * 2 ^ n * rne m n + 2 ^ n.
Proof.
  intros Hn. unfold rne.
  assert (Hp : 0 < 2 ^ n) by (apply Z.pow_pos_nonneg; lia).
  pose proof (Z.div_mod m (2 ^ n) ltac:(lia)) as Hdm.
  pose proof (Z.mod_pos_bound m (2 ^ n) Hp) as Hr.
  set (q := m / 2 ^ n) in *. set (r := m mod 2 ^ n) in *. set (t := 2 ^ n) in *.
  destruct (Z.ltb_spec (2 * r) t); [nia|].
  destruct (Z.eqb_spec (2 * r) t); cbn [andb]; [destruct (Z.even q)|]; nia.
Qed.

Lemma rne_range m n d :
  0 <= n -> 2 ^ (d - 1) <= m < 2 ^ d -> d = n + 24 ->
  2 ^ 23 <= rne m n <= 2 ^ 24.
Proof.
  intros Hn [Hl Hu] ->.
  replace (n + 24 - 1) with (23 + n) in Hl by lia.
  replace (n + 24) with (24 + n) in Hu by lia.
  rewrite Z.pow_add_r in Hl, Hu by lia.
  assert (Hp : 0 < 2 ^ n) by (apply Z.pow_pos_nonneg; lia).
  unfold rne.
  pose proof (Z.div_mod m (2 ^ n) ltac:(lia)) as Hdm.
  pose proof (Z.mod_pos_bound m (2 ^ n) Hp) as Hr.
  set (q := m / 2 ^ n) in *. set (r := m mod 2 ^ n) in *. set (t := 2 ^ n) in *.
  assert (2 ^ 23 <= q < 2 ^ 24) by nia.
  destruct (Z.ltb_spec (2 * r) t); [lia|].
  destruct ((2 * r =? t) && Z.even q); lia.
Qed.

(** ** Rounding to binary32 *)

Lemma fexp_normal x : -149 <= x - 24 -> fexp 24 128 x = x - 24.
Proof. intros H. unfold fexp, emin. lia. Qed.

Lemma Zdigits2_pos_of m d :
  2 ^ (d - 1) <= m < 2 ^ d -> 0 < m -> Zdigits2 m = d.
Proof.
  intros Hb Hm. destruct m as [|p|p]; try lia.
  cbn [Zdigits2]. apply digits2_pos_unique. exact Hb.
Qed.

Lemma round_stage2 sx m e :
  2 ^ 23 <= m < 2 ^ 24 -> -149 <= e <= 104 ->
  (let '(mrs'', e'') := shr_fexp 24 128 m e loc_Exact in
   match shr_m mrs'' with
   | Z0 => S754_zero sx
   | Zpos m => if e'' <=? 128 - 24 then S754_finite sx m e'' else S754_infinity sx
   | Zneg _ => S754_nan
   end)
  = S754_finite sx (Z.to_pos m) e.
Proof.
  intros Hm He.
  assert (Hd : Zdigits2 m = 24).
  { apply Zdigits2_pos_of; [exact Hm|lia]. }
  unfold shr_fexp. rewrite Hd, fexp_normal by lia.
  replace (24 + e - 24 - e) with 0 by lia.
  cbn [shr shr_record_of_loc shr_m].
  destruct m as [|p|p]; try lia.
  destruct (Z.leb_spec e (128 - 24)); [reflexivity|lia].
Qed.

Lemma binary_round_aux_normal sx p e n :
  n = Zpos (digits2_pos p) - 24 ->
  0 <= n -> -149 <= e + n -> e + n < 104 ->
  binary_round_aux 24 128 sx (Zpos p) e loc_Exact
  = if rne (Zpos p) n =? 2 ^ 24
    then S754_finite sx (2 ^ 23)%positive (e + n + 1)
    else S754_finite sx (Z.to_pos (rne (Zpos p) n)) (e + n).
Proof.
  intros Hn Hn0 Hlo Hhi.
  pose proof (digits2_pos_bounds p) as Hb.
  pose proof (rne_range (Zpos p) n _ Hn0 Hb ltac:(lia)) as Hr.
  unfold binary_round_aux. unfold shr_fexp at 1.
  cbn [Zdigits2 shr_record_of_loc].
  rewrite fexp_normal by lia.
  replace (Zpos (digits2_pos p) + e - 24 - e) with n by lia.
  destruct (Z.eq_dec n 0) as [->|Hnz].
  { rewrite rne_0 in *. replace (Zpos (digits2_pos p)) with 24 in Hb by lia.
    destruct (Z.eqb_spec (Zpos p) (2 ^ 24)); [lia|].
    rewrite Z.add_0_r.
    cbn [shr shr_m loc_of_shr_record round_nearest_even].
    apply (round_stage2 sx (Zpos p) e); lia. }
  rewrite shr_spec by lia. cbn [shr_m].
  rewrite rne_shr by lia.
  destruct (Z.eqb_spec (rne (Zpos p) n) (2 ^ 24)) as [E|E].
  - rewrite E. unfold shr_fexp.
    change (Zdigits2 (2 ^ 24)) with 25.
    rewrite fexp_normal by lia.
    replace (25 + (e + n) - 24 - (e + n)) with 1 by lia.
    cbn [shr_record_of_loc]. rewrite shr_spec by lia. cbn [shr_m].
    change (2 ^ 24 / 2 ^ 1) with (Zpos (2 ^ 23)).
    destruct (Z.leb_spec (e + n + 1) (128 - 24)); [reflexivity|lia].
  - apply round_stage2; lia.
Qed.

(** ** Values *)

Lemma Qpow2_pos e : (0 < 2 ^ e)%Q.
Proof. apply Qpower_0_lt. reflexivity. Qed.

Lemma to_Q_finite s m e :
  (IEEE.to_Q (S754_finite s m e) == Qval (cond_Zopp s (Zpos m)) e)%Q.
Proof.
  unfold Qval. cbn [IEEE.to_Q]. destruct e as [|p|p].
  - rewrite Z.mul_1_r. cbn [Qpower]. ring.
  - rewrite <- (Zpower_Qpower 2 (Zpos p)) by lia.
    rewrite <- inject_Z_mult.
    destruct s; cbn [cond_Zopp]; f_equiv; lia.
  - rewrite Qmake_Qdiv. rewrite Pos2Z.inj_pow.
    rewrite (Zpower_Qpower 2 (Zpos p)) by lia.
    change (Zneg p) with (- Zpos p). rewrite Qpower_opp. reflexivity.
Qed.

Lemma Qval_shift z e k : 0 <= k -> (Qval (z * 2 ^ k) e == Qval z (e + k))%Q.
Proof.
  intros Hk. unfold Qval.
  rewrite inject_Z_mult, (Zpower_Qpower 2 k) by lia.
  rewrite Qpower_plus by discriminate.
  change (inject_Z 2) with 2%Q. ring.
Qed.

Lemma Qval_mult a b e f : (Qval a e * Qval b f == Qval (a * b) (e + f))%Q.
Proof.
  unfold Qval. rewrite inject_Z_mult, Qpower_plus by discriminate. ring.
Qed.

Lemma Qval_0 z : (Qval z 0 == inject_Z z)%Q.
Proof. unfold Qval. cbn [Qpower]. ring. Qed.

Lemma Qval_le a b e : a <= b -> (Qval a e <= Qval b e)%Q.
Proof.
  intros H. unfold Qval. apply Qmult_le_compat_r.
  - rewrite <- Zle_Qle. exact H.
  - apply Qlt_le_weak, Qpow2_pos.
Qed.

Lemma Qval_lt a b e : a < b -> (Qval a e < Qval b e)%Q.
Proof.
  intros H. unfold Qval. apply Qmult_lt_compat_r.
  - apply Qpow2_pos.
  - rewrite <- Zlt_Qlt. exact H.
Qed.

(** The relative error of a rounding, carried from the mantissas to the
    values. *)
Lemma Qval_rel_err V p e :
  2 ^ 24 * Z.abs (V - p) <= V ->
  (Qabs (Qval V e - Qval p e) <= Qval V e * (1 # 16777216))%Q.
Proof.
  intros H. unfold Qval.
  set (t := (2 ^ e)%Q). assert (Ht : (0 < t)%Q) by apply Qpow2_pos.
  assert (H1 : (inject_Z V - inject_Z p <= inject_Z V * (1 # 16777216))%Q).
  { assert (HZ : 16777216 * V <= V + 16777216 * p) by lia.
    rewrite Zle_Qle in HZ. rewrite inject_Z_plus, !inject_Z_mult in HZ.
    change (inject_Z 16777216) with (16777216 # 1)%Q in HZ. lra. }
  assert (H2 : (inject_Z p - inject_Z V <= inject_Z V * (1 # 16777216))%Q).
  { assert (HZ : 16777216 * p <= V + 16777216 * V) by lia.
    rewrite Zle_Qle in HZ. rewrite inject_Z_plus, !inject_Z_mult in HZ.
    change (inject_Z 16777216) with (16777216 # 1)%Q in HZ. lra. }
  apply Qabs_Qle_condition. split.
  - assert (HH : ((inject_Z p - inject_Z V) * t
                  <= inject_Z V * (1 # 16777216) * t)%Q)
      by (apply Qmult_le_compat_r; [exact H2|lra]).
    lra.
  - assert (HH : ((inject_Z V - inject_Z p) * t
                  <= inject_Z V * (1 # 16777216) * t)%Q)
      by (apply Qmult_le_compat_r; [exact H1|lra]).
    lra.
Qed.

(** A rounding in the normal range: the result is a normal number whose
    value is that of [rne], within a relative error of [2^-24]. *)
Lemma round_normal sx p e n :
  n = Zpos (digits2_pos p) - 24 ->
  0 <= n -> -149 <= e + n -> e + n < 104 ->
  exists m' e',
    binary_round_aux 24 128 sx (Zpos p) e loc_Exact = S754_finite sx m' e'
    /\ 2 ^ 23 <= Zpos m' < 2 ^ 24
    /\ e + n <= e' <= e + n + 1
    /\ Zpos m' * 2 ^ (e' - e) = rne (Zpos p) n * 2 ^ n
    /\ 2 ^ 24 * Z.abs (rne (Zpos p) n * 2 ^ n - Zpos p) <= rne (Zpos p) n * 2 ^ n.
Proof.
  intros Hn Hn0 Hlo Hhi.
  rewrite (binary_round_aux_normal sx p e n Hn Hn0 Hlo Hhi).
  pose proof (digits2_pos_bounds p) as Hb.
  pose proof (rne_range (Zpos p) n _ Hn0 Hb ltac:(lia)) as Hr.
  pose proof (rne_bounds (Zpos p) n Hn0) as Hrb.
  assert (Hp : 0 < 2 ^ n) by (apply Z.pow_pos_nonneg; lia).
  assert (Herr : 2 ^ 24 * Z.abs (rne (Zpos p) n * 2 ^ n - Zpos p)
                 <= rne (Zpos p) n * 2 ^ n).
  { set (r := rne (Zpos p) n) in *. set (t := 2 ^ n) in *.
    change (2 ^ 24) with 16777216 in *. change (2 ^ 23) with 8388608 in *.
    assert (2 * Z.abs (r * t - Zpos p) <= t) by lia. nia. }
  destruct (Z.eqb_spec (rne (Zpos p) n) (2 ^ 24)) as [E|E].
  - exists (2 ^ 23)%positive, (e + n + 1).
    split; [reflexivity|]. split; [split; [reflexivity|reflexivity]|].
    split; [lia|]. split; [|exact Herr].
    rewrite E. replace (e + n + 1 - e) with (1 + n) by lia.
    rewrite Z.pow_add_r by lia.
    change (2 ^ 1) with 2. change (Z.pos (2 ^ 23)) with 8388608.
    change (2 ^ 24) with 16777216. lia.
  - exists (Z.to_pos (rne (Zpos p) n)), (e + n).
    split; [reflexivity|]. rewrite Z2Pos.id by lia.
    split; [lia|]. split; [lia|]. split; [|exact Herr].
    replace (e + n - e) with n by lia. reflexivity.
Qed.

Lemma pos_iter_xO p k : Zpos (Pos.iter xO p k) = Zpos p * 2 ^ Zpos k.
Proof.
  induction k as [|k IH] using Pos.peano_ind.
  - cbn [Pos.iter]. lia.
  - rewrite Pos.iter_succ, Pos2Z.inj_xO, IH, Pos2Z.inj_succ.
    rewrite Z.pow_succ_r by lia. lia.
Qed.

Lemma binary_round_aux_fits sx p e :
  2 ^ 23 <= Zpos p < 2 ^ 24 -> -149 <= e < 104 ->
  binary_round_aux 24 128 sx (Zpos p) e loc_Exact = S754_finite sx p e.
Proof.
  intros Hp He.
  assert (Hd : Zpos (digits2_pos p) = 24) by (apply digits2_pos_unique; exact Hp).
  rewrite (binary_round_aux_normal sx p e 0) by lia.
  rewrite rne_0. destruct (Z.eqb_spec (Zpos p) (2 ^ 24)); [lia|].
  rewrite Z.add_0_r. reflexivity.
Qed.

(** [(float)W] for a positive [int]. *)
Lemma f32_of_int_pos W :
  0 < W < 2 ^ 31 ->
  exists m e,
    f32_of_int W = S754_finite false m e
    /\ 2 ^ 23 <= Zpos m < 2 ^ 24
    /\ -23 <= e <= 8
    /\ (W < 2 ^ 24 -> (Qval (Zpos m) e == inject_Z W)%Q)
    /\ (Qabs (Qval (Zpos m) e - inject_Z W) <= Qval (Zpos m) e * (1 # 16777216))%Q.
Proof.
  intros HW. destruct W as [|p|p]; try lia.
  unfold f32_of_int, IEEE.of_Z. cbn [binary_normalize]. unfold binary_round.
  pose proof (digits2_pos_bounds p) as Hb.
  set (d := Zpos (digits2_pos p)) in *.
  assert (Hd : 1 <= d <= 31).
  { split; [unfold d; lia|].
    destruct (Z.le_gt_cases d 31) as [|Hgt]; [assumption|].
    assert (2 ^ 31 <= 2 ^ (d - 1)) by (apply Z.pow_le_mono_r; lia). lia. }
  rewrite Z.add_0_r, fexp_normal by lia.
  unfold shl_align. rewrite Z.sub_0_r.
  destruct (Z.lt_ge_cases d 24) as [Hlt|Hge].
  - (* shifted left: the conversion is exact *)
    destruct (d - 24) as [|k|k] eqn:Ek; try lia.
    assert (Hk : Zpos k = 24 - d) by lia.
    assert (Hmz : Zpos (Pos.iter xO p k) = Zpos p * 2 ^ (24 - d)).
    { rewrite pos_iter_xO, Hk. reflexivity. }
    assert (Hrange : 2 ^ 23 <= Zpos (Pos.iter xO p k) < 2 ^ 24).
    { assert (H23 : 2 ^ 23 = 2 ^ (d - 1) * 2 ^ (24 - d))
        by (rewrite <- Z.pow_add_r by lia; f_equal; lia).
      assert (H24 : 2 ^ 24 = 2 ^ d * 2 ^ (24 - d))
        by (rewrite <- Z.pow_add_r by lia; f_equal; lia).
      rewrite Hmz, H23, H24.
      assert (0 < 2 ^ (24 - d)) by (apply Z.pow_pos_nonneg; lia).
      clear - Hb H. nia. }
    rewrite binary_round_aux_fits by (try exact Hrange; lia).
    exists (Pos.iter xO p k), (Z.neg k).
    split; [reflexivity|]. split; [exact Hrange|]. split; [lia|].
    assert (Hex : (Qval (Zpos (Pos.iter xO p k)) (Z.neg k) == inject_Z (Zpos p))%Q).
    { rewrite Hmz, Qval_shift by lia.
      replace (Z.neg k + (24 - d)) with 0 by lia. apply Qval_0. }
    split; [intros _; exact Hex|].
    rewrite Hex.
    assert (0 <= inject_Z (Zpos p))%Q by (rewrite <- (Zle_Qle 0); lia).
    apply Qabs_Qle_condition. split; lra.
  - (* rounded to 24 bits *)
    assert (E0 : exists q, d - 24 = q /\ 0 <= q <= 7) by (exists (d - 24); lia).
    destruct E0 as (n & En & Hn7).
    assert (Hsh : (match d - 24 with
                   | Z.neg d0 => (Pos.iter xO p d0, d - 24)
                   | _ => (p, 0)
                   end) = (p, 0)).
    { destruct (d - 24); try lia; reflexivity. }
    rewrite Hsh.
    destruct (round_normal false p 0 n) as (m' & e' & -> & Hm' & He' & HV & Herr);
      try lia.
    exists m', e'. split; [reflexivity|]. split; [exact Hm'|]. split; [lia|].
    assert (Hval : (Qval (Zpos m') e' == Qval (rne (Zpos p) n * 2 ^ n) 0)%Q).
    { rewrite <- HV, Qval_shift by lia. rewrite Z.sub_0_r, Z.add_0_l. reflexivity. }
    split.
    + intros Hsmall. assert (d = 24).
      { destruct (Z.eq_dec d 24); [assumption|].
        assert (2 ^ 24 <= 2 ^ (d - 1)) by (apply Z.pow_le_mono_r; lia). lia. }
      assert (Hn0 : n = 0) by lia.
      rewrite Hval, Hn0, rne_0, Z.mul_1_r. apply Qval_0.
    + rewrite Hval. rewrite <- (Qval_0 (Zpos p)).
      apply Qval_rel_err. exact Herr.
Qed.

(** The product of two positive normal numbers, away from the ends of the
    exponent range. *)
Lemma f32_mul_normal mx ex my ey :
  2 ^ 23 <= Zpos mx < 2 ^ 24 -> 2 ^ 23 <= Zpos my < 2 ^ 24 ->
  -172 <= ex + ey -> ex + ey < 80 ->
  exists m' e',
    f32_mul (S754_finite false mx ex) (S754_finite false my ey)
    = S754_finite false m' e'
    /\ 2 ^ 23 <= Zpos m' < 2 ^ 24
    /\ ex + ey + 23 <= e' <= ex + ey + 25
    /\ (Qabs (Qval (Zpos m') e' - Qval (Zpos mx) ex * Qval (Zpos my) ey)
        <= Qval (Zpos m') e' * (1 # 16777216))%Q.
Proof.
  intros Hx Hy Hlo Hhi.
  unfold f32_mul, SFmul. cbn [xorb].
  pose proof (digits2_pos_bounds (mx * my)) as Hb.
  set (d := Zpos (digits2_pos (mx * my))) in *.
  rewrite Pos2Z.inj_mul in Hb.
  assert (Hprod : 2 ^ 46 <= Zpos mx * Zpos my < 2 ^ 48).
  { change (2 ^ 46) with (2 ^ 23 * 2 ^ 23). change (2 ^ 48) with (2 ^ 24 * 2 ^ 24).
    nia. }
  assert (Hd : 47 <= d <= 48).
  { assert (0 < d) by (unfold d; lia). split.
    - destruct (Z.le_gt_cases 47 d) as [|Hlt]; [assumption|].
      assert (2 ^ d <= 2 ^ 46) by (apply Z.pow_le_mono_r; lia). lia.
    - destruct (Z.le_gt_cases d 48) as [|Hgt]; [assumption|].
      assert (2 ^ 48 <= 2 ^ (d - 1)) by (apply Z.pow_le_mono_r; lia). lia. }
  destruct (round_normal false (mx * my) (ex + ey) (d - 24))
    as (m' & e' & -> & Hm' & He' & HV & Herr); try (unfold d; lia); try lia.
  exists m', e'. split; [reflexivity|]. split; [exact Hm'|]. split; [lia|].
  rewrite Qval_mult, Pos2Z.inj_mul in *.
  assert (Hval : (Qval (Zpos m') e'
                  == Qval (rne (Zpos mx * Zpos my) (d - 24) * 2 ^ (d - 24))
                          (ex + ey))%Q).
  { rewrite <- HV, Qval_shift by lia. f_equiv. lia. }
  rewrite Hval. apply Qval_rel_err. exact Herr.
Qed.

(** ** Conversion to [int] *)

Lemma to_int_Qfloor m e :
  IEEE.to_int (S754_finite false m e)
  = let z := Qfloor (Qval (Zpos m) e) in
    if (- 2 ^ 31 <=? z) && (z <? 2 ^ 31) then Some z else None.
Proof.
  cbn [IEEE.to_int cond_Zopp].
  assert (E : fst (IEEE.int_part m e) = Qfloor (Qval (Zpos m) e)).
  { rewrite <- (to_Q_finite false m e). cbn [IEEE.to_Q cond_Zopp].
    destruct e as [|p|p]; cbn [IEEE.int_part fst].
    - rewrite Z.shiftl_0_r, Z.mul_1_r. symmetry. apply Qfloor_Z.
    - rewrite Z.shiftl_mul_pow2 by lia. symmetry. apply Qfloor_Z.
    - rewrite Z.shiftr_div_pow2 by lia. cbn [Qfloor].
      rewrite Pos2Z.inj_pow. reflexivity. }
  rewrite E. reflexivity.
Qed.

(** ** The main pane's width under zoom *)

Lemma Qval_0_65 : (Qval 10905190 (-24) == 10905190 # 16777216)%Q.
Proof. reflexivity. Qed.

Lemma zoom_main_width_value W :
  0 < W < 2 ^ 31 ->
  exists a v1 v2 : Q,
    zoom_main_width W = Some (Qfloor v2)
    /\ a = inject_Z (Qfloor v2)
    /\ (a <= v2 < a + 1)%Q
    /\ (W < 2 ^ 24 -> (v1 == inject_Z W)%Q)
    /\ (v1 - inject_Z W <= v1 * (1 # 16777216))%Q
    /\ (inject_Z W - v1 <= v1 * (1 # 16777216))%Q
    /\ (v2 - v1 * (10905190 # 16777216) <= v2 * (1 # 16777216))%Q
    /\ (v1 * (10905190 # 16777216) - v2 <= v2 * (1 # 16777216))%Q.
Proof.
  intros HW.
  destruct (f32_of_int_pos W HW) as (m1 & e1 & E1 & Hm1 & He1 & Hex & Herr1).
  destruct (f32_mul_normal m1 e1 10905190 (-24) Hm1) as (m2 & e2 & E2 & Hm2 & He2 & Herr2);
    [lia|lia|lia|].
  set (v1 := Qval (Zpos m1) e1) in *. set (v2 := Qval (Zpos m2) e2) in *.
  rewrite Qval_0_65 in Herr2.
  apply Qabs_Qle_condition in Herr1, Herr2.
  assert (HWq : (0 < inject_Z W < 2147483648)%Q).
  { split; [rewrite <- (Zlt_Qlt 0); lia|].
    change 2147483648%Q with (inject_Z (2 ^ 31)). rewrite <- Zlt_Qlt. lia. }
  pose proof (Qfloor_le v2) as Hfl. pose proof (Qlt_floor v2) as Hfu.
  rewrite inject_Z_plus in Hfu. change (inject_Z 1) with 1%Q in Hfu.
  assert (Hv2 : (0 <= v2 < 2147483648)%Q) by (split; lra).
  assert (Ha : 0 <= Qfloor v2 < 2 ^ 31).
  { split.
    - change 0 with (Qfloor 0). apply Qfloor_resp_le. lra.
    - rewrite Zlt_Qlt. change (inject_Z (2 ^ 31)) with 2147483648%Q. lra. }
  exists (inject_Z (Qfloor v2)), v1, v2.
  split.
  { unfold zoom_main_width. rewrite lit_0_65f, E1, E2, to_int_Qfloor.
    fold v2. cbv zeta.
    destruct (Z.leb_spec (- 2 ^ 31) (Qfloor v2)); [|lia].
    destruct (Z.ltb_spec (Qfloor v2) (2 ^ 31)); [|lia]. reflexivity. }
  split; [reflexivity|]. split; [split; lra|].
  split; [exact Hex|].
  repeat split; lra.
Qed.

Lemma zoom_main_width_bounds W :
  0 <= W < 2 ^ 31 ->
  exists a,
    zoom_main_width W = Some a
    /\ 0 <= a <= W
    /\ 13 * W - 20 - W / 2 ^ 18 <= 20 * a <= 13 * W + W / 2 ^ 19
    /\ (W < 2 ^ 21 -> 13 * W / 20 - 1 <= a <= 13 * W / 20)
    /\ (W < 2 ^ 19 -> W mod 20 <> 0 -> a = 13 * W / 20).
Proof.
  intros HW. destruct (Z.eq_dec W 0) as [->|HW0].
  { exists 0. split; [reflexivity|].
    repeat split; intros; try reflexivity; try discriminate; lia. }
  destruct (zoom_main_width_value W ltac:(lia))
    as (A & v1 & v2 & E & HA & [Hlo Hhi] & Hex & H1a & H1b & H2a & H2b).
  set (a := Qfloor v2) in *. exists a. split; [exact E|].
  assert (HWq : (0 < inject_Z W < 2147483648)%Q).
  { split; [rewrite <- (Zlt_Qlt 0); lia|].
    change 2147483648%Q with (inject_Z (2 ^ 31)). rewrite <- Zlt_Qlt. lia. }
  set (g := W / 2 ^ 18). set (h := W / 2 ^ 19). set (k := 13 * W / 20).
  assert (Hg : 262144 * g <= W /\ W < 262144 * g + 262144 /\ 0 <= g).
  { unfold g. change (2 ^ 18) with 262144.
    pose proof (Z.div_mod W 262144 ltac:(lia)).
    pose proof (Z.mod_pos_bound W 262144 ltac:(lia)).
    split; [lia|]. split; [lia|]. apply Z.div_pos; lia. }
  assert (Hh : 524288 * h <= W /\ W < 524288 * h + 524288 /\ 0 <= h).
  { unfold h. change (2 ^ 19) with 524288.
    pose proof (Z.div_mod W 524288 ltac:(lia)).
    pose proof (Z.mod_pos_bound W 524288 ltac:(lia)).
    split; [lia|]. split; [lia|]. apply Z.div_pos; lia. }
  assert (Hk : 20 * k <= 13 * W /\ 13 * W <= 20 * k + 19).
  { unfold k. pose proof (Z.div_mod (13 * W) 20 ltac:(lia)).
    pose proof (Z.mod_pos_bound (13 * W) 20 ltac:(lia)). lia. }
  assert (Hk3 : W mod 20 <> 0 -> 20 * k + 1 <= 13 * W).
  { unfold k. clear. intros Hmod. Z.div_mod_to_equations. lia. }
  destruct Hg as (Hg1 & Hg2 & Hg3). destruct Hh as (Hh1 & Hh2 & Hh3).
  destruct Hk as (Hk1 & Hk2).
  clearbody g h k a.
  to_Q Hg1. to_Q Hg2. to_Q Hg3. to_Q Hh1. to_Q Hh2. to_Q Hh3.
  to_Q Hk1. to_Q Hk2.
  change (inject_Z 0) with 0%Q in *.
  subst A.
  assert (B1 : 0 <= a <= W).
  { split.
    - assert (H : 0 < a + 1); [|lia]. rewrite Zlt_Qlt, inject_Z_plus.
      change (inject_Z 1) with 1%Q. change (inject_Z 0) with 0%Q. lra.
    - rewrite Zle_Qle. lra. }
  split; [exact B1|].
  split; [split|split].
  - assert (H : 13 * W < g + 1 + 20 + 20 * a); [|lia].
    rewrite Zlt_Qlt. rewrite ?inject_Z_plus, ?inject_Z_mult.
    change (inject_Z 1) with 1%Q. change (inject_Z 13) with 13%Q.
    change (inject_Z 20) with 20%Q. lra.
  - assert (H : 20 * a < h + 1 + 13 * W); [|lia].
    rewrite Zlt_Qlt. rewrite ?inject_Z_plus, ?inject_Z_mult.
    change (inject_Z 1) with 1%Q. change (inject_Z 13) with 13%Q.
    change (inject_Z 20) with 20%Q. lra.
  - intros Hsmall. specialize (Hex ltac:(lia)).
    assert (Hs : W < 2097152) by exact Hsmall. to_Q Hs.
    split.
    + assert (H : k < a + 2); [|lia].
      rewrite Zlt_Qlt. rewrite ?inject_Z_plus.
      change (inject_Z 2) with 2%Q. lra.
    + assert (H : a < k + 1); [|lia].
      rewrite Zlt_Qlt. rewrite ?inject_Z_plus.
      change (inject_Z 1) with 1%Q. lra.
  - intros Hsmall Hmod. specialize (Hex ltac:(lia)).
    assert (Hs : W < 524288) by exact Hsmall. to_Q Hs.
    specialize (Hk3 Hmod). to_Q Hk3.
    assert (H : k < a + 1).
    { rewrite Zlt_Qlt. rewrite ?inject_Z_plus.
      change (inject_Z 1) with 1%Q. lra. }
    assert (H' : a < k + 1); [|lia].
    rewrite Zlt_Qlt. rewrite ?inject_Z_plus.
    change (inject_Z 1) with 1%Q. lra.
Qed.

(** ** Exact roundings, and the integers of [ceilf] and [floorf] *)

Lemma binary_round_aux_exact sx q e n :
  2 ^ 23 <= Zpos q < 2 ^ 24 -> 0 <= n -> -149 <= e + n <= 104 ->
  binary_round_aux 24 128 sx (Zpos q * 2 ^ n) e loc_Exact
  = S754_finite sx q (e + n).
Proof.
  intros Hq Hn He.
  assert (Hp : 0 < 2 ^ n) by (apply Z.pow_pos_nonneg; lia).
  assert (Hd : Zdigits2 (Zpos q * 2 ^ n) = 24 + n).
  { apply Zdigits2_pos_of; [|nia].
    replace (24 + n - 1) with (23 + n) by lia.
    rewrite !Z.pow_add_r by lia. nia. }
  unfold binary_round_aux. unfold shr_fexp at 1.
  rewrite Hd, fexp_normal by lia.
  replace (24 + n + e - 24 - e) with n by lia.
  cbn [shr_record_of_loc].
  destruct (Z.eq_dec n 0) as [->|Hnz].
  { change (2 ^ 0) with 1. rewrite Z.mul_1_r, Z.add_0_r.
    cbn [shr shr_m loc_of_shr_record round_nearest_even].
    pose proof (round_stage2 sx (Zpos q) e Hq ltac:(lia)) as H.
    cbn [Z.to_pos] in H. exact H. }
  rewrite shr_spec by lia. cbn [shr_m].
  rewrite Z.div_mul by lia.
  assert (E1 : Z.odd (Zpos q * 2 ^ n / 2 ^ (n - 1)) = false).
  { replace (2 ^ n) with (2 * 2 ^ (n - 1))
      by (rewrite <- Z.pow_succ_r by lia; f_equal; lia).
    rewrite Z.mul_assoc, Z.div_mul
      by (apply Z.pow_nonzero; lia).
    rewrite Z.odd_mul. cbn. apply andb_false_r. }
  assert (E2 : (Zpos q * 2 ^ n) mod 2 ^ (n - 1) = 0).
  { replace (2 ^ n) with (2 * 2 ^ (n - 1))
      by (rewrite <- Z.pow_succ_r by lia; f_equal; lia).
    rewrite Z.mul_assoc. apply Z_mod_mult. }
  rewrite E1, E2. cbn [Z.eqb negb loc_of_shr_record round_nearest_even].
  pose proof (round_stage2 sx (Zpos q) (e + n) Hq ltac:(lia)) as H.
  cbn [Z.to_pos] in H. exact H.
Qed.

(** What [to_int] returns on a finite number. *)
Lemma to_int_finite s m e :
  IEEE.to_int (S754_finite s m e)
  = let z := cond_Zopp s (fst (IEEE.int_part m e)) in
    if (- 2 ^ 31 <=? z) && (z <? 2 ^ 31) then Some z else None.
Proof. reflexivity. Qed.

Lemma int_part_spec m e :
  IEEE.int_part m e
  = if e <? 0 then (Zpos m / 2 ^ (- e), negb (Zpos m mod 2 ^ (- e) =? 0))
    else (Zpos m * 2 ^ e, false).
Proof.
  destruct e as [|p|p]; cbn [IEEE.int_part Z.ltb Z.compare].
  - rewrite Z.shiftl_0_r. change (2 ^ 0) with 1. rewrite Z.mul_1_r. reflexivity.
  - rewrite Z.shiftl_mul_pow2 by lia. reflexivity.
  - rewrite Z.shiftr_div_pow2, Z.land_ones by lia. reflexivity.
Qed.

Lemma binary_round_int sx P :
  fits24 (Zpos P) ->
  IEEE.to_int (binary_round 24 128 sx P 0)
  = let z := cond_Zopp sx (Zpos P) in
    if (- 2 ^ 31 <=? z) && (z <? 2 ^ 31) then Some z else None.
Proof.
  intros (k & j & Hj & Hk & HP).
  pose proof (digits2_pos_bounds P) as Hb.
  set (d := Zpos (digits2_pos P)) in *.
  assert (Hd1 : 1 <= d) by (unfold d; lia).
  assert (Hpj : 0 < 2 ^ j) by (apply Z.pow_pos_nonneg; lia).
  assert (Hd : d <= 24 + j).
  { destruct (Z.le_gt_cases d (24 + j)) as [|Hgt]; [assumption|].
    assert (2 ^ (24 + j) <= 2 ^ (d - 1)) by (apply Z.pow_le_mono_r; lia).
    rewrite Z.pow_add_r in H by lia. nia. }
  unfold binary_round. fold d. rewrite Z.add_0_r, fexp_normal by lia.
  unfold shl_align. rewrite Z.sub_0_r.
  destruct (Z.lt_ge_cases d 24) as [Hlt|Hge].
  - destruct (d - 24) as [|t|t] eqn:Et; try lia.
    assert (Ht : Zpos t = 24 - d) by lia.
    assert (Hmz : Zpos (Pos.iter xO P t) = Zpos P * 2 ^ (24 - d)).
    { rewrite pos_iter_xO, Ht. reflexivity. }
    assert (Hrange : 2 ^ 23 <= Zpos (Pos.iter xO P t) < 2 ^ 24).
    { assert (H23 : 2 ^ 23 = 2 ^ (d - 1) * 2 ^ (24 - d))
        by (rewrite <- Z.pow_add_r by lia; f_equal; lia).
      assert (H24 : 2 ^ 24 = 2 ^ d * 2 ^ (24 - d))
        by (rewrite <- Z.pow_add_r by lia; f_equal; lia).
      rewrite Hmz, H23, H24.
      assert (0 < 2 ^ (24 - d)) by (apply Z.pow_pos_nonneg; lia).
      clear - Hb H. nia. }
    rewrite binary_round_aux_fits by (try exact Hrange; lia).
    rewrite to_int_finite, int_part_spec.
    destruct (Z.ltb_spec (Z.neg t) 0); [|lia]. cbn [fst].
    replace (- Z.neg t) with (24 - d) by lia.
    rewrite Hmz, Z.div_mul by (apply Z.pow_nonzero; lia). reflexivity.
  - assert (Hn : 0 <= d - 24 <= j) by lia.
    assert (Hsh : (match d - 24 with
                   | Z.neg d0 => (Pos.iter xO P d0, d - 24)
                   | _ => (P, 0)
                   end) = (P, 0)).
    { destruct (d - 24); try lia; reflexivity. }
    rewrite Hsh.
    set (n := d - 24) in *.
    assert (Hpn : 0 < 2 ^ n) by (apply Z.pow_pos_nonneg; lia).
    assert (Hdiv : Zpos P = (Zpos P / 2 ^ n) * 2 ^ n).
    { rewrite HP. replace j with ((j - n) + n) by lia.
      rewrite Z.pow_add_r, Z.mul_assoc, Z.div_mul by lia. reflexivity. }
    assert (Hq : 2 ^ 23 <= Zpos P / 2 ^ n < 2 ^ 24).
    { assert (H23 : 2 ^ (d - 1) = 2 ^ 23 * 2 ^ n)
        by (rewrite <- Z.pow_add_r by lia; f_equal; lia).
      assert (H24 : 2 ^ d = 2 ^ 24 * 2 ^ n)
        by (rewrite <- Z.pow_add_r by lia; f_equal; lia).
      rewrite H23, H24 in Hb. split.
      - apply Z.div_le_lower_bound; lia.
      - apply Z.div_lt_upper_bound; lia. }
    destruct (Zpos P / 2 ^ n) as [|q|q] eqn:Eq; try lia.
    rewrite Hdiv, binary_round_aux_exact by lia.
    rewrite to_int_finite, int_part_spec. rewrite Z.add_0_l.
    destruct (Z.ltb_spec n 0); [lia|]. reflexivity.
Qed.

Lemma fexp_ge x : x - 24 <= fexp 24 128 x.
Proof. unfold fexp, emin. lia. Qed.

Lemma round_nearest_even_nonneg m l : 0 <= m -> 0 <= round_nearest_even m l.
Proof.
  intros Hm. destruct l as [|[]]; cbn [round_nearest_even]; try lia.
  destruct (Z.even m); lia.
Qed.

Lemma Zdigits2_bound m : 0 <= m -> m < 2 ^ Zdigits2 m.
Proof.
  intros Hm. destruct m as [|p|p]; try lia.
  - reflexivity.
  - cbn [Zdigits2]. apply digits2_pos_bounds.
Qed.

Lemma shr_m_nonneg m e n :
  0 <= m -> 0 <= shr_m (fst (shr {| shr_m := m; shr_r := false; shr_s := false |} e n)).
Proof.
  intros Hm. destruct (Z.lt_ge_cases 0 n) as [Hn|Hn].
  - rewrite shr_spec by lia. cbn [fst shr_m]. apply Z.div_pos; [lia|].
    apply Z.pow_pos_nonneg; lia.
  - destruct n as [|p|p]; try lia; cbn [shr fst shr_m]; exact Hm.
Qed.

Lemma binary_round_aux_bounded sx p e :
  bounded32 (binary_round_aux 24 128 sx (Zpos p) e loc_Exact).
Proof.
  unfold binary_round_aux. unfold shr_fexp at 1. cbn [shr_record_of_loc].
  pose proof (shr_m_nonneg (Zpos p) e
                (fexp 24 128 (Zdigits2 (Zpos p) + e) - e) ltac:(lia)) as H0.
  destruct (shr _ e _) as [mrs' e']. cbn [fst] in H0.
  set (m1 := round_nearest_even (shr_m mrs') (loc_of_shr_record mrs')).
  assert (Hm1 : 0 <= m1) by (apply round_nearest_even_nonneg; exact H0).
  unfold shr_fexp. cbn [shr_record_of_loc].
  pose proof (Zdigits2_bound m1 Hm1) as Hdig.
  pose proof (fexp_ge (Zdigits2 m1 + e')) as Hfe.
  set (n2 := fexp 24 128 (Zdigits2 m1 + e') - e') in *.
  assert (Hd0 : 0 <= Zdigits2 m1).
  { destruct m1; cbn [Zdigits2]; lia. }
  destruct (Z.lt_ge_cases 0 n2) as [Hn|Hn].
  - rewrite shr_spec by lia. cbn [shr_m].
    assert (Hq : m1 / 2 ^ n2 < 2 ^ 24).
    { apply Z.div_lt_upper_bound; [apply Z.pow_pos_nonneg; lia|].
      rewrite <- Z.pow_add_r by lia.
      eapply Z.lt_le_trans; [exact Hdig|].
      apply Z.pow_le_mono_r; lia. }
    destruct (m1 / 2 ^ n2) as [|q|q]; cbn [bounded32]; auto.
    destruct (Z.leb_spec (e' + n2) (128 - 24)); cbn [bounded32]; [|exact I].
    split; [exact Hq|lia].
  - assert (Hsh : shr {| shr_m := m1; shr_r := false; shr_s := false |} e' n2
                  = ({| shr_m := m1; shr_r := false; shr_s := false |}, e')).
    { destruct n2 as [|t|t]; try lia; reflexivity. }
    rewrite Hsh. cbn [shr_m].
    assert (Hq : m1 < 2 ^ 24).
    { eapply Z.lt_le_trans; [exact Hdig|]. apply Z.pow_le_mono_r; lia. }
    destruct m1 as [|q|q]; cbn [bounded32]; auto.
    destruct (Z.leb_spec e' (128 - 24)); cbn [bounded32]; [|exact I].
    split; [exact Hq|lia].
Qed.

Lemma f32_mul_bounded x y : bounded32 (f32_mul x y).
Proof.
  unfold f32_mul, SFmul.
  destruct x as [sx|sx| |sx mx ex], y as [sy|sy| |sy my ey]; cbn [bounded32]; auto.
  apply binary_round_aux_bounded.
Qed.

Lemma binary_normalize_int z s :
  fits24 (Z.abs z) \/ z = 0 ->
  IEEE.to_int (binary_normalize 24 128 z 0 s) = int_range z.
Proof.
  intros H. destruct z as [|p|p]; cbn [binary_normalize].
  - reflexivity.
  - destruct H as [H|H]; [|discriminate].
    rewrite binary_round_int by exact H. reflexivity.
  - destruct H as [H|H]; [|discriminate].
    rewrite binary_round_int by exact H. reflexivity.
Qed.

Lemma fits24_small z : 0 < z < 2 ^ 24 -> fits24 z.
Proof. intros H. exists z, 0. split; [lia|]. split; [exact H|]. lia. Qed.

Lemma value_floor_ceil s m e :
  let q := fst (IEEE.int_part m e) in
  let frac := snd (IEEE.int_part m e) in
  Qceiling (IEEE.to_Q (S754_finite s m e))
  = (if s then - q else if frac then q + 1 else q)
  /\ Qfloor (IEEE.to_Q (S754_finite s m e))
     = (if s then (if frac then - q - 1 else - q) else q).
Proof.
  rewrite int_part_spec. cbn [IEEE.to_Q].
  destruct e as [|p|p]; cbn [Z.ltb Z.compare fst snd].
  - rewrite Qceiling_Z, Qfloor_Z. destruct s; cbn [cond_Zopp]; split; lia.
  - rewrite Qceiling_Z, Qfloor_Z. destruct s; cbn [cond_Zopp]; split; lia.
  - change (- Z.neg p) with (Zpos p).
    unfold Qceiling. cbn [Qopp Qnum Qden Qfloor].
    rewrite Pos2Z.inj_pow.
    assert (Hp : 0 < 2 ^ Zpos p) by (apply Z.pow_pos_nonneg; lia).
    set (D := 2 ^ Zpos p) in *.
    pose proof (Z.div_mod (Zpos m) D ltac:(lia)) as Hdm.
    pose proof (Z.mod_pos_bound (Zpos m) D Hp) as Hr.
    destruct s; cbn [cond_Zopp]; rewrite ?Z.opp_involutive.
    + split; [reflexivity|].
      destruct (Z.eqb_spec (Zpos m mod D) 0) as [E|E]; cbn [negb].
      * rewrite Z.div_opp_l_z by lia. lia.
      * rewrite Z.div_opp_l_nz by lia. lia.
    + split; [|reflexivity].
      destruct (Z.eqb_spec (Zpos m mod D) 0) as [E|E]; cbn [negb].
      * rewrite Z.div_opp_l_z by lia. lia.
      * rewrite Z.div_opp_l_nz by lia. lia.
Qed.

Lemma int_part_fits m e :
  Zpos m < 2 ^ 24 -> e <= 104 ->
  let q := fst (IEEE.int_part m e) in
  let frac := snd (IEEE.int_part m e) in
  (fits24 q \/ q = 0) /\ (frac = true -> fits24 (q + 1)).
Proof.
  intros Hm He. rewrite int_part_spec.
  destruct (Z.ltb_spec e 0) as [Hneg|Hpos]; cbn [fst snd].
  - assert (Hp : 2 <= 2 ^ (- e)).
    { change 2 with (2 ^ 1) at 1. apply Z.pow_le_mono_r; lia. }
    assert (Hq : 0 <= Zpos m / 2 ^ (- e) < 2 ^ 23).
    { split; [apply Z.div_pos; lia|].
      apply Z.div_lt_upper_bound; [lia|].
      change (2 ^ 24) with (2 * 2 ^ 23) in Hm. nia. }
    split.
    + destruct (Z.eq_dec (Zpos m / 2 ^ (- e)) 0); [right; assumption|].
      left. apply fits24_small. change (2 ^ 24) with (2 * 2 ^ 23). lia.
    + intros _. apply fits24_small. change (2 ^ 24) with (2 * 2 ^ 23). lia.
  - split; [|discriminate]. left. exists (Zpos m), e. repeat split; lia.
Qed.

Lemma to_int_ceilf x : bounded32 x -> IEEE.to_int (ceilf x) = ceil_int x.
Proof.
  destruct x as [s|s| |s m e]; try reflexivity.
  intros [Hm He]. unfold ceilf, ceil_int. cbn [is_finite].
  destruct (value_floor_ceil s m e) as [Hv _]. cbv zeta in Hv. rewrite Hv. clear Hv.
  destruct (int_part_fits m e Hm He) as [Hq Hq1].
  destruct (IEEE.int_part m e) as [q frac]. cbn [fst snd] in *.
  apply binary_normalize_int.
  assert (H0 : 0 <= q).
  { destruct Hq as [(k & j & Hj & Hk & ->) | ->]; [|lia].
    assert (0 < 2 ^ j) by (apply Z.pow_pos_nonneg; lia). nia. }
  destruct s.
  - rewrite Z.abs_opp, Z.abs_eq by lia.
    destruct Hq as [Hq| ->]; [left; exact Hq|right; reflexivity].
  - destruct frac.
    + left. rewrite Z.abs_eq by lia. apply Hq1. reflexivity.
    + rewrite Z.abs_eq by lia. exact Hq.
Qed.

Lemma to_int_floorf x : bounded32 x -> IEEE.to_int (floorf x) = floor_int x.
Proof.
  destruct x as [s|s| |s m e]; try reflexivity.
  intros [Hm He]. unfold floorf, floor_int. cbn [is_finite].
  destruct (value_floor_ceil s m e) as [_ Hv]. cbv zeta in Hv. rewrite Hv. clear Hv.
  destruct (int_part_fits m e Hm He) as [Hq Hq1].
  destruct (IEEE.int_part m e) as [q frac]. cbn [fst snd] in *.
  apply binary_normalize_int.
  assert (H0 : 0 <= q).
  { destruct Hq as [(k & j & Hj & Hk & ->) | ->]; [|lia].
    assert (0 < 2 ^ j) by (apply Z.pow_pos_nonneg; lia). nia. }
  destruct s.
  - destruct frac.
    + left. replace (- q - 1) with (- (q + 1)) by lia.
      rewrite Z.abs_opp, Z.abs_eq by lia. apply Hq1. reflexivity.
    + rewrite Z.abs_opp, Z.abs_eq by lia.
      destruct Hq as [Hq| ->]; [left; exact Hq|right; reflexivity].
  - rewrite Z.abs_eq by lia. exact Hq.
Qed.

(** ** The sign and the exponent of a rounded number *)

Lemma shr_1_m mrs : 0 <= shr_m mrs -> shr_m (shr_1 mrs) = shr_m mrs / 2.
Proof.
  destruct mrs as [m r s]. cbn [shr_m]. intros H.
  rewrite shr_1_spec by exact H. reflexivity.
Qed.

Lemma shr_iter_m k mrs :
  0 <= shr_m mrs -> shr_m (Nat.iter k shr_1 mrs) = shr_m mrs / 2 ^ Z.of_nat k.
Proof.
  intros H. induction k as [|k IH].
  - change (Nat.iter 0 shr_1 mrs) with mrs.
    change (2 ^ Z.of_nat 0) with 1. rewrite Z.div_1_r. reflexivity.
  - change (Nat.iter (S k) shr_1 mrs) with (shr_1 (Nat.iter k shr_1 mrs)).
    assert (Hp : 0 < 2 ^ Z.of_nat k) by (apply Z.pow_pos_nonneg; lia).
    rewrite shr_1_m by (rewrite IH; apply Z.div_pos; lia).
    rewrite IH, Z.div_div by lia.
    rewrite Nat2Z.inj_succ, Z.pow_succ_r by lia. f_equal. lia.
Qed.

Lemma shr_m_exp mrs e n :
  0 <= shr_m mrs ->
  shr_m (fst (shr mrs e n)) = shr_m mrs / 2 ^ Z.max 0 n
  /\ snd (shr mrs e n) = e + Z.max 0 n.
Proof.
  intros H. destruct n as [|p|p]; cbn [shr fst snd].
  - change (2 ^ Z.max 0 0) with 1. rewrite Z.div_1_r. split; [reflexivity|lia].
  - rewrite iter_pos_nat, shr_iter_m by exact H.
    rewrite positive_nat_Z. replace (Z.max 0 (Zpos p)) with (Zpos p) by lia.
    split; reflexivity.
  - change (2 ^ Z.max 0 (Zneg p)) with 1. rewrite Z.div_1_r. split; [reflexivity|lia].
Qed.

Lemma shr_record_of_loc_m m l : shr_m (shr_record_of_loc m l) = m.
Proof. destruct l as [|[]]; reflexivity. Qed.

Lemma round_nearest_even_le m l : round_nearest_even m l <= m + 1.
Proof.
  destruct l as [|[]]; cbn [round_nearest_even]; try lia.
  destruct (Z.even m); lia.
Qed.

Lemma Zdigits2_le m k : 0 <= k -> 0 <= m <= 2 ^ k -> Zdigits2 m <= k + 1.
Proof.
  intros Hk [H0 Hm]. destruct m as [|p|p]; cbn [Zdigits2]; try lia.
  destruct (digits2_pos_bounds p) as [Hl _].
  destruct (Z.le_gt_cases (Zpos (digits2_pos p)) (k + 1)) as [|Hgt]; [assumption|].
  assert (2 ^ (k + 1) <= 2 ^ (Zpos (digits2_pos p) - 1))
    by (apply Z.pow_le_mono_r; lia).
  rewrite Z.pow_add_r in H by lia. change (2 ^ 1) with 2 in H.
  assert (0 < 2 ^ k) by (apply Z.pow_pos_nonneg; lia). lia.
Qed.

Lemma binary_round_aux_shape s m e l D :
  0 <= m -> Zdigits2 m + e <= D -> e <= D - 24 -> -149 <= D - 24 ->
  rounds_below s D (binary_round_aux 24 128 s m e l).
Proof.
  intros Hm HD He Hmin. unfold binary_round_aux.
  unfold shr_fexp at 1.
  pose proof (shr_m_exp (shr_record_of_loc m l) e
                (fexp 24 128 (Zdigits2 m + e) - e)) as H1.
  rewrite shr_record_of_loc_m in H1. specialize (H1 Hm).
  destruct (shr (shr_record_of_loc m l) e _) as [mrs' e1].
  cbn [fst snd] in H1. destruct H1 as [Hm1 He1].
  set (n1 := Z.max 0 (fexp 24 128 (Zdigits2 m + e) - e)) in *.
  assert (Hn1 : 0 <= n1) by (unfold n1; lia).
  assert (He1' : e1 <= D - 24).
  { rewrite He1. unfold n1, fexp, emin. lia. }
  assert (Hd0 : 0 <= Zdigits2 m) by (destruct m; cbn [Zdigits2]; lia).
  assert (Hm1' : 0 <= shr_m mrs' < 2 ^ (D - e1)).
  { rewrite Hm1.
    assert (Hp : 0 < 2 ^ n1) by (apply Z.pow_pos_nonneg; lia).
    split; [apply Z.div_pos; lia|].
    apply Z.div_lt_upper_bound; [exact Hp|].
    rewrite <- Z.pow_add_r by lia.
    eapply Z.lt_le_trans; [apply Zdigits2_bound; exact Hm|].
    apply Z.pow_le_mono_r; lia. }
  set (m1 := round_nearest_even (shr_m mrs') (loc_of_shr_record mrs')).
  assert (Hr0 : 0 <= m1) by (apply round_nearest_even_nonneg; lia).
  assert (Hr1 : m1 <= 2 ^ (D - e1)).
  { pose proof (round_nearest_even_le (shr_m mrs') (loc_of_shr_record mrs')).
    fold m1 in H. lia. }
  assert (Hd1 : Zdigits2 m1 <= D - e1 + 1) by (apply Zdigits2_le; lia).
  unfold shr_fexp. cbn [shr_record_of_loc].
  pose proof (shr_m_exp {| shr_m := m1; shr_r := false; shr_s := false |} e1
                (fexp 24 128 (Zdigits2 m1 + e1) - e1) Hr0) as H2.
  destruct (shr _ e1 _) as [mrs'' e2].
  cbn [fst snd shr_m] in H2. destruct H2 as [Hm2 He2].
  assert (He2' : e2 <= D - 23).
  { rewrite He2. unfold fexp, emin. lia. }
  assert (H0 : 0 <= shr_m mrs'').
  { rewrite Hm2. apply Z.div_pos; [lia|]. apply Z.pow_pos_nonneg; lia. }
  destruct (shr_m mrs'') as [|q|q]; [left; reflexivity| |lia].
  right. change (128 - 24) with 104.
  destruct (Z.leb_spec e2 104).
  - left. eauto.
  - right. split; [reflexivity|lia].
Qed.

Lemma digits2_pos_shift p k :
  Zpos (digits2_pos (Pos.iter xO p k)) = Zpos (digits2_pos p) + Zpos k.
Proof.
  apply digits2_pos_unique. rewrite pos_iter_xO.
  destruct (digits2_pos_bounds p) as [Hl Hu].
  assert (Hk : 0 < 2 ^ Zpos k) by (apply Z.pow_pos_nonneg; lia).
  replace (Zpos (digits2_pos p) + Zpos k - 1)
    with (Zpos (digits2_pos p) - 1 + Zpos k) by lia.
  rewrite !Z.pow_add_r by lia. split; nia.
Qed.

Lemma binary_round_shape s p e D :
  Zpos (digits2_pos p) + e <= D -> -149 <= D - 24 ->
  rounds_below s D (binary_round 24 128 s p e).
Proof.
  intros HD Hmin. unfold binary_round, shl_align.
  set (f := fexp 24 128 (Zpos (digits2_pos p) + e)).
  assert (Hf : f <= D - 24) by (unfold f, fexp, emin; lia).
  destruct (f - e) as [|d|d] eqn:E.
  - apply binary_round_aux_shape; cbn [Zdigits2]; lia.
  - apply binary_round_aux_shape; cbn [Zdigits2]; lia.
  - apply binary_round_aux_shape; cbn [Zdigits2]; try lia.
    rewrite digits2_pos_shift. lia.
Qed.

Lemma rounds_below_lt_half s D x :
  rounds_below s D x -> s = true \/ D <= -2 ->
  f32_lt x f0_5 = true.
Proof.
  intros [->|[(m & e & -> & He)|[-> Hinf]]] Hs.
  - reflexivity.
  - destruct s; [reflexivity|]. destruct Hs as [?|HD]; [discriminate|].
    change f0_5 with (S754_finite false 8388608 (-24)).
    unfold f32_lt, SFltb, SFcompare.
    destruct (Z.compare_spec e (-24)); [lia|reflexivity|lia].
  - destruct s; [reflexivity|]. destruct Hs as [?|HD]; [discriminate|lia].
Qed.

Lemma div_eucl_nonneg a b q r :
  0 <= a -> 0 < b -> Z.div_eucl a b = (q, r) -> 0 <= q.
Proof.
  intros Ha Hb E.
  assert (q = a / b) as -> by (unfold Z.div; rewrite E; reflexivity).
  apply Z.div_pos; lia.
Qed.

(** [0.2f / y] for a positive number [y] is not negative. *)
Lemma f32_div_sign my ey :
  exists D, rounds_below false D
              (f32_div (f32_lit 2 10) (S754_finite false my ey)).
Proof.
  rewrite lit_0_2f. unfold f32_div, SFdiv. cbn [xorb].
  destruct (SFdiv_core_binary 24 128 13421773 (-26) (Zpos my) ey)
    as [[mz ez] lz] eqn:E.
  assert (Hmz : 0 <= mz).
  { unfold SFdiv_core_binary in E.
    set (s := -26 - ey - _) in E.
    set (m' := match s with Z.pos _ => _ | 0 => _ | Z.neg _ => _ end) in E.
    assert (Hm' : 0 <= m').
    { unfold m'. destruct s; try lia. apply Z.shiftl_nonneg. lia. }
    destruct (Z.div_eucl m' (Zpos my)) as [q r] eqn:Eq.
    injection E as <- _ _.
    eapply div_eucl_nonneg; [exact Hm'| |exact Eq]. lia. }
  exists (Z.max (Zdigits2 mz + ez) (Z.max (ez + 24) (-125))).
  apply binary_round_aux_shape; lia.
Qed.

(** ** The layout recompute *)

Lemma binary_round_aux_opp s m e l :
  binary_round_aux 24 128 (negb s) m e l
  = SFopp (binary_round_aux 24 128 s m e l).
Proof.
  unfold binary_round_aux.
  destruct (shr_fexp 24 128 m e l) as [mrs' e'].
  destruct (shr_fexp 24 128 _ e' loc_Exact) as [mrs'' e''].
  destruct (shr_m mrs''); [reflexivity| |reflexivity].
  destruct (e'' <=? 128 - 24); reflexivity.
Qed.

Lemma binary_round_opp s m e :
  binary_round 24 128 (negb s) m e = SFopp (binary_round 24 128 s m e).
Proof.
  unfold binary_round. destruct (shl_align m e _).
  apply binary_round_aux_opp.
Qed.

Lemma f32_of_int_opp W : f32_of_int (- W) = SFopp (f32_of_int W) \/ W = 0.
Proof.
  destruct W as [|p|p]; [right; reflexivity|left|left].
  - apply (binary_round_opp false).
  - apply (binary_round_opp true).
Qed.

(** The main pane's width for a negative total width mirrors the one for
    the positive width: [(int)] truncates toward zero. *)
Lemma zoom_main_width_opp W :
  0 <= W < 2 ^ 31 ->
  zoom_main_width (- W) = Z.opp <$> zoom_main_width W.
Proof.
  intros HW. destruct (Z.eq_dec W 0) as [->|HW0]; [reflexivity|].
  destruct (zoom_main_width_bounds W HW) as (a & Ha & Ha0 & _).
  rewrite Ha. revert Ha. unfold zoom_main_width.
  destruct (f32_of_int_opp W) as [-> | ?]; [|contradiction].
  destruct (f32_of_int_pos W ltac:(lia)) as (m1 & e1 & -> & Hm1 & He1 & _).
  rewrite lit_0_65f.
  destruct (f32_mul_normal m1 e1 10905190 (-24) Hm1)
    as (m2 & e2 & E2 & _); [lia|lia|lia|].
  cbn [SFopp negb].
  change (f32_mul (S754_finite true m1 e1) (S754_finite false 10905190 (-24)))
    with (binary_round_aux 24 128 (negb false) (Zpos (m1 * 10905190))
            (e1 + -24) loc_Exact).
  rewrite binary_round_aux_opp.
  change (binary_round_aux 24 128 false (Zpos (m1 * 10905190)) (e1 + -24) loc_Exact)
    with (f32_mul (S754_finite false m1 e1) (S754_finite false 10905190 (-24))).
  rewrite E2. cbn [SFopp negb IEEE.to_int cond_Zopp].
  set (z := fst (IEEE.int_part m2 e2)).
  destruct (Z.leb_spec (- 2 ^ 31) z), (Z.ltb_spec z (2 ^ 31));
    cbn [andb]; try discriminate.
  intros [= ->].
  destruct (Z.leb_spec (- 2 ^ 31) (- a)); [|lia].
  destruct (Z.ltb_spec (- a) (2 ^ 31)); [|lia]. reflexivity.
Qed.

Lemma zoom_main_width_below_180 W :
  0 <= W < 180 -> zoom_main_width W = Some (13 * W / 20).
Proof.
  intros HW. destruct (Z.eq_dec (W mod 20) 0) as [Hmod|Hmod].
  - assert (H : In W [0; 20; 40; 60; 80; 100; 120; 140; 160]).
    { assert (E : W = 20 * (W / 20)) by (clear - Hmod; Z.div_mod_to_equations; lia).
      assert (Hq : 0 <= W / 20 < 9) by (clear - HW; Z.div_mod_to_equations; lia).
      rewrite E. set (q := W / 20) in *. clearbody q. clear - Hq.
      assert (q = 0 \/ q = 1 \/ q = 2 \/ q = 3 \/ q = 4 \/ q = 5 \/ q = 6
              \/ q = 7 \/ q = 8) as H by lia.
      simpl. repeat destruct H as [->|H]; try subst q; auto 10. }
    simpl in H.
    repeat (destruct H as [<-|H]; [vm_compute; reflexivity|]). destruct H.
  - destruct (zoom_main_width_bounds W ltac:(lia)) as (a & Ha & _ & _ & _ & H).
    rewrite Ha, (H ltac:(lia) Hmod). reflexivity.
Qed.

(** [(int)(W * 0.65f)] for every [int] [W]: defined, between 0 and [W],
    within [1 + |W| / 2^18 / 20] of [0.65 W]. *)
Lemma zoom_main_width_int W :
  in_int W ->
  exists a,
    zoom_main_width W = Some a
    /\ (0 <= W ->
        0 <= a <= W
        /\ 13 * W - 20 - W / 2 ^ 18 <= 20 * a <= 13 * W + W / 2 ^ 19)
    /\ (W < 0 ->
        W <= a <= 0
        /\ 13 * W - (- W) / 2 ^ 19 <= 20 * a <= 13 * W + 20 + (- W) / 2 ^ 18).
Proof.
  unfold in_int. intros HW.
  destruct (Z.le_gt_cases 0 W) as [Hpos|Hneg].
  - destruct (zoom_main_width_bounds W ltac:(lia)) as (a & Ha & H1 & H2 & _).
    exists a. split; [exact Ha|]. split; [intros _; split; assumption|lia].
  - destruct (Z.eq_dec W (- 2 ^ 31)) as [->|Hmin].
    + exists (- 1395864320). split; [vm_compute; reflexivity|].
      split; [lia|]. intros _. vm_compute. repeat split; discriminate.
    + destruct (zoom_main_width_bounds (- W) ltac:(lia)) as (a & Ha & H1 & H2 & _).
      exists (- a). split.
      * rewrite <- (Z.opp_involutive W) at 1.
        rewrite zoom_main_width_opp, Ha by lia. reflexivity.
      * split; [lia|]. intros _. lia.
Qed.

Lemma zoom_main_width_range W :
  0 <= W <= 8192 ->
  exists a, zoom_main_width W = Some a
            /\ 13 * W / 20 - 1 <= a <= 13 * W / 20
            /\ (W < 180 -> a = 13 * W / 20).
Proof.
  intros HW.
  destruct (zoom_main_width_bounds W ltac:(lia)) as (a & Ha & _ & _ & H & _).
  exists a. split; [exact Ha|]. split; [apply H; lia|].
  intros Hs. rewrite zoom_main_width_below_180 in Ha by lia. congruence.
Qed.

(** C2, as the code has it. For a refresh that keeps the pane widths: with
    zoom disabled the main pane gets [W], whatever the total width [W]; with
    zoom enabled and [W] any [int], the main pane gets the single-precision
    [a = (int)(W * 0.65f)], which is always defined, and the zoom pane gets
    [W - a + 10], without overflow. For [W >= 0], [a] lies between 0 and [W]
    and [13 W - 20 - W / 2^18 <= 20 a <= 13 W + W / 2^19]; it is
    [floor(0.65 W)] or one less for [W < 2^21], it is [floor(0.65 W)] for
    [W < 2^19] not a multiple of 20, and for every [W < 180]. For [W < 0]
    the conversion truncates toward zero: [a] lies between [W] and 0 and
    [13 W - |W| / 2^19 <= 20 a <= 13 W + 20 + |W| / 2^18]. *)
Theorem layout_pane_widths refresh (s : sink) :
  (forall r, r_width (refresh r) = r_width r) ->
  (d_zoom_enabled s = false ->
   exists s', settings_apply_layout refresh s = Some s'
              /\ r_width (d_render_main s') = d_width s)
  /\ (d_zoom_enabled s = true -> in_int (d_width s) ->
      exists s' a,
        settings_apply_layout refresh s = Some s'
        /\ zoom_main_width (d_width s) = Some a
        /\ r_width (d_render_main s') = a
        /\ r_width (d_render_zoom s') = d_width s - a + 10
        /\ (0 <= d_width s ->
            0 <= a <= d_width s
            /\ 13 * d_width s - 20 - d_width s / 2 ^ 18 <= 20 * a
               <= 13 * d_width s + d_width s / 2 ^ 19)
        /\ (d_width s < 0 ->
            d_width s <= a <= 0
            /\ 13 * d_width s - (- d_width s) / 2 ^ 19 <= 20 * a
               <= 13 * d_width s + 20 + (- d_width s) / 2 ^ 18)
        /\ (0 <= d_width s < 2 ^ 21 ->
            13 * d_width s / 20 - 1 <= a <= 13 * d_width s / 20)
        /\ (0 <= d_width s < 2 ^ 19 -> d_width s mod 20 <> 0 ->
            a = 13 * d_width s / 20)
        /\ (0 <= d_width s < 180 -> a = 13 * d_width s / 20)).
Proof.
  intros Hrefresh. unfold settings_apply_layout. split.
  - intros ->. cbn [mbind option_bind fst snd].
    eexists. split; [reflexivity|].
    cbn [set_d_render d_render_main]. rewrite Hrefresh. reflexivity.
  - intros -> HW.
    destruct (zoom_main_width_int _ HW) as (a & Ha & Hpos & Hneg).
    pose proof Ha as Ha'. unfold zoom_main_width in Ha'. rewrite Ha'.
    cbn [mbind option_bind fst snd].
    eexists. exists a. split; [reflexivity|]. split; [exact Ha|].
    cbn [set_d_render d_render_main d_render_zoom].
    rewrite !Hrefresh.
    cbn [set_channels set_freq_window set_histo_wf_ratio set_r_height
         set_options set_r_width set_pos_x r_width].
    split; [reflexivity|].
    split.
    { unfold in_int in HW.
      assert (Hg : 0 <= d_width s -> 0 <= d_width s / 2 ^ 18 <= 8192).
      { clear - HW. intros H. change (2 ^ 18) with 262144.
        Z.div_mod_to_equations. lia. }
      assert (Hab : - 2 ^ 31 <= d_width s - a /\ d_width s - a + 10 < 2 ^ 31).
      { destruct (Z.le_gt_cases 0 (d_width s)) as [Hp|Hn].
        - specialize (Hpos Hp). specialize (Hg Hp). clear - HW Hpos Hg Hp. lia.
        - specialize (Hneg Hn). clear - HW Hneg Hn. lia. }
      rewrite (sint32_id (d_width s - a)) by (unfold in_int; clear - Hab; lia).
      apply sint32_id. unfold in_int. clear - Hab. lia. }
    split; [exact Hpos|]. split; [exact Hneg|].
    destruct (Z.le_gt_cases 0 (d_width s)) as [Hp|Hn]; [|lia].
    destruct (zoom_main_width_bounds (d_width s) ltac:(unfold in_int in HW; lia))
      as (a' & Ha2 & _ & _ & H21 & H19).
    assert (a' = a) as -> by congruence.
    split; [intros; apply H21; lia|]. split; [intros; apply H19; lia|].
    intros Hs. rewrite zoom_main_width_below_180 in Ha by lia. congruence.
Qed.

Lemma layout_pane_widths_witness :
  (let s := set_d_zoom_enabled true demo_sink in
   in_int (d_width s)
   /\ r_width <$> (d_render_main <$> settings_apply_layout (fun r => r) s)
      = Some 650
   /\ r_width <$> (d_render_zoom <$> settings_apply_layout (fun r => r) s)
      = Some 360
   /\ r_width <$> (d_render_main <$> settings_apply_layout (fun r => r) demo_sink)
      = Some 1000).
Proof.
  cbv zeta.
  assert (HW : in_int (d_width (set_d_zoom_enabled true demo_sink)))
    by (unfold in_int; simpl; lia).
  split; [exact HW|].
  destruct (layout_pane_widths (fun r => r) (set_d_zoom_enabled true demo_sink)
              (fun r => eq_refl)) as [_ Hz].
  destruct (Hz eq_refl HW) as (s' & a & Hs' & Ha & Hm & Hzm & _).
  destruct (layout_pane_widths (fun r => r) demo_sink (fun r => eq_refl))
    as [Hoff _].
  destruct (Hoff eq_refl) as (s0 & Hs0 & Hm0).
  rewrite Hs', Hs0.
  assert (a = 650) as -> by (vm_compute in Ha; congruence).
  simpl. rewrite Hm, Hzm, Hm0. repeat split; reflexivity.
Defined.

(** C2 as stated fails: at [W = 180] with zoom enabled the main pane gets
    116, not [floor(0.65 * 180) = 117], and the zoom pane 74, not 73. *)
Lemma layout_main_width_180 :
  (let s := set_d_zoom_enabled true (set_d_dimensions 180 600 demo_sink) in
   r_width <$> (d_render_main <$> settings_apply_layout (fun r => r) s)
   = Some 116
   /\ r_width <$> (d_render_zoom <$> settings_apply_layout (fun r => r) s)
      = Some 74
   /\ 13 * 180 / 20 = 117
   /\ 180 - 13 * 180 / 20 + 10 = 73).
Proof.
  cbv zeta. repeat split; vm_compute; reflexivity.
Qed.

(** ** One render iteration over the FIFO *)

Lemma render_drain_empty iter fft_len frozen f :
  render_drain iter fft_len 0 frozen f = (f, []).
Proof. destruct iter; reflexivity. Qed.

Lemma render_drain_one_chunk iter frozen f :
  capacity f = 2 * 1024 * 1024 ->
  0 <= rp f < capacity f ->
  rp f mod (16 * 1024) = 0 ->
  used f = 16 * 1024 ->
  render_drain (S iter) 1024 (16 * 1024) frozen f
  = (read_discard (16 * 1024) f,
     if frozen then [] else [fosphor_process (Some (rp f)) (16 * 1024)]).
Proof.
  intros Hcap Hrp Halign Hused.
  assert (Hmax : (16 * 1024 >? read_max_size f) = false).
  { unfold read_max_size. rewrite Z.gtb_ltb. apply Z.ltb_ge.
    rewrite Hcap in *.
    apply Z.mod_divide in Halign; [|lia]. destruct Halign as [q Hq]. lia. }
  assert (Hpeek : read_peek (16 * 1024) f = Some (rp f)).
  { unfold read_peek. rewrite Hused. reflexivity. }
  cbn [render_drain].
  change (16 * 1024 =? 0) with false. cbv iota.
  rewrite Hmax.
  change (Z.land (16 * 1024)
            (Z.lnot (sint32 (sint32 (batch_mult * 1024) - 1))))
    with (16 * 1024).
  change (16 * 1024 >? sint32 (batch_max * 1024)) with false. cbv iota.
  change (16 * 1024 =? 0) with false. cbv iota.
  change (sint32 (16 * 1024 - 16 * 1024)) with 0.
  rewrite render_drain_empty, Hpeek.
  destruct frozen; reflexivity.
Qed.

Lemma settings_apply_no_process refresh settings s s' evs :
  settings_apply refresh settings s = Some (s', evs) -> process_calls evs = [].
Proof.
  unfold settings_apply. intros H.
  apply bind_Some in H. destruct H as (e_pwr & Hp & H).
  apply bind_Some in H. destruct H as (s1 & _ & H).
  injection H as _ <-.
  assert (He : process_calls e_pwr = []).
  { destruct (test settings SETTING_POWER_RANGE).
    - apply bind_Some in Hp. destruct Hp as (k & _ & Hp).
      injection Hp as <-. reflexivity.
    - injection Hp as <-. reflexivity. }
  unfold process_calls in *. rewrite !omap_app, He.
  repeat match goal with
         | |- context [if ?c then _ else _] => destruct c
         end; reflexivity.
Qed.

Lemma settings_apply_layout_defined refresh s :
  d_zoom_enabled s = false \/ 0 <= d_width s <= 8192 ->
  exists s', settings_apply_layout refresh s = Some s'.
Proof.
  intros H. unfold settings_apply_layout.
  destruct (d_zoom_enabled s).
  - destruct H as [H|H]; [discriminate|].
    destruct (zoom_main_width_range _ H) as (a & Ha & _).
    unfold zoom_main_width in Ha. rewrite Ha.
    cbn [mbind option_bind]. eauto.
  - cbn [mbind option_bind]. eauto.
Qed.

(** The settings apply goes through whenever the dB/div index addresses
    its table and, under zoom, the width is one of 0..8192. *)
Lemma settings_apply_defined refresh settings s :
  idx_in_table s ->
  d_zoom_enabled s = false \/ 0 <= d_width s <= 8192 ->
  exists s' evs, settings_apply refresh settings s = Some (s', evs).
Proof.
  intros Hi Hw. unfold settings_apply.
  destruct (table_read_in_bounds _ Hi) as [k Hk]. rewrite Hk.
  destruct (settings_apply_layout_defined refresh s Hw) as [s' Hs']. rewrite Hs'.
  destruct (test settings SETTING_POWER_RANGE),
           (test settings (Z.lor SETTING_DIMENSIONS SETTING_RENDER_OPTIONS));
    cbn [mbind option_bind]; eauto.
Qed.

Lemma render_one_chunk_applied refresh (s s1 : sink) (e1 : list event) :
  d_fft_size s = 1024 ->
  capacity (d_fifo s) = 2 * 1024 * 1024 ->
  0 <= rp (d_fifo s) < capacity (d_fifo s) ->
  rp (d_fifo s) mod (16 * 1024) = 0 ->
  used (d_fifo s) = 16 * 1024 ->
  settings_apply refresh (d_settings_changed s) (set_d_settings_changed 0 s)
  = Some (s1, e1) ->
  exists s' evs,
    render refresh s = Some (s', evs)
    /\ process_calls evs
       = (if d_frozen s then []
          else [(Some (rp (d_fifo s)), 16 * 1024)])
    /\ used (d_fifo s') = 0
    /\ d_fifo s' = read_discard (16 * 1024) (d_fifo s).
Proof.
  intros Hfft Hcap Hrp Halign Hused Happly.
  pose proof (settings_apply_no_process _ _ _ _ _ Happly) as Hnone.
  pose proof (settings_apply_frame _ _ _ _ _ Happly) as Hframe.
  assert (Hfifo : d_fifo s1 = d_fifo s) by (rewrite Hframe; reflexivity).
  assert (Hfrozen : d_frozen s1 = d_frozen s) by (rewrite Hframe; reflexivity).
  unfold render.
  cbn [settings_get_and_reset_changed fst snd]. rewrite Happly.
  cbn [mbind option_bind fst snd].
  rewrite Hfifo, Hfrozen, Hfft, Hused.
  change max_iter with (S 7).
  rewrite (render_drain_one_chunk 7 (d_frozen s) (d_fifo s) Hcap Hrp Halign Hused).
  cbn [fst snd].
  eexists _, _. split; [reflexivity|].
  split; [|split].
  - unfold process_calls in *. rewrite !omap_app, Hnone.
    cbn [set_d_fifo d_visible d_zoom_enabled d_render_main d_render_zoom].
    destruct (d_frozen s), (d_visible s1), (d_zoom_enabled s1); reflexivity.
  - cbn [set_d_fifo d_fifo read_discard used fifo_used].
    unfold used in Hused. rewrite Hused. reflexivity.
  - reflexivity.
Qed.

(** C5. With the default FFT size of 1024 and a FIFO that holds exactly one
    chunk of 16 x 1024 samples at a batch-aligned read cursor, one render
    iteration makes exactly one [fosphor_process] call, on that chunk and of
    that length, and leaves [used() == 0]; when frozen it makes no
    [fosphor_process] call and still discards the chunk, leaving
    [used() == 0]. The object is one whose dB/div index addresses its table
    and whose width, under zoom, is one of 0..8192, so that the settings
    apply at the head of the iteration goes through. *)
Theorem render_one_aligned_chunk refresh (s : sink) :
  d_fft_size s = 1024 ->
  capacity (d_fifo s) = 2 * 1024 * 1024 ->
  0 <= rp (d_fifo s) < capacity (d_fifo s) ->
  rp (d_fifo s) mod (16 * 1024) = 0 ->
  used (d_fifo s) = 16 * 1024 ->
  0 <= d_db_per_div_idx s <= 4 ->
  d_zoom_enabled s = false \/ 0 <= d_width s <= 8192 ->
  exists s' evs,
    render refresh s = Some (s', evs)
    /\ process_calls evs
       = (if d_frozen s then []
          else [(Some (rp (d_fifo s)), 16 * 1024)])
    /\ used (d_fifo s') = 0
    /\ d_fifo s' = read_discard (16 * 1024) (d_fifo s).
Proof.
  intros Hfft Hcap Hrp Halign Hused Hidx Hw.
  destruct (settings_apply_defined refresh (d_settings_changed s)
              (set_d_settings_changed 0 s) Hidx Hw) as (s1 & e1 & Happly).
  eapply render_one_chunk_applied; eassumption.
Qed.

Lemma render_one_aligned_chunk_witness :
  (process_calls ∘ snd <$> render (fun r => r) demo_loaded)
  = Some [(Some (3 * (16 * 1024)), 16 * 1024)]
  /\ (used ∘ d_fifo ∘ fst <$> render (fun r => r) demo_loaded) = Some 0
  /\ (process_calls ∘ snd <$> render (fun r => r) demo_loaded_frozen) = Some []
  /\ (used ∘ d_fifo ∘ fst <$> render (fun r => r) demo_loaded_frozen) = Some 0.
Proof.
  destruct (render_one_aligned_chunk (fun r => r) demo_loaded)
    as (s' & evs & Hr & Hp & Hu & _);
    [reflexivity | reflexivity | simpl; lia | reflexivity | reflexivity
    | simpl; lia | left; reflexivity |].
  destruct (render_one_aligned_chunk (fun r => r) demo_loaded_frozen)
    as (s2 & evs2 & Hr2 & Hp2 & Hu2 & _);
    [reflexivity | reflexivity | simpl; lia | reflexivity | reflexivity
    | simpl; lia | left; reflexivity |].
  rewrite Hr, Hr2. cbn [fmap option_fmap option_map compose fst snd].
  rewrite Hp, Hp2, Hu, Hu2. repeat split; reflexivity.
Defined.

(** ** The power grid *)

Lemma seqZ_0_11 : seqZ 0 11 = [0; 1; 2; 3; 4; 5; 6; 7; 8; 9; 10].
Proof. reflexivity. Qed.

Lemma power_gridline_lines self render i :
  lines (power_gridline self render i) = [gridline_segment render i].
Proof.
  unfold power_gridline, lines.
  destruct (test (options render) FRO_LABEL_PWR); reflexivity.
Qed.

Lemma power_gridline_labels self render i :
  labels_d (power_gridline self render i)
  = if test (options render) FRO_LABEL_PWR
    then [sint32 (power_db_ref self
                  - sint32 (sint32 (10 - i) * power_db_per_div self))]
    else [].
Proof.
  unfold power_gridline, labels_d.
  destruct (test (options render) FRO_LABEL_PWR); reflexivity.
Qed.

Lemma gridline_value_no_wrap self i :
  0 <= i <= 10 ->
  - 2 ^ 30 <= power_db_ref self <= 2 ^ 30 ->
  - 2 ^ 26 <= power_db_per_div self <= 2 ^ 26 ->
  sint32 (power_db_ref self - sint32 (sint32 (10 - i) * power_db_per_div self))
  = gridline_value self i.
Proof.
  intros Hi Href Hdiv. unfold gridline_value.
  rewrite (sint32_id (10 - i)) by (unfold in_int; lia).
  assert (H : - (10 * 2 ^ 26) <= (10 - i) * power_db_per_div self <= 10 * 2 ^ 26)
    by nia.
  rewrite (sint32_id ((10 - i) * _)) by (unfold in_int; lia).
  apply sint32_id. unfold in_int. lia.
Qed.

Lemma lines_bind {A} (g : A -> list gl_cmd) (l : list A) :
  lines (l ≫= g) = l ≫= (fun i => lines (g i)).
Proof.
  induction l as [|i l IH]; [reflexivity|].
  cbn [mbind list_bind]. unfold lines in *. rewrite omap_app, IH. reflexivity.
Qed.

Lemma labels_d_bind {A} (g : A -> list gl_cmd) (l : list A) :
  labels_d (l ≫= g) = l ≫= (fun i => labels_d (g i)).
Proof.
  induction l as [|i l IH]; [reflexivity|].
  cbn [mbind list_bind]. unfold labels_d in *. rewrite omap_app, IH.
  reflexivity.
Qed.

Lemma bind_singleton {A B} (h : A -> B) (l : list A) :
  l ≫= (fun i => [h i]) = h <$> l.
Proof.
  induction l as [|i l IH]; [reflexivity|].
  cbn [mbind list_bind fmap list_fmap]. rewrite IH. reflexivity.
Qed.

Lemma power_grid_lines self render :
  lines (power_grid self render) = gridline_segment render <$> seqZ 0 11.
Proof.
  unfold power_grid. rewrite lines_bind, <- bind_singleton.
  apply list_bind_ext; [|reflexivity].
  intros i. apply power_gridline_lines.
Qed.

(** C1, as the code has it. For every pane draw with live, max-hold or
    histogram rendering enabled, the compositor draws exactly 11 horizontal
    power gridlines, [i = 0 .. 10], the bounds of 10 divisions, and, when
    power labels are enabled, gridline [i] is labelled with
    [reference - (10 - i) * dB_per_div]; without power labels it has no
    label. *)
Theorem power_grid_lines_and_labels self render :
  test (options render) (Z.lor (Z.lor FRO_LIVE FRO_MAX_HOLD) FRO_HISTO) = true ->
  - 2 ^ 30 <= power_db_ref self <= 2 ^ 30 ->
  - 2 ^ 26 <= power_db_per_div self <= 2 ^ 26 ->
  draw_grid self render = power_grid self render ++ freq_grid render
  /\ lines (power_grid self render) = gridline_segment render <$> seqZ 0 11
  /\ length (lines (power_grid self render)) = 11%nat
  /\ Forall (fun l => snd (fst l) = snd (snd l)) (lines (power_grid self render))
  /\ labels_d (power_grid self render)
     = if test (options render) FRO_LABEL_PWR
       then gridline_value self <$> seqZ 0 11
       else [].
Proof.
  intros Hon Href Hdiv.
  split; [unfold draw_grid; rewrite Hon; reflexivity|].
  split; [apply power_grid_lines|].
  split; [rewrite power_grid_lines, seqZ_0_11; reflexivity|].
  split.
  { rewrite power_grid_lines, seqZ_0_11. repeat constructor. }
  unfold power_grid. rewrite labels_d_bind, seqZ_0_11.
  cbn [mbind list_bind]. rewrite !power_gridline_labels.
  destruct (test (options render) FRO_LABEL_PWR); [|reflexivity].
  rewrite !gridline_value_no_wrap by (try assumption; lia).
  reflexivity.
Qed.

Lemma power_grid_lines_and_labels_witness :
  length (lines (power_grid demo_fosphor demo_render)) = 11%nat
  /\ labels_d (power_grid demo_fosphor demo_render)
     = [-100; -90; -80; -70; -60; -50; -40; -30; -20; -10; 0].
Proof.
  destruct (power_grid_lines_and_labels demo_fosphor demo_render)
    as (_ & _ & Hn & _ & Hl);
    [reflexivity | simpl; lia | simpl; lia |].
  split; [exact Hn|]. rewrite Hl. reflexivity.
Defined.

(** C1 as stated fails: a draw of the demo pane has 11 horizontal lines,
    not 10. *)
Lemma power_grid_has_eleven_lines :
  test (options demo_render) (Z.lor (Z.lor FRO_LIVE FRO_MAX_HOLD) FRO_HISTO)
  = true
  /\ (length ∘ List.filter is_horizontal ∘ lines
      <$> fosphor_gl_draw demo_fosphor demo_render) = Some 11%nat
  /\ 11%nat <> 10%nat.
Proof.
  split; [reflexivity|]. split; [vm_compute; reflexivity|]. discriminate.
Qed.

(** ** The spectrum bin range *)

Lemma to_int_in_int x z : IEEE.to_int x = Some z -> in_int z.
Proof.
  unfold IEEE.to_int, in_int. destruct x as [s| s| |s m e]; try discriminate.
  - intros [= <-]. lia.
  - destruct ((- 2 ^ 31 <=? _) && (_ <? 2 ^ 31)) eqn:E; [|discriminate].
    intros [= <-]. apply andb_true_iff in E. lia.
Qed.

Lemma elem_of_drawn_bins base first count b :
  b ∈ drawn_bins base first count
  <-> first - base <= b < first - base + count.
Proof.
  unfold drawn_bins. rewrite list_elem_of_fmap. split.
  - intros (k & -> & Hk). apply elem_of_seqZ in Hk. lia.
  - intros Hb. exists (b - (first - base)). split; [lia|].
    apply elem_of_seqZ. lia.
Qed.

Lemma spectrum_range_clamped self render lo hi :
  spectrum_ends self render = Some (lo, hi) ->
  1 <= fft_len self < 2 ^ 30 -> lo <= 2 ^ 30 -> - 2 ^ 30 <= hi ->
  spectrum_range self render
  = Some (Z.max 1 lo, Z.min (fft_len self - 1) hi,
          Z.min (fft_len self - 1) hi - Z.max 1 lo + 1).
Proof.
  intros Hends Hn Hlo Hhi. unfold spectrum_range. rewrite Hends.
  cbn [mbind option_bind fst snd].
  assert (H0 : (if lo <? 1 then 1 else lo) = Z.max 1 lo).
  { destruct (Z.ltb_spec lo 1); lia. }
  assert (H1 : (if hi >=? fft_len self then sint32 (fft_len self - 1) else hi)
               = Z.min (fft_len self - 1) hi).
  { rewrite sint32_id by (unfold in_int; lia).
    rewrite Z.geb_leb. destruct (Z.leb_spec (fft_len self) hi); lia. }
  rewrite H0, H1.
  rewrite (sint32_id (_ - _)) by (unfold in_int; lia).
  rewrite sint32_id by (unfold in_int; lia).
  reflexivity.
Qed.

Lemma draw_spectrum_arrays self render idx0 idx1 len :
  spectrum_range self render = Some (idx0, idx1, len) ->
  draw_arrays <$> draw_spectrum self render
  = Some ((if test (options render) FRO_LIVE then [(idx0, len)] else [])
          ++ (if test (options render) FRO_MAX_HOLD
              then [(sint32 (idx0 + fft_len self), len)] else [])).
Proof.
  intros Hr. unfold draw_spectrum. 
  destruct (test (options render) (Z.lor FRO_LIVE FRO_MAX_HOLD)) eqn:Hon.
  - rewrite Hr. cbn [mbind option_bind fmap option_fmap option_map].
    unfold draw_arrays. rewrite !omap_app.
    destruct (test (options render) FRO_LIVE),
             (test (options render) FRO_MAX_HOLD); reflexivity.
  - assert (Hl : test (options render) FRO_LIVE = false
                 /\ test (options render) FRO_MAX_HOLD = false).
    { unfold test in *. apply negb_false_iff, Z.eqb_eq in Hon.
      rewrite !negb_false_iff, !Z.eqb_eq.
      split; apply Z.bits_inj'; intros n Hn;
        apply (f_equal (fun z => Z.testbit z n)) in Hon;
        rewrite Z.land_spec, Z.lor_spec, Z.bits_0 in Hon;
        rewrite Z.land_spec, Z.bits_0;
        destruct (Z.testbit (options render) n),
                 (Z.testbit FRO_LIVE n), (Z.testbit FRO_MAX_HOLD n);
        simpl in *; congruence. }
    destruct Hl as [-> ->]. reflexivity.
Qed.

Lemma spectrum_ends_spec self render :
  spectrum_ends self render
  = (lo ← ceil_int (spectrum_lo self render);
     hi ← floor_int (spectrum_hi self render);
     Some (lo, hi)).
Proof.
  unfold spectrum_ends, spectrum_lo, spectrum_hi.
  rewrite to_int_ceilf, to_int_floorf by apply f32_mul_bounded.
  reflexivity.
Qed.

Lemma ceil_int_Some x z :
  ceil_int x = Some z -> z = Qceiling (IEEE.to_Q x) /\ in_int z.
Proof.
  unfold ceil_int, int_range, in_int. destruct (is_finite x); [|discriminate].
  destruct ((- 2 ^ 31 <=? _) && (_ <? 2 ^ 31)) eqn:E; [|discriminate].
  intros [= <-]. apply andb_true_iff in E. lia.
Qed.

Lemma floor_int_Some x z :
  floor_int x = Some z -> z = Qfloor (IEEE.to_Q x) /\ in_int z.
Proof.
  unfold floor_int, int_range, in_int. destruct (is_finite x); [|discriminate].
  destruct ((- 2 ^ 31 <=? _) && (_ <? 2 ^ 31)) eqn:E; [|discriminate].
  intros [= <-]. apply andb_true_iff in E. lia.
Qed.

Lemma draw_undefined self render :
  test (options render) (Z.lor FRO_LIVE FRO_MAX_HOLD) = true ->
  spectrum_ends self render = None ->
  fosphor_gl_draw self render = None.
Proof.
  intros Hon Hends. unfold fosphor_gl_draw, draw_spectrum, spectrum_range.
  rewrite Hon, Hends. reflexivity.
Qed.

(** C6, as the code has it. The two ends of the range are the ceiling and
    the floor of the single-precision products
    [(float)bin_count * (center - span / 2.0f)] and
    [(float)bin_count * (center + span / 2.0f)], each taken on the exact
    value of the rounded product, whenever the product is a finite number
    and the integer fits an [int]; when a product is not finite, or an end
    does not fit an [int], the conversion to [int] is undefined, and so is
    the draw of a pane with live or max-hold tracing enabled. For every pane
    with live or max-hold tracing enabled and both ends defined, the bins
    the draw reads for a trace are those from the first end to the second
    that lie in [[1, bin_count - 1]]: the range runs from the first end
    raised to 1 to the second end lowered to [bin_count - 1], and bin 0 is
    never among them (for a bin count of 1 up to [2^30] and ends that leave
    [idx[1] - idx[0] + 1] inside an [int]). *)
Theorem spectrum_bins_clamped self render :
  let xlo := spectrum_lo self render in
  let xhi := spectrum_hi self render in
  spectrum_ends self render
  = (lo ← ceil_int xlo; hi ← floor_int xhi; Some (lo, hi))
  /\ (test (options render) (Z.lor FRO_LIVE FRO_MAX_HOLD) = true ->
      ceil_int xlo = None \/ floor_int xhi = None ->
      spectrum_ends self render = None
      /\ fosphor_gl_draw self render = None)
  /\ (forall lo hi,
         test (options render) (Z.lor FRO_LIVE FRO_MAX_HOLD) = true ->
         ceil_int xlo = Some lo -> floor_int xhi = Some hi ->
         1 <= fft_len self < 2 ^ 30 -> lo <= 2 ^ 30 -> - 2 ^ 30 <= hi ->
         let idx0 := Z.max 1 lo in
         let idx1 := Z.min (fft_len self - 1) hi in
         let len := idx1 - idx0 + 1 in
         lo = Qceiling (IEEE.to_Q xlo)
         /\ hi = Qfloor (IEEE.to_Q xhi)
         /\ spectrum_ends self render = Some (lo, hi)
         /\ spectrum_range self render = Some (idx0, idx1, len)
         /\ draw_arrays <$> draw_spectrum self render
            = Some ((if test (options render) FRO_LIVE then [(idx0, len)] else [])
                    ++ (if test (options render) FRO_MAX_HOLD
                        then [(idx0 + fft_len self, len)] else []))
         /\ (forall b, b ∈ drawn_bins 0 idx0 len
                       <-> (lo <= b <= hi /\ 1 <= b <= fft_len self - 1))
         /\ drawn_bins (fft_len self) (idx0 + fft_len self) len
            = drawn_bins 0 idx0 len
         /\ 0 ∉ drawn_bins 0 idx0 len).
Proof.
  intros xlo xhi.
  pose proof (spectrum_ends_spec self render) as Hspec. fold xlo xhi in Hspec.
  split; [exact Hspec|]. split.
  { intros Hon Hnone.
    assert (Hends : spectrum_ends self render = None).
    { rewrite Hspec. destruct Hnone as [-> | ->]; [reflexivity|].
      destruct (ceil_int xlo); reflexivity. }
    split; [exact Hends|]. apply draw_undefined; assumption. }
  intros lo hi Hon Hc Hf Hn Hlo Hhi idx0 idx1 len.
  assert (Hends : spectrum_ends self render = Some (lo, hi)).
  { rewrite Hspec, Hc, Hf. reflexivity. }
  pose proof (spectrum_range_clamped _ _ _ _ Hends Hn Hlo Hhi) as Hr.
  fold idx0 idx1 len in Hr.
  split; [apply (ceil_int_Some _ _ Hc)|].
  split; [apply (floor_int_Some _ _ Hf)|].
  split; [exact Hends|].
  split; [exact Hr|]. split.
  - rewrite (draw_spectrum_arrays _ _ _ _ _ Hr).
    rewrite (sint32_id (idx0 + fft_len self)); [reflexivity|].
    unfold in_int, idx0. lia.
  - split; [|split].
    + intros b. rewrite elem_of_drawn_bins. unfold len, idx1, idx0. lia.
    + unfold drawn_bins. f_equal.
      replace (idx0 + fft_len self - fft_len self) with (idx0 - 0) by lia.
      reflexivity.
    + rewrite elem_of_drawn_bins. unfold idx0. lia.
Qed.

Lemma spectrum_bins_clamped_witness :
  ceil_int (spectrum_lo demo_fosphor demo_render) = Some 0
  /\ floor_int (spectrum_hi demo_fosphor demo_render) = Some 1024
  /\ spectrum_ends demo_fosphor demo_render = Some (0, 1024)
  /\ spectrum_range demo_fosphor demo_render = Some (1, 1023, 1023)
  /\ draw_arrays <$> draw_spectrum demo_fosphor demo_render
     = Some [(1, 1023); (1025, 1023)]
  /\ 0 ∉ drawn_bins 0 1 1023.
Proof.
  assert (Hc : ceil_int (spectrum_lo demo_fosphor demo_render) = Some 0)
    by reflexivity.
  assert (Hf : floor_int (spectrum_hi demo_fosphor demo_render) = Some 1024)
    by reflexivity.
  destruct (spectrum_bins_clamped demo_fosphor demo_render) as (_ & _ & H).
  destruct (H 0 1024) as (_ & _ & He & Hr & Hd & _ & _ & H0);
    [reflexivity | exact Hc | exact Hf | simpl; lia | lia | lia |].
  split; [exact Hc|]. split; [exact Hf|]. split; [exact He|].
  split; [exact Hr|]. split; [exact Hd|]. exact H0.
Defined.

(** C6 as stated fails. Six key presses from the fresh object leave the zoom
    pane at center 0.45f and span 0.1f: with 1024 bins the draw reads bins
    410 to 512, where the formula on the pane's center and span gives 410 to
    511, the sum [center + span / 2.0f] rounding up to 0.5. And with zoom on
    and the zoom width doubled 25 times the second product is beyond the
    range of [int]: the ends and the draw are undefined there. *)
Lemma spectrum_ends_off_formula :
  (s ← demo_zoomed;
   Some (freq_center (d_render_zoom s), freq_span (d_render_zoom s),
         test (options (d_render_zoom s)) (Z.lor FRO_LIVE FRO_MAX_HOLD),
         spectrum_range demo_fosphor (d_render_zoom s),
         formula_ends demo_fosphor (d_render_zoom s)))
  = Some (S754_finite false 15099494 (-25), S754_finite false 13421773 (-27),
          true, Some (410, 512, 103), (410, 511))
  /\ (s ← demo_wide;
      Some (spectrum_ends demo_fosphor (d_render_zoom s),
            fosphor_gl_draw demo_fosphor (d_render_zoom s)))
     = Some (None, None).
Proof. split; vm_compute; reflexivity. Qed.

(** ** The channel overlay sweep *)

Lemma SFltb_lex x y :
  valid x -> valid y -> (SFltb x y = true <-> lex_lt (rank x) (rank y)).
Proof.
  unfold valid, SFltb, lex_lt.
  destruct x as [sx|sx| |sx mx ex], y as [sy|sy| |sy my ey];
    try discriminate; intros _ _;
    try destruct sx; try destruct sy; cbn [SFcompare rank fst snd];
    try (split; [discriminate|lia]); try (split; [lia|reflexivity]).
  - destruct (Z.compare_spec ex ey); cbn;
      try (split; [discriminate|lia]); try (split; [lia|reflexivity]).
    change (Pos.compare_cont Eq mx my) with (Pos.compare mx my).
    destruct (Pos.compare_spec mx my); cbn;
      try (split; [discriminate|lia]); try (split; [lia|reflexivity]).
  - destruct (Z.compare_spec ex ey); cbn;
      try (split; [discriminate|lia]); try (split; [lia|reflexivity]).
    change (Pos.compare_cont Eq mx my) with (Pos.compare mx my).
    destruct (Pos.compare_spec mx my); cbn;
      try (split; [discriminate|lia]); try (split; [lia|reflexivity]).
Qed.

Lemma SFeqb_lex x y :
  valid x -> valid y -> (SFeqb x y = true <-> rank x = rank y).
Proof.
  unfold valid, SFeqb.
  destruct x as [sx|sx| |sx mx ex], y as [sy|sy| |sy my ey];
    try discriminate; intros _ _;
    try destruct sx; try destruct sy; cbn [SFcompare rank fst snd];
    try (split; [discriminate|intros [=]; lia]);
    try (split; [reflexivity|reflexivity]);
    try (split; [discriminate|discriminate]).
  - destruct (Z.compare_spec ex ey); cbn;
      try (split; [discriminate|intros [=]; lia]).
    change (Pos.compare_cont Eq mx my) with (Pos.compare mx my).
    destruct (Pos.compare_spec mx my); cbn;
      try (split; [discriminate|intros [=]; lia]).
    subst. split; reflexivity.
  - destruct (Z.compare_spec ex ey); cbn;
      try (split; [discriminate|intros [=]; lia]).
    change (Pos.compare_cont Eq mx my) with (Pos.compare mx my).
    destruct (Pos.compare_spec mx my); cbn;
      try (split; [discriminate|intros [=]; lia]).
    subst. split; reflexivity.
Qed.

Lemma flt_irrefl x : ~ flt x x.
Proof. lex_solve. Qed.
Lemma flt_trans x y z : flt x y -> flt y z -> flt x z.
Proof. lex_solve. Qed.
Lemma fle_refl x : fle x x.
Proof. lex_solve. Qed.
Lemma fle_trans x y z : fle x y -> fle y z -> fle x z.
Proof. lex_solve. Qed.
Lemma flt_fle_trans x y z : flt x y -> fle y z -> flt x z.
Proof. lex_solve. Qed.
Lemma fle_flt_trans x y z : fle x y -> flt y z -> flt x z.
Proof. lex_solve. Qed.
Lemma flt_fle x y : flt x y -> fle x y.
Proof. lex_solve. Qed.
Lemma fle_total x y : fle x y \/ flt y x.
Proof. lex_solve. Qed.
Lemma fle_antisym x y : fle x y -> fle y x -> rank x = rank y.
Proof.
  unfold fle, lex_lt. destruct (rank x) as [a [b c]], (rank y) as [a' [b' c']].
  cbn [fst snd]. intros H1 H2.
  assert (a = a') by lia. assert (b = b') by lia. assert (c = c') by lia.
  congruence.
Qed.

Lemma f32_lt_true x y : valid x -> valid y -> f32_lt x y = true <-> flt x y.
Proof. apply SFltb_lex. Qed.
Lemma f32_lt_false x y : valid x -> valid y -> f32_lt x y = false <-> fle y x.
Proof.
  intros Hx Hy. unfold fle. rewrite <- (SFltb_lex x y Hx Hy).
  destruct (SFltb x y) eqn:E; unfold f32_lt; rewrite E; split; congruence.
Qed.
Lemma f32_eq_false x y : valid x -> valid y -> f32_eq x y = false <-> rank x <> rank y.
Proof.
  intros Hx Hy. rewrite <- (SFeqb_lex x y Hx Hy). unfold f32_eq.
  destruct (SFeqb x y); split; congruence.
Qed.
Lemma f32_lt_valid x y : f32_lt x y = true -> valid x /\ valid y.
Proof.
  unfold f32_lt, SFltb, valid.
  destruct x, y; cbn; try discriminate; auto.
Qed.

Lemma dir_sum_app ps qs : dir_sum (ps ++ qs) = dir_sum ps + dir_sum qs.
Proof. induction ps as [|p ps IH]; simpl; lia. Qed.

Lemma dir_sum_bound ps :
  Forall well_formed ps -> - Z.of_nat (length ps) <= dir_sum ps <= Z.of_nat (length ps).
Proof.
  induction 1 as [|p ps [_ Hd] _ IH]; simpl; lia.
Qed.

Lemma last_cons_default {A} (x : A) xs d d' :
  List.last (x :: xs) d = List.last (x :: xs) d'.
Proof.
  revert x. induction xs as [|y xs IH]; intros x; [reflexivity|].
  change (List.last (y :: xs) d = List.last (y :: xs) d'). apply IH.
Qed.

Lemma spans_from_snoc l prev ps q :
  spans_from l prev (ps ++ [q])
  = spans_from l prev ps
    ++ (if negb (f32_eq (pos (List.last ps prev)) (pos q))
           && negb (l + dir_sum ps =? 0)
        then [ {| lvl := l + dir_sum ps; left := pos (List.last ps prev);
                  right := pos q |} ] else []).
Proof.
  revert l prev. induction ps as [|p ps IH]; intros l prev.
  - cbn. rewrite Z.add_0_r. destruct (_ && _); reflexivity.
  - cbn [app spans_from dir_sum]. rewrite IH. rewrite <- app_assoc.
    f_equal. f_equal.
    replace (l + dir p + dir_sum ps) with (l + (dir p + dir_sum ps)) by lia.
    destruct ps as [|p' ps]; [reflexivity|].
    change (List.last (p :: p' :: ps) prev) with (List.last (p' :: ps) prev).
    rewrite (last_cons_default p' ps prev p). reflexivity.
Qed.

Lemma swap_perm_head {A} (l : list A) j a b :
  l !! j = Some b -> b :: <[j:=a]> l ≡ₚ a :: l.
Proof.
  revert j. induction l as [|c l IH]; intros [|j] H; try discriminate.
  - injection H as ->. apply perm_swap.
  - cbn in H. cbn [insert list_insert]. 
    rewrite (perm_swap c b). rewrite (IH _ H). apply perm_swap.
Qed.

Lemma swap_perm {A} (l : list A) i j a b :
  l !! i = Some a -> l !! j = Some b -> <[j:=a]> (<[i:=b]> l) ≡ₚ l.
Proof.
  revert i j. induction l as [|c l IH]; intros [|i] [|j] Hi Hj;
    try discriminate; cbn in *.
  - injection Hi as ->. reflexivity.
  - injection Hi as ->. apply swap_perm_head. exact Hj.
  - injection Hj as ->. apply swap_perm_head. exact Hi.
  - constructor. apply IH; assumption.
Qed.

Lemma well_formed_lookup pt k :
  Forall well_formed pt -> (k < length pt)%nat -> valid (pos (pt !!! k)).
Proof.
  intros H Hk. exact (proj1 (Forall_lookup_total_1 _ _ _ H Hk)).
Qed.

Lemma find_min_spec_gen pt i m :
  Forall well_formed pt -> (S i + m <= length pt)%nat ->
  let r := foldl (fun mi j => if f32_lt (pos (pt !!! j)) (pos (pt !!! mi))
                              then j else mi) i (seq (S i) m) in
  (i <= r < S i + m)%nat
  /\ forall k, (i <= k < S i + m)%nat -> pos_le (pt !!! r) (pt !!! k).
Proof.
  intros Hwf. induction m as [|m IH]; intros Hm r.
  - subst r. cbn. split; [lia|]. intros k Hk.
    replace k with i by lia. apply fle_refl.
  - subst r. rewrite seq_S, foldl_app. cbn [foldl].
    destruct (IH ltac:(lia)) as [Hr Hmin]. 
    set (r := foldl _ i (seq (S i) m)) in *.
    pose proof (well_formed_lookup pt r Hwf ltac:(lia)) as Vr.
    pose proof (well_formed_lookup pt (S i + m) Hwf ltac:(lia)) as Vj.
    destruct (f32_lt (pos (pt !!! (S i + m)%nat)) (pos (pt !!! r))) eqn:E.
    + apply f32_lt_true in E; [|assumption..].
      split; [lia|]. intros k Hk.
      destruct (decide (k = S i + m)%nat) as [->|Hne]; [apply fle_refl|].
      unfold pos_le. eapply fle_trans; [apply flt_fle; exact E|].
      apply Hmin. lia.
    + apply f32_lt_false in E; [|assumption..].
      split; [lia|]. intros k Hk.
      destruct (decide (k = S i + m)%nat) as [->|Hne]; [exact E|].
      apply Hmin. lia.
Qed.

Lemma find_min_spec pt i n :
  Forall well_formed pt -> (i < n <= length pt)%nat ->
  (i <= find_min pt i n < n)%nat
  /\ forall k, (i <= k < n)%nat -> pos_le (pt !!! find_min pt i n) (pt !!! k).
Proof.
  intros Hwf Hn.
  pose proof (find_min_spec_gen pt i (n - S i) Hwf ltac:(lia)) as H.
  cbv zeta in H. fold (find_min pt i n) in H.
  replace (S i + (n - S i))%nat with n in H by lia. exact H.
Qed.

Lemma last_total (l : list point) d :
  l <> [] -> List.last l d = l !!! (length l - 1)%nat.
Proof.
  induction l as [|x l IH]; [congruence|]. intros _.
  destruct l as [|y l]; [reflexivity|].
  change (List.last (x :: y :: l) d) with (List.last (y :: l) d).
  rewrite IH by discriminate. cbn [length]. 
  replace (S (S (length l)) - 1)%nat with (S (S (length l) - 1)) by lia.
  reflexivity.
Qed.

Lemma spans_of_snoc ps q :
  ps <> [] ->
  spans_of (ps ++ [q])
  = spans_of ps
    ++ (if negb (f32_eq (pos (ps !!! (length ps - 1)%nat)) (pos q))
           && negb (dir_sum ps =? 0)
        then [ {| lvl := dir_sum ps; left := pos (ps !!! (length ps - 1)%nat);
                  right := pos q |} ] else []).
Proof.
  destruct ps as [|p0 ps]; [congruence|]. intros _.
  cbn [app spans_of]. rewrite spans_from_snoc.
  assert (Hl : List.last ps p0 = (p0 :: ps) !!! (length (p0 :: ps) - 1)%nat).
  { rewrite <- (last_total (p0 :: ps) p0) by discriminate.
    destruct ps; [reflexivity|]. 
    change (List.last (p0 :: p :: ps) p0) with (List.last (p :: ps) p0).
    reflexivity. }
  rewrite Hl. reflexivity.
Qed.

Lemma sweep_step_inv pt0 i st :
  Forall well_formed pt0 ->
  Z.of_nat (length pt0) < 2 ^ 30 ->
  (1 <= i < length pt0)%nat ->
  sweep_inv pt0 i st ->
  sweep_inv pt0 (S i) (sweep_step (length pt0) st i).
Proof.
  intros Hwf0 Hlen Hi. destruct st as [[pt l] out].
  unfold sweep_inv. cbn [fst snd]. intros (Hperm & Hsorted & Hcut & Hl & Hout).
  assert (Hlen' : length pt = length pt0) by (rewrite Hperm; reflexivity).
  assert (Hwf : Forall well_formed pt) by (rewrite Hperm; exact Hwf0).
  destruct (find_min_spec pt i (length pt0) Hwf ltac:(lia)) as [Hmi Hmin].
  unfold sweep_step.
  set (mi := find_min pt i (length pt0)) in *.
  set (a := pt !!! i). set (b := pt !!! mi).
  assert (Ha : pt !! i = Some a) by (apply list_lookup_lookup_total_lt; lia).
  assert (Hb : pt !! mi = Some b) by (apply list_lookup_lookup_total_lt; lia).
  set (pt' := <[mi:=a]> (<[i:=b]> pt)).
  assert (Hlen2 : length pt' = length pt)
    by (unfold pt'; rewrite !length_insert; reflexivity).
  assert (Htake : take i pt' = take i pt).
  { unfold pt'. rewrite !take_insert_ge by lia. reflexivity. }
  assert (Hi' : pt' !! i = Some b).
  { unfold pt'. destruct (decide (mi = i)) as [E|E].
    - rewrite E. rewrite list_lookup_insert_eq by (rewrite length_insert; lia).
      f_equal. unfold a, b. rewrite E. reflexivity.
    - rewrite list_lookup_insert_ne by exact E.
      apply list_lookup_insert_eq. lia. }
  assert (Hprev : pt' !!! (i - 1)%nat = pt !!! (i - 1)%nat).
  { unfold pt'. rewrite !list_lookup_total_insert_ne by lia. reflexivity. }
  assert (Htake' : take (S i) pt' = take i pt ++ [b]).
  { rewrite (take_S_r _ _ _ Hi'), Htake. reflexivity. }
  assert (Hdrop : forall q, q ∈ drop (S i) pt' -> q ∈ drop i pt).
  { intros q Hq. apply list_elem_of_lookup in Hq. destruct Hq as [k Hk].
    rewrite lookup_drop in Hk. apply list_elem_of_lookup.
    unfold pt' in Hk.
    destruct (decide (mi = S i + k)%nat) as [E|E].
    - rewrite E in Hk.
      rewrite list_lookup_insert_eq in Hk by (rewrite length_insert; lia).
      injection Hk as <-. exists 0%nat. rewrite lookup_drop.
      rewrite Nat.add_0_r. exact Ha.
    - rewrite list_lookup_insert_ne in Hk by exact E.
      rewrite list_lookup_insert_ne in Hk by lia.
      exists (S k). rewrite lookup_drop.
      replace (i + S k)%nat with (S i + k)%nat by lia. exact Hk. }
  assert (Hbdrop : b ∈ drop i pt).
  { apply list_elem_of_lookup. exists (mi - i)%nat. rewrite lookup_drop.
    replace (i + (mi - i))%nat with mi by lia. exact Hb. }
  assert (Hbmin : forall q, q ∈ drop i pt -> pos_le b q).
  { intros q Hq. apply list_elem_of_lookup in Hq. destruct Hq as [k Hk].
    rewrite lookup_drop in Hk.
    pose proof (lookup_lt_Some _ _ _ Hk) as Hlt.
    specialize (Hmin (i + k)%nat ltac:(lia)).
    rewrite (list_lookup_total_correct _ _ _ Hk) in Hmin. exact Hmin. }
  assert (Htake_ne : take i pt <> []).
  { intros E. apply (f_equal length) in E. rewrite length_take_le in E by lia.
    cbn in E. lia. }
  assert (Hlast : take i pt !!! (length (take i pt) - 1)%nat = pt !!! (i - 1)%nat).
  { rewrite length_take_le by lia. apply lookup_total_take_lt. lia. }
  assert (Hbound : - Z.of_nat i <= l <= Z.of_nat i).
  { rewrite Hl.
    pose proof (dir_sum_bound (take i pt)
                  (Forall_take _ _ _ Hwf)) as Hd.
    rewrite length_take_le in Hd by lia. exact Hd. }
  assert (Hdirb : dir b = 1 \/ dir b = -1).
  { apply (Forall_lookup_1 _ _ _ _ Hwf Hb). }
  fold pt'. cbn [fst snd].
  rewrite (list_lookup_total_correct _ _ _ Hi'), Hprev.
  split; [unfold pt'; rewrite (swap_perm pt i mi a b Ha Hb); exact Hperm|].
  split.
  { rewrite Htake'. apply StronglySorted_app. split; [|split].
    - intros x1 x2 H1 H2. apply list_elem_of_singleton in H2. subst x2.
      apply Hcut; assumption.
    - exact Hsorted.
    - repeat constructor. }
  split.
  { intros p q Hp Hq. rewrite Htake' in Hp. apply elem_of_app in Hp.
    apply Hdrop in Hq. destruct Hp as [Hp|Hp].
    - apply Hcut; assumption.
    - apply list_elem_of_singleton in Hp. subst p. apply Hbmin. exact Hq. }
  split.
  { rewrite Htake', dir_sum_app, <- Hl. cbn [dir_sum].
    rewrite sint32_id; [lia|]. unfold in_int. lia. }
  rewrite Htake', (spans_of_snoc _ _ Htake_ne), Hlast, <- Hl, <- Hout.
  destruct (negb (f32_eq (pos (pt !!! (i - 1)%nat)) (pos b)) && negb (l =? 0));
    [reflexivity|]. rewrite app_nil_r. reflexivity.
Qed.

Lemma dir_sum_perm ps qs : ps ≡ₚ qs -> dir_sum ps = dir_sum qs.
Proof.
  induction 1 as [|x ps qs _ IH|x y ps|ps qs rs _ IH1 _ IH2];
    cbn [dir_sum] in *; lia.
Qed.

Lemma sweep_fold_inv pt0 m st :
  Forall well_formed pt0 ->
  Z.of_nat (length pt0) < 2 ^ 30 ->
  (1 + m <= length pt0)%nat ->
  sweep_inv pt0 1 st ->
  sweep_inv pt0 (1 + m) (foldl (sweep_step (length pt0)) st (seq 1 m)).
Proof.
  intros Hwf Hlen. induction m as [|m IH]; intros Hm Hst; [exact Hst|].
  rewrite seq_S, foldl_app. cbn [foldl].
  apply (sweep_step_inv pt0 (1 + m)); [assumption..|lia|].
  apply IH; [lia|exact Hst].
Qed.

Lemma sweep_sorts pt0 :
  Forall well_formed pt0 ->
  Z.of_nat (length pt0) < 2 ^ 30 ->
  (1 <= length pt0)%nat ->
  (forall q, q ∈ pt0 -> pos_le (pt0 !!! 0%nat) q) ->
  fst (fst (sweep pt0)) ≡ₚ pt0
  /\ StronglySorted pos_le (fst (fst (sweep pt0)))
  /\ snd (fst (sweep pt0)) = dir_sum pt0
  /\ snd (sweep pt0) = spans_of (fst (fst (sweep pt0))).
Proof.
  intros Hwf Hlen Hne Hfirst.
  destruct pt0 as [|p0 pt0']; [cbn in Hne; lia|].
  set (pt0 := p0 :: pt0') in *.
  assert (H1 : sweep_inv pt0 1 (pt0, dir (pt0 !!! 0%nat), [])).
  { unfold sweep_inv. cbn [fst snd]. split; [reflexivity|].
    unfold pt0. cbn [take]. rewrite take_0. split; [repeat constructor|].
    split.
    - intros p q Hp Hq. apply list_elem_of_singleton in Hp. subst p.
      apply (Hfirst q). cbn [drop] in Hq. rewrite drop_0 in Hq.
      right. exact Hq.
    - split; [cbn; lia|reflexivity]. }
  assert (Hm : (1 + (length pt0 - 1) <= length pt0)%nat) by (clear - Hne; lia).
  pose proof (sweep_fold_inv pt0 (length pt0 - 1) _ Hwf Hlen Hm H1) as H.
  unfold sweep. 
  replace (1 + (length pt0 - 1))%nat with (length pt0) in H by lia.
  destruct H as (Hperm & Hsorted & _ & Hl & Hout).
  set (r := foldl _ _ _) in *.
  assert (Hlen' : length (fst (fst r)) = length pt0) by (rewrite Hperm; reflexivity).
  rewrite take_ge in Hsorted, Hl, Hout by lia.
  split; [exact Hperm|]. split; [exact Hsorted|]. split; [|exact Hout].
  rewrite Hl. apply dir_sum_perm. exact Hperm.
Qed.

(** Where a span comes from *)
Lemma spans_from_elem l prev ps sp :
  sp ∈ spans_from l prev ps ->
  exists mid q p post,
    prev :: ps = mid ++ q :: p :: post
    /\ left sp = pos q /\ right sp = pos p
    /\ lvl sp = l - dir prev + dir_sum (mid ++ [q])
    /\ f32_eq (pos q) (pos p) = false
    /\ lvl sp <> 0.
Proof.
  revert l prev. induction ps as [|p ps IH]; intros l prev H.
  - cbn in H. apply elem_of_nil in H. contradiction.
  - cbn [spans_from] in H. apply elem_of_app in H. destruct H as [H|H].
    + destruct (negb (f32_eq (pos prev) (pos p))) eqn:E1; cbn [andb] in H;
        [|apply elem_of_nil in H; contradiction].
      destruct (negb (l =? 0)) eqn:E2; [|apply elem_of_nil in H; contradiction].
      apply list_elem_of_singleton in H. subst sp.
      exists [], prev, p, ps. cbn [app lvl left right dir_sum].
      apply negb_true_iff in E1. apply negb_true_iff, Z.eqb_neq in E2.
      repeat split; try reflexivity; try assumption. lia.
    + destruct (IH _ _ H) as (mid & q & p' & post & Heq & Hl & Hr & Hlvl & Hne & H0).
      exists (prev :: mid), q, p', post. cbn [app]. rewrite Heq.
      repeat split; try assumption. rewrite Hlvl. cbn [dir_sum]. lia.
Qed.

Lemma spans_of_elem ps sp :
  sp ∈ spans_of ps ->
  exists pre q p post,
    ps = pre ++ q :: p :: post
    /\ left sp = pos q /\ right sp = pos p
    /\ lvl sp = dir_sum (pre ++ [q])
    /\ f32_eq (pos q) (pos p) = false
    /\ lvl sp <> 0.
Proof.
  destruct ps as [|p0 ps]; cbn [spans_of]; intros H.
  - apply elem_of_nil in H. contradiction.
  - destruct (spans_from_elem _ _ _ _ H)
      as (mid & q & p & post & Heq & Hl & Hr & Hlvl & Hne & H0).
    exists mid, q, p, post. repeat split; try assumption. lia.
Qed.

Lemma spans_from_cons l prev x ps :
  spans_from l prev (x :: ps)
  = (if negb (f32_eq (pos prev) (pos x)) && negb (l =? 0)
     then [ {| lvl := l; left := pos prev; right := pos x |} ] else [])
    ++ spans_from (l + dir x) x ps.
Proof. reflexivity. Qed.

Lemma spans_from_complete l prev mid q p post :
  f32_eq (pos q) (pos p) = false ->
  l - dir prev + dir_sum (mid ++ [q]) <> 0 ->
  forall ps, prev :: ps = mid ++ q :: p :: post ->
  {| lvl := l - dir prev + dir_sum (mid ++ [q]);
     left := pos q; right := pos p |} ∈ spans_from l prev ps.
Proof.
  intros Hne. revert l prev.
  induction mid as [|m mid IH]; intros l prev H0 ps Heq.
  - cbn [app] in Heq. injection Heq as -> ->.
    rewrite spans_from_cons. cbn [app dir_sum] in *. apply elem_of_app. left.
    rewrite Hne. cbn [negb andb].
    replace (l - dir q + (dir q + 0)) with l in * by lia.
    destruct (Z.eqb_spec l 0); [contradiction|]. cbn. left.
  - cbn [app] in Heq. injection Heq as -> Hps.
    destruct mid as [|m' mid'].
    + cbn [app] in Hps. subst ps. rewrite spans_from_cons.
      apply elem_of_app. right.
      cbn [app dir_sum] in *.
      specialize (IH (l + dir q) q). cbn [app dir_sum] in IH.
      replace (l - dir m + (dir m + (dir q + 0)))
        with (l + dir q - dir q + (dir q + 0)) in * by lia.
      apply IH; [assumption|reflexivity].
    + cbn [app] in Hps. subst ps. rewrite spans_from_cons.
      apply elem_of_app. right.
      specialize (IH (l + dir m') m'). cbn [app dir_sum] in *.
      replace (l - dir m + (dir m + (dir m' + dir_sum (mid' ++ [q]))))
        with (l + dir m' - dir m' + (dir m' + dir_sum (mid' ++ [q]))) in * by lia.
      apply IH; [assumption|reflexivity].
Qed.

Lemma spans_of_complete pre q p post :
  f32_eq (pos q) (pos p) = false ->
  dir_sum (pre ++ [q]) <> 0 ->
  {| lvl := dir_sum (pre ++ [q]); left := pos q; right := pos p |}
  ∈ spans_of (pre ++ q :: p :: post).
Proof.
  intros Hne H0.
  destruct pre as [|p0 pre].
  - cbn [app spans_of dir_sum] in *. rewrite spans_from_cons.
    apply elem_of_app. left.
    rewrite Hne. cbn [negb andb].
    replace (dir q + 0) with (dir q) in * by lia.
    destruct (Z.eqb_spec (dir q) 0); [contradiction|]. cbn. left.
  - cbn [app spans_of].
    pose proof (spans_from_complete (dir p0) p0 (p0 :: pre) q p post Hne) as H.
    replace (dir p0 - dir p0 + dir_sum ((p0 :: pre) ++ [q]))
      with (dir_sum ((p0 :: pre) ++ [q])) in H by lia.
    apply H; [exact H0|reflexivity].
Qed.

Lemma level_app ps qs x : level (ps ++ qs) x = level ps x + level qs x.
Proof. induction ps as [|p ps IH]; cbn [app level]; lia. Qed.

Lemma level_perm ps qs x : ps ≡ₚ qs -> level ps x = level qs x.
Proof.
  induction 1 as [|y ps qs _ IH|y z ps|ps qs rs _ IH1 _ IH2];
    cbn [level] in *; lia.
Qed.

Lemma level_all_before ps x :
  Forall (fun p => f32_lt x (pos p) = false) ps -> level ps x = dir_sum ps.
Proof.
  induction 1 as [|p ps Hp _ IH]; cbn [level dir_sum]; [reflexivity|].
  rewrite Hp, IH. reflexivity.
Qed.

Lemma level_all_after ps x :
  Forall (fun p => f32_lt x (pos p) = true) ps -> level ps x = 0.
Proof.
  induction 1 as [|p ps Hp _ IH]; cbn [level]; [reflexivity|].
  rewrite Hp, IH. reflexivity.
Qed.

Lemma fle_neq_flt x y : fle x y -> rank x <> rank y -> flt x y.
Proof.
  unfold fle, flt, lex_lt.
  destruct (rank x) as [a [b c]], (rank y) as [a' [b' c']]. cbn [fst snd].
  intros H Hne.
  destruct (Z.lt_trichotomy a a') as [?|[?|?]]; [lia| |lia].
  destruct (Z.lt_trichotomy b b') as [?|[?|?]]; [lia| |lia].
  destruct (Z.lt_trichotomy c c') as [?|[?|?]]; [lia| |lia].
  subst. contradiction.
Qed.

(** A cut of a sorted array between two different neighbours *)
Lemma sorted_cut pre q p post :
  Forall well_formed (pre ++ q :: p :: post) ->
  StronglySorted pos_le (pre ++ q :: p :: post) ->
  f32_eq (pos q) (pos p) = false ->
  flt (pos q) (pos p)
  /\ Forall (fun y => fle (pos y) (pos q)) (pre ++ [q])
  /\ Forall (fun y => fle (pos p) (pos y)) (p :: post).
Proof.
  intros Hwf Hs Hne.
  assert (Vq : valid (pos q)).
  { apply Forall_app in Hwf. destruct Hwf as [_ Hwf].
    apply Forall_cons in Hwf. apply Hwf. }
  assert (Vp : valid (pos p)).
  { apply Forall_app in Hwf. destruct Hwf as [_ Hwf].
    apply Forall_cons in Hwf. destruct Hwf as [_ Hwf].
    apply Forall_cons in Hwf. apply Hwf. }
  apply StronglySorted_app in Hs. destruct Hs as (Hcross & Hpre & Hrest).
  apply StronglySorted_cons in Hrest. destruct Hrest as [Hq Hrest].
  apply StronglySorted_cons in Hrest. destruct Hrest as [Hp _].
  split; [|split].
  - apply fle_neq_flt.
    + apply Forall_cons in Hq. apply Hq.
    + apply f32_eq_false; assumption.
  - apply Forall_app. split.
    + apply Forall_forall. intros y Hy. apply (Hcross y q Hy). left.
    + repeat constructor. apply fle_refl.
  - constructor; [apply fle_refl|exact Hp].
Qed.

Lemma level_at_cut pre q p post :
  Forall well_formed (pre ++ q :: p :: post) ->
  StronglySorted pos_le (pre ++ q :: p :: post) ->
  f32_eq (pos q) (pos p) = false ->
  level (pre ++ q :: p :: post) (pos q) = dir_sum (pre ++ [q]).
Proof.
  intros Hwf Hs Hne.
  destruct (sorted_cut _ _ _ _ Hwf Hs Hne) as (Hlt & Hbefore & Hafter).
  assert (Vq : valid (pos q)).
  { apply Forall_app in Hwf. destruct Hwf as [_ Hwf].
    apply Forall_cons in Hwf. apply Hwf. }
  replace (pre ++ q :: p :: post) with ((pre ++ [q]) ++ p :: post) in *
    by (rewrite <- app_assoc; reflexivity).
  apply Forall_app in Hwf. destruct Hwf as [Hwf1 Hwf2].
  rewrite level_app, level_all_before, level_all_after; [lia| |].
  - rewrite Forall_forall in *. intros y Hy.
    apply f32_lt_true; [exact Vq|apply (Hwf2 y Hy)|].
    eapply flt_fle_trans; [exact Hlt|apply (Hafter y Hy)].
  - rewrite Forall_forall in *. intros y Hy.
    apply f32_lt_false; [exact Vq|apply (Hwf1 y Hy)|]. apply (Hbefore y Hy).
Qed.

(** Boundary points of channels *)
Lemma valid_f0 : valid f0. Proof. reflexivity. Qed.
Lemma valid_f1 : valid f1. Proof. reflexivity. Qed.
Lemma fle_f0_f1 : fle f0 f1.
Proof. apply f32_lt_false; reflexivity. Qed.

Lemma clamp01_range f :
  valid (clamp01 f) /\ fle f0 (clamp01 f) /\ fle (clamp01 f) f1.
Proof.
  unfold clamp01.
  destruct (f32_lt f0 f) eqn:E0.
  - destruct (f32_lt_valid _ _ E0) as [_ Vf].
    apply f32_lt_true in E0; [|apply valid_f0|exact Vf].
    destruct (f32_lt f f1) eqn:E1.
    + apply f32_lt_true in E1; [|exact Vf|apply valid_f1].
      split; [exact Vf|]. split; apply flt_fle; assumption.
    + split; [apply valid_f1|]. split; [apply fle_f0_f1|apply fle_refl].
  - split; [apply valid_f0|]. split; [apply fle_refl|apply fle_f0_f1].
Qed.

Lemma in_unit_clamp d f :
  d = 1 \/ d = -1 -> in_unit {| dir := d; pos := clamp01 f |}.
Proof.
  intros Hd. destruct (clamp01_range f) as (V & H0 & H1).
  unfold in_unit, well_formed. cbn [pos dir]. tauto.
Qed.

Lemma channel_points_in_unit c : Forall in_unit (channel_points c).
Proof.
  unfold channel_points. destruct (enabled c =? 0); [constructor|].
  unfold chan_start, chan_end.
  constructor; [apply in_unit_clamp; lia|].
  constructor; [apply in_unit_clamp; lia|constructor].
Qed.

Lemma gen_points_in_unit chans : Forall in_unit (gen_points chans).
Proof.
  unfold gen_points. apply Forall_app. split.
  - constructor; [|constructor; [|constructor]];
      unfold in_unit, well_formed; cbn [pos dir];
      pose proof valid_f0; pose proof valid_f1; pose proof fle_f0_f1;
      pose proof (fle_refl f0); pose proof (fle_refl f1); intuition lia.
  - induction chans as [|c chans IH]; [constructor|].
    cbn [mbind list_bind]. apply Forall_app. split; [|exact IH].
    apply channel_points_in_unit.
Qed.

Lemma gen_points_well_formed chans : Forall well_formed (gen_points chans).
Proof.
  eapply Forall_impl; [apply gen_points_in_unit|]. intros p H. apply H.
Qed.

Lemma gen_points_length chans :
  (2 <= length (gen_points chans) <= 2 + 2 * length chans)%nat.
Proof.
  unfold gen_points. rewrite length_app. cbn [length].
  induction chans as [|c chans IH]; cbn [mbind list_bind length]; [lia|].
  rewrite length_app. unfold channel_points at 1 3.
  destruct (enabled c =? 0); cbn [length]; lia.
Qed.

Lemma depth_cons c chans x :
  depth (c :: chans) x = Z.b2z (covers c x) + depth chans x.
Proof.
  unfold depth. rewrite filter_cons.
  destruct (decide (covers c x = true)) as [E|E].
  - rewrite E. cbn [length Z.b2z]. lia.
  - apply not_true_is_false in E. rewrite E. cbn [Z.b2z]. lia.
Qed.

Lemma level_channel_points c x :
  valid x -> chan_ok c ->
  level (channel_points c) x = Z.b2z (covers c x).
Proof.
  intros Vx Hok. unfold channel_points, covers, chan_ok, GL.f32_le in *.
  destruct (Z.eqb_spec (enabled c) 0) as [|En]; [reflexivity|].
  destruct Hok as [Hok|Hok]; [contradiction|].
  cbn [negb andb level pos dir].
  pose proof (proj1 (clamp01_range (f32_sub (center c) (f32_div (width c) f2)))) as Vs.
  pose proof (proj1 (clamp01_range (f32_add (center c) (f32_div (width c) f2)))) as Ve.
  fold (chan_start c) in *. fold (chan_end c) in *.
  apply f32_lt_false in Hok; [|assumption..].
  destruct (f32_lt x (chan_start c)) eqn:E1, (f32_lt x (chan_end c)) eqn:E2;
    cbn [negb andb Z.b2z]; try lia.
  exfalso.
  apply f32_lt_true in E1; [|assumption..].
  apply f32_lt_false in E2; [|assumption..].
  lex_solve.
Qed.

Lemma level_channels chans x :
  valid x -> Forall chan_ok chans ->
  level (chans ≫= channel_points) x = depth chans x.
Proof.
  intros Vx. induction 1 as [|c chans Hc _ IH]; [reflexivity|].
  cbn [mbind list_bind]. rewrite level_app, depth_cons, IH.
  rewrite (level_channel_points c x Vx Hc). reflexivity.
Qed.

Lemma level_gen_points chans x :
  valid x -> fle f0 x -> flt x f1 -> Forall chan_ok chans ->
  level (gen_points chans) x = depth chans x - 1.
Proof.
  intros Vx H0 H1 Hok. unfold gen_points. rewrite level_app.
  rewrite (level_channels chans x Vx Hok). cbn [level pos dir].
  apply f32_lt_false in H0; [|apply Vx|apply valid_f0].
  apply f32_lt_true in H1; [|apply Vx|apply valid_f1].
  rewrite H0, H1. lia.
Qed.

Lemma depth_ext chans x a :
  Forall (fun c => covers c x = covers c a) chans ->
  depth chans x = depth chans a.
Proof.
  induction 1 as [|c chans Hc _ IH]; [reflexivity|].
  rewrite !depth_cons, Hc, IH. reflexivity.
Qed.

Lemma channel_points_in_gen_points c chans y :
  c ∈ chans -> y ∈ channel_points c -> y ∈ gen_points chans.
Proof.
  intros Hc Hy. unfold gen_points. apply elem_of_app. right.
  apply list_elem_of_bind. exists c. split; assumption.
Qed.

Lemma covers_between chans a b x c :
  (forall y, y ∈ gen_points chans -> fle (pos y) a \/ fle b (pos y)) ->
  c ∈ chans -> valid a -> valid x -> fle a x -> flt x b ->
  covers c x = covers c a.
Proof.
  intros Hcut Hc Va Vx Hax Hxb. unfold covers, GL.f32_le.
  destruct (enabled c =? 0) eqn:En; [reflexivity|]. cbn [negb andb].
  assert (Hs : {| dir := 1; pos := chan_start c |} ∈ gen_points chans).
  { apply (channel_points_in_gen_points c); [exact Hc|].
    unfold channel_points. rewrite En. left. }
  assert (He : {| dir := -1; pos := chan_end c |} ∈ gen_points chans).
  { apply (channel_points_in_gen_points c); [exact Hc|].
    unfold channel_points. rewrite En. right. left. }
  apply Hcut in Hs, He. cbn [pos] in Hs, He.
  pose proof (proj1 (clamp01_range (f32_sub (center c) (f32_div (width c) f2)))) as Vs.
  pose proof (proj1 (clamp01_range (f32_add (center c) (f32_div (width c) f2)))) as Ve.
  fold (chan_start c) in *. fold (chan_end c) in *.
  assert (E1 : f32_lt x (chan_start c) = f32_lt a (chan_start c)).
  { destruct (f32_lt a (chan_start c)) eqn:E.
    - apply f32_lt_true in E; [|assumption..].
      apply f32_lt_true; [assumption..|].
      destruct Hs as [Hs|Hs]; [exfalso; lex_solve|].
      eapply flt_fle_trans; eassumption.
    - apply f32_lt_false in E; [|assumption..].
      apply f32_lt_false; [assumption..|].
      eapply fle_trans; eassumption. }
  assert (E2 : f32_lt x (chan_end c) = f32_lt a (chan_end c)).
  { destruct (f32_lt a (chan_end c)) eqn:E.
    - apply f32_lt_true in E; [|assumption..].
      apply f32_lt_true; [assumption..|].
      destruct He as [He|He]; [exfalso; lex_solve|].
      eapply flt_fle_trans; eassumption.
    - apply f32_lt_false in E; [|assumption..].
      apply f32_lt_false; [assumption..|].
      eapply fle_trans; eassumption. }
  rewrite E1, E2. reflexivity.
Qed.

Lemma StronglySorted_impl_in {A} (R R' : relation A) l :
  (forall x y, x ∈ l -> y ∈ l -> R x y -> R' x y) ->
  StronglySorted R l -> StronglySorted R' l.
Proof.
  intros HR Hs. induction Hs as [|x l Hs IH Hx]; constructor.
  - apply IH. intros y z Hy Hz. apply HR; right; assumption.
  - rewrite Forall_forall in *. intros y Hy.
    apply HR; [left|right; exact Hy|apply Hx; exact Hy].
Qed.

Lemma sweep_gen_points chans :
  Forall chan_ok chans ->
  Z.of_nat (length chans) < 2 ^ 28 ->
  let r := sweep (gen_points chans) in
  fst (fst r) ≡ₚ gen_points chans
  /\ sorted_by_pos (fst (fst r))
  /\ (forall sp, sp ∈ snd r -> span_at_depth chans sp)
  /\ (forall pre q p post,
         fst (fst r) = pre ++ q :: p :: post ->
         f32_eq (pos q) (pos p) = false ->
         depth chans (pos q) <> 1 ->
         {| lvl := depth chans (pos q) - 1; left := pos q; right := pos p |}
         ∈ snd r).
Proof.
  intros Hok Hlen r.
  pose proof (gen_points_in_unit chans) as Hunit.
  pose proof (gen_points_well_formed chans) as Hwf.
  pose proof (gen_points_length chans) as Hn.
  destruct (sweep_sorts (gen_points chans) Hwf) as (Hperm & Hsorted & _ & Hout).
  { lia. }
  { lia. }
  { intros q Hq. rewrite Forall_forall in Hunit. apply (Hunit q Hq). }
  fold r in Hperm, Hsorted, Hout.
  assert (Hunit' : Forall in_unit (fst (fst r))) by (rewrite Hperm; exact Hunit).
  assert (Hwf' : Forall well_formed (fst (fst r))) by (rewrite Hperm; exact Hwf).
  assert (Hcutfacts : forall pre q p post,
             fst (fst r) = pre ++ q :: p :: post ->
             f32_eq (pos q) (pos p) = false ->
             flt (pos q) (pos p)
             /\ dir_sum (pre ++ [q]) = depth chans (pos q) - 1
             /\ (forall y, y ∈ gen_points chans ->
                           fle (pos y) (pos q) \/ fle (pos p) (pos y))
             /\ valid (pos q) /\ valid (pos p)).
  { intros pre q p post Heq Hne.
    rewrite Heq in Hsorted, Hwf', Hunit'.
    destruct (sorted_cut _ _ _ _ Hwf' Hsorted Hne) as (Hlt & Hbefore & Hafter).
    pose proof (level_at_cut _ _ _ _ Hwf' Hsorted Hne) as Hlevel.
    rewrite <- Heq in Hlevel. rewrite (level_perm _ _ _ Hperm) in Hlevel.
    apply Forall_app in Hunit'. destruct Hunit' as [_ Hu].
    apply Forall_cons in Hu. destruct Hu as [Uq Hu].
    apply Forall_cons in Hu. destruct Hu as [Up _].
    destruct Uq as ((Vq & _) & Hq0 & _). destruct Up as ((Vp & _) & _ & Hp1).
    split; [exact Hlt|]. split.
    - rewrite <- Hlevel. apply level_gen_points; try assumption.
      eapply flt_fle_trans; eassumption.
    - split; [|split; assumption].
      intros y Hy. rewrite <- Hperm, Heq in Hy.
      replace (pre ++ q :: p :: post) with ((pre ++ [q]) ++ p :: post) in Hy
        by (rewrite <- app_assoc; reflexivity).
      rewrite Forall_forall in Hbefore, Hafter.
      apply elem_of_app in Hy. destruct Hy as [Hy|Hy]; [left|right]; auto. }
  split; [exact Hperm|]. split.
  { eapply StronglySorted_impl_in; [|exact Hsorted].
    intros x y Hx Hy Hxy. rewrite Forall_forall in Hwf'.
    apply f32_lt_false; [apply (Hwf' y Hy)|apply (Hwf' x Hx)|exact Hxy]. }
  split.
  - intros sp Hsp. rewrite Hout in Hsp.
    destruct (spans_of_elem _ _ Hsp)
      as (pre & q & p & post & Heq & Hl & Hr & Hlvl & Hne & H0).
    destruct (Hcutfacts _ _ _ _ Heq Hne) as (Hlt & Hsum & Hcut & Vq & Vp).
    unfold span_at_depth. rewrite Hl, Hr, Hlvl.
    split; [apply f32_lt_true; assumption|]. split; [exact Hsum|].
    split; [rewrite Hlvl, Hsum in H0; lia|].
    intros x Hx0 Hx1.
    destruct (f32_lt_valid _ _ Hx1) as [Vx _].
    apply f32_lt_false in Hx0; [|assumption..].
    apply f32_lt_true in Hx1; [|assumption..].
    apply depth_ext. apply Forall_forall. intros c Hc.
    eapply covers_between; eassumption.
  - intros pre q p post Heq Hne Hd.
    destruct (Hcutfacts _ _ _ _ Heq Hne) as (_ & Hsum & _).
    rewrite Hout, Heq, <- Hsum. apply spans_of_complete; [exact Hne|]. lia.
Qed.


(** *** Shading *)

Lemma channels_disabled_points chans :
  Forall (fun c => enabled c = 0) chans -> chans ≫= channel_points = [].
Proof.
  induction 1 as [|c chans Hc _ IH]; [reflexivity|].
  cbn [mbind list_bind]. rewrite IH. unfold channel_points. rewrite Hc.
  reflexivity.
Qed.

Lemma channels_enabled_points chans :
  Exists (fun c => enabled c <> 0) chans ->
  (0 < length (chans ≫= channel_points))%nat.
Proof.
  induction 1 as [c chans Hc|c chans _ IH]; cbn [mbind list_bind];
    rewrite length_app.
  - unfold channel_points. destruct (Z.eqb_spec (enabled c) 0); [contradiction|].
    cbn [length]. lia.
  - lia.
Qed.

Lemma draw_channels_off render :
  test (options render) FRO_CHANNELS = false
  \/ Forall (fun c => enabled c = 0) (channels render) ->
  draw_channels render = [].
Proof.
  intros [H|H]; unfold draw_channels.
  - rewrite H. reflexivity.
  - destruct (test (options render) FRO_CHANNELS); [|reflexivity].
    unfold gen_points. rewrite (channels_disabled_points _ H). reflexivity.
Qed.

Lemma draw_channels_on render :
  test (options render) FRO_CHANNELS = true ->
  Exists (fun c => enabled c <> 0) (channels render) ->
  draw_channels render
  = overlay_of render (snd (sweep (gen_points (channels render)))).
Proof.
  intros Ho He. unfold draw_channels, overlay_of. rewrite Ho.
  pose proof (channels_enabled_points _ He) as Hl.
  assert (E : (2 <? length (gen_points (channels render)))%nat = true).
  { apply Nat.ltb_lt. unfold gen_points. rewrite length_app. cbn [length]. lia. }
  rewrite E. reflexivity.
Qed.

Lemma shade_head render sp :
  exists quads,
    shade render sp
    = glColor4f (fst (fst (fst (shade_color (lvl sp)))))
                (snd (fst (fst (shade_color (lvl sp)))))
                (snd (fst (shade_color (lvl sp))))
                (snd (shade_color (lvl sp)))
      :: quads
    /\ Forall (fun c => exists a b c' d,
                   c = gl_quad (right sp, a) (left sp, b) (left sp, c') (right sp, d))
              quads.
Proof.
  unfold shade. destruct (shade_color (lvl sp)) as [[[r g] b] a].
  cbn [fst snd]. eexists. split; [reflexivity|].
  apply Forall_app. split;
    match goal with |- context [if ?c then _ else _] => destruct c end;
    repeat constructor; eauto.
Qed.

Lemma alphas_checked :
  increasing (shade_alpha <$> seqZ 0 3699) = true.
Proof. vm_compute. reflexivity. Qed.

Lemma alpha_saturates : shade_alpha 3698 = shade_alpha 3699.
Proof. vm_compute. reflexivity. Qed.

Lemma increasing_lookup xs i x y :
  increasing xs = true -> xs !! i = Some x -> xs !! S i = Some y ->
  f32_lt x y = true.
Proof.
  revert i. induction xs as [|a xs IH]; intros i H Hx Hy; [discriminate|].
  destruct xs as [|b xs]; [discriminate|].
  cbn [increasing] in H. apply andb_true_iff in H. destruct H as [Hab H].
  destruct i as [|i].
  - cbn in Hx, Hy. injection Hx as <-. injection Hy as <-. exact Hab.
  - eapply IH; [exact H|exact Hx|exact Hy].
Qed.

Lemma shade_alpha_step l :
  0 <= l < 3698 -> f32_lt (shade_alpha l) (shade_alpha (l + 1)) = true.
Proof.
  intros Hl.
  apply (increasing_lookup (shade_alpha <$> seqZ 0 3699) (Z.to_nat l));
    [exact alphas_checked| |].
  - rewrite list_lookup_fmap, (lookup_seqZ_lt _ _ _) by lia.
    cbn [fmap option_fmap option_map]. do 2 f_equal. lia.
  - rewrite list_lookup_fmap, (lookup_seqZ_lt _ _ _) by lia.
    cbn [fmap option_fmap option_map]. do 2 f_equal. lia.
Qed.

Lemma shade_alpha_grows l l' :
  0 <= l < l' -> l' <= 3698 ->
  f32_lt (shade_alpha l) (shade_alpha l') = true.
Proof.
  intros Hl Hl'.
  replace l' with (l + 1 + Z.of_nat (Z.to_nat (l' - l - 1))) in * by lia.
  generalize dependent (Z.to_nat (l' - l - 1)). intros n.
  induction n as [|n IH]; intros Hl Hl'.
  - rewrite Z.add_0_r. apply shade_alpha_step. lia.
  - pose proof (IH ltac:(lia) ltac:(lia)) as IH1.
    pose proof (shade_alpha_step (l + 1 + Z.of_nat n) ltac:(lia)) as H1.
    replace (l + 1 + Z.of_nat (S n)) with (l + 1 + Z.of_nat n + 1) by lia.
    destruct (f32_lt_valid _ _ IH1) as [Va Vb].
    destruct (f32_lt_valid _ _ H1) as [_ Vc].
    apply f32_lt_true; [assumption..|].
    apply f32_lt_true in IH1, H1; try assumption.
    eapply flt_trans; eassumption.
Qed.

(** The opacity inside the channels is below the 0.5 of the outside, at
    every counter an [int] holds. *)
Lemma shade_alpha_below_half l :
  0 <= l < 2 ^ 31 - 1 -> f32_lt (shade_alpha l) f0_5 = true.
Proof.
  intros Hl. unfold shade_alpha, shade_color.
  destruct (Z.ltb_spec l 0); [lia|]. cbn [snd].
  rewrite (sint32_id (1 + l)) by (unfold in_int; lia).
  destruct (f32_of_int_pos (1 + l) ltac:(lia)) as (m & e & -> & _).
  destruct (f32_div_sign m e) as (D & [->|[(mq & eq & -> & _)|[-> _]]]).
  - reflexivity.
  - rewrite lit_0_2f. unfold f32_sub, SFsub. cbn [cond_Zopp].
    set (ez := Z.min (-26) eq).
    assert (HX : Zpos (fst (shl_align 13421773 (-26) ez)) < 2 ^ (- 2 - ez)).
    { unfold shl_align. destruct (ez - -26) as [|d|d] eqn:Ed; cbn [fst].
      - replace (- 2 - ez) with 24 by lia. reflexivity.
      - lia.
      - rewrite pos_iter_xO. replace (- 2 - ez) with (24 + Zpos d) by lia.
        rewrite Z.pow_add_r by lia.
        assert (0 < 2 ^ Zpos d) by (apply Z.pow_pos_nonneg; lia).
        change (2 ^ 24) with 16777216. lia. }
    set (X := Zpos (fst (shl_align 13421773 (-26) ez))) in *.
    set (Y := Zpos (fst (shl_align mq eq ez))).
    assert (HY : 0 < Y) by (unfold Y; lia).
    destruct (X - Y) as [|z|z] eqn:Ez; cbn [binary_normalize].
    + reflexivity.
    + apply (rounds_below_lt_half false (-2)); [|right; lia].
      apply binary_round_shape; [|lia].
      destruct (digits2_pos_bounds z) as [Hlo _].
      destruct (Z.le_gt_cases (Zpos (digits2_pos z) + ez) (-2)) as [|Hgt];
        [assumption|].
      assert (2 ^ (- 2 - ez) <= 2 ^ (Zpos (digits2_pos z) - 1))
        by (apply Z.pow_le_mono_r; lia).
      lia.
    + apply (rounds_below_lt_half true
               (Z.max (Zpos (digits2_pos z) + ez) (-125))); [|left; reflexivity].
      apply binary_round_shape; lia.
  - reflexivity.
Qed.

Lemma shade_color_outside l : l < 0 -> shade_color l = (f0, f0, f0, f0_5).
Proof.
  intros Hl. unfold shade_color.
  destruct (Z.ltb_spec l 0); [reflexivity|lia].
Qed.

Lemma shade_color_inside l :
  0 < l -> shade_color l = (f1, f1, f1, shade_alpha l).
Proof.
  intros Hl. unfold shade_alpha, shade_color.
  destruct (Z.ltb_spec l 0); [lia|reflexivity].
Qed.



